(** * Particle-Visualizer: the per-frame simulate-and-render loop

    A shallow embedding of the canvas component of
    [src/components/Visualizer.tsx] and of its pointer-interactive twin, the
    variant that adds mouse repulsion.  The two variants share every
    function; they differ in whether [draw] reads a pointer position, which
    is [Some] position in the interactive variant and [None] in the other.

    Numbers.  A JavaScript [number] is modelled as a real ([R]): the
    development is about the idealised arithmetic of the loop, so rounding,
    infinities and NaN are outside the model.  [Math.sqrt], [Math.cos],
    [Math.sin] and [Math.abs] are the corresponding real functions,
    [Math.atan2] is [atan2] below, and [%] is [js_rem].  [Math.random] is an
    oracle: the [k]-th call returns [random k].

    Rounding.  What the loop does to the speed of a particle depends on
    rounding: on reals the reset velocity of the speed floor has length
    exactly 1, on binary64 floats it need not.  The kinematic part of the
    loop is therefore also given over an arbitrary arithmetic ([Machine]
    below), of which the arithmetic on reals, every arithmetic that rounds
    within given error bounds, and binary64 are instances; what the speed
    floor does to the speed is stated there.

    Objects.  The particle array holds mutable objects; it is modelled as a
    [list Particle] that is read and written by index, so a mutation made
    through one alias ([p], [p2], [particles[i]]) is seen through the others.
    The 2D drawing context is a record of its drawing state together with the
    log of everything painted so far.

    Effects.  The refs of the component and the host state they touch (the
    queue of requested animation frames, the count of random draws) form a
    [World] that every effect and every [draw] takes and returns.  The
    settings panel and the state setters are not modelled: a [Props] value is
    what one render of the component closes over. *)

From Stdlib Require Import Floats.
From Stdlib Require Import Reals Lra Lia ZArith String Ascii.
From stdpp Require Import base list.

Open Scope R_scope.

(** ** Numbers *)

(** [a < b] on numbers, as a boolean. *)
Definition Rltb (a b : R) : bool := if Rlt_dec a b then true else false.

(** [a === b] on numbers. *)
Definition Reqb (a b : R) : bool := if Req_dec_T a b then true else false.

(** Truncation towards zero, the rounding that [%] uses. *)
Definition Ztrunc (r : R) : Z := if Rltb r 0 then Zceil r else Zfloor r.

(** [a % b]: the remainder has the sign of the dividend. *)
Definition js_rem (a b : R) : R := a - b * IZR (Ztrunc (a / b)).

(** [Math.atan2(y, x)] on reals (the two zeros of a float are one real). *)
Definition atan2 (y x : R) : R :=
  if Rltb 0 x then atan (y / x)
  else if Rltb x 0 then
    (if Rltb y 0 then atan (y / x) - PI else atan (y / x) + PI)
  else if Rltb 0 y then PI / 2
  else if Rltb y 0 then - (PI / 2)
  else 0.

(** ** Data model *)

Record Particle : Type := mkParticle {
  x : R;
  y : R;
  vx : R;
  vy : R;
  size : R;
  hue : R;
  saturation : R;
  brightness : R
}.

(** Field assignments, [p.x = v] and so on. *)
Definition set_x (v : R) (p : Particle) : Particle :=
  mkParticle v (y p) (vx p) (vy p) (size p)
             (hue p) (saturation p) (brightness p).
Definition set_y (v : R) (p : Particle) : Particle :=
  mkParticle (x p) v (vx p) (vy p) (size p)
             (hue p) (saturation p) (brightness p).
Definition set_vx (v : R) (p : Particle) : Particle :=
  mkParticle (x p) (y p) v (vy p) (size p)
             (hue p) (saturation p) (brightness p).
Definition set_vy (v : R) (p : Particle) : Particle :=
  mkParticle (x p) (y p) (vx p) v (size p)
             (hue p) (saturation p) (brightness p).
Definition set_size (v : R) (p : Particle) : Particle :=
  mkParticle (x p) (y p) (vx p) (vy p) v
             (hue p) (saturation p) (brightness p).
Definition set_hue (v : R) (p : Particle) : Particle :=
  mkParticle (x p) (y p) (vx p) (vy p) (size p)
             v (saturation p) (brightness p).
Definition set_saturation (v : R) (p : Particle) : Particle :=
  mkParticle (x p) (y p) (vx p) (vy p) (size p)
             (hue p) v (brightness p).
Definition set_brightness (v : R) (p : Particle) : Particle :=
  mkParticle (x p) (y p) (vx p) (vy p) (size p)
             (hue p) (saturation p) v.

(** The [effects] state object.  The two pointer fields exist only in the
    interactive variant; the other variant never reads them. *)
Record Effects : Type := mkEffects {
  colorMode : string;
  particleShape : string;
  lineStyle : string;
  trailLength : R;
  particleSize : R;
  connectionDistance : R;
  glowEffect : bool;
  glowIntensity : R;
  mouseRepulsion : R;
  mouseForce : R
}.

(** What a [draw] closure sees of the component state. *)
Record Props : Type := mkProps {
  effects : Effects;
  lineWidth : R;
  particleColor : string;
  particleCount : nat
}.

(** ** Simulation: one particle, one tick *)

Definition baseSpeed : R := 1.

(** "Apply mouse repulsion force" (interactive variant only). *)
Definition repel (e : Effects) (mouse : R * R) (p : Particle) : Particle :=
  let dx := x p - fst mouse in
  let dy := y p - snd mouse in
  let distance := sqrt (dx * dx + dy * dy) in
  if Rltb distance (mouseRepulsion e) then
    let force := (mouseRepulsion e - distance) / mouseRepulsion e in
    let angle := atan2 dy dx in
    let p1 := set_vx (vx p + cos angle * force * mouseForce e) p in
    set_vy (vy p1 + sin angle * force * mouseForce e) p1
  else p.

(** "Maintain constant base movement", on reals; [Machine.speed_floor] below
    is the same step over an arbitrary arithmetic. *)
Definition speed_floor (p : Particle) : Particle :=
  let angle := atan2 (vy p) (vx p) in
  let speed := sqrt (vx p * vx p + vy p * vy p) in
  if Rltb speed baseSpeed then
    let p1 := set_vx (cos angle * baseSpeed) p in
    set_vy (sin angle * baseSpeed) p1
  else p.

(** "Update position". *)
Definition integrate (p : Particle) : Particle :=
  let p1 := set_x (x p + vx p) p in
  set_y (y p1 + vy p1) p1.

(** "Bounce off walls with energy preservation". *)
Definition bounce_x (w : R) (p : Particle) : Particle :=
  if Rltb (x p) 0 then set_vx (Rabs (vx p)) (set_x 0 p)
  else if Rltb w (x p) then set_vx (- Rabs (vx p)) (set_x w p)
  else p.

Definition bounce_y (h : R) (p : Particle) : Particle :=
  if Rltb (y p) 0 then set_vy (Rabs (vy p)) (set_y 0 p)
  else if Rltb h (y p) then set_vy (- Rabs (vy p)) (set_y h p)
  else p.

(** The pointer position, [None] in the variant without pointer repulsion. *)
Definition Pointer : Type := option (R * R).

(** The kinematic part of one iteration of the loop of [draw]. *)
Definition advance (e : Effects) (mouse : Pointer) (w h : R) (p : Particle)
  : Particle :=
  let p1 := match mouse with Some m => repel e m p | None => p end in
  bounce_y h (bounce_x w (integrate (speed_floor p1))).

(** ** The 2D drawing context *)

(** A CSS colour, as the template strings of the source build it. *)
Inductive Color : Type :=
  | Rgba (r g b a : R)          (* `rgba(r, g, b, a)` *)
  | Hsl (h s l : R).            (* `hsl(h, s%, l%)` *)

(** What can be assigned to [fillStyle] and [strokeStyle]. *)
Inductive Style : Type :=
  | Plain (c : Color)
  | LinearGradient (x0 y0 x1 y1 : R) (stops : list (R * Color)).

Inductive PathCmd : Type :=
  | Rect (px py w h : R)
  | MoveTo (px py : R)
  | LineTo (px py : R)
  | Arc (px py radius startAngle endAngle : R).

(** One painting operation, with the drawing state it was painted under. *)
Inductive Paint : Type :=
  | FillRect (style : Style) (shadowBlur : R) (px py w h : R)
  | Fill (style : Style) (shadowColor : Color) (shadowBlur : R)
         (path : list PathCmd)
  | Stroke (style : Style) (dash : list R) (width : R) (shadowBlur : R)
           (path : list PathCmd).

Module Ctx.

Record t : Type := mk {
  fillStyle : Style;
  strokeStyle : Style;
  shadowColor : Color;
  shadowBlur : R;
  lineDash : list R;
  lineWidth : R;
  path : list PathCmd;
  painted : list Paint
}.

Definition set_fillStyle (v : Style) (c : t) : t :=
  mk v (strokeStyle c) (shadowColor c) (shadowBlur c) (lineDash c)
     (lineWidth c) (path c) (painted c).
Definition set_strokeStyle (v : Style) (c : t) : t :=
  mk (fillStyle c) v (shadowColor c) (shadowBlur c) (lineDash c)
     (lineWidth c) (path c) (painted c).
Definition set_shadowColor (v : Color) (c : t) : t :=
  mk (fillStyle c) (strokeStyle c) v (shadowBlur c) (lineDash c)
     (lineWidth c) (path c) (painted c).
Definition set_shadowBlur (v : R) (c : t) : t :=
  mk (fillStyle c) (strokeStyle c) (shadowColor c) v (lineDash c)
     (lineWidth c) (path c) (painted c).
Definition setLineDash (v : list R) (c : t) : t :=
  mk (fillStyle c) (strokeStyle c) (shadowColor c) (shadowBlur c) v
     (lineWidth c) (path c) (painted c).
Definition set_lineWidth (v : R) (c : t) : t :=
  mk (fillStyle c) (strokeStyle c) (shadowColor c) (shadowBlur c)
     (lineDash c) v (path c) (painted c).
Definition set_path (v : list PathCmd) (c : t) : t :=
  mk (fillStyle c) (strokeStyle c) (shadowColor c) (shadowBlur c)
     (lineDash c) (lineWidth c) v (painted c).
Definition paint (op : Paint) (c : t) : t :=
  mk (fillStyle c) (strokeStyle c) (shadowColor c) (shadowBlur c)
     (lineDash c) (lineWidth c) (path c) (painted c ++ [op]).

Definition beginPath (c : t) : t := set_path [] c.
Definition add (cmd : PathCmd) (c : t) : t := set_path (path c ++ [cmd]) c.
Definition rect (px py w h : R) : t -> t := add (Rect px py w h).
Definition moveTo (px py : R) : t -> t := add (MoveTo px py).
Definition lineTo (px py : R) : t -> t := add (LineTo px py).
Definition arc (px py r a0 a1 : R) : t -> t := add (Arc px py r a0 a1).

Definition fillRect (px py w h : R) (c : t) : t :=
  paint (FillRect (fillStyle c) (shadowBlur c) px py w h) c.
Definition fill (c : t) : t :=
  paint (Fill (fillStyle c) (shadowColor c) (shadowBlur c) (path c)) c.
Definition stroke (c : t) : t :=
  paint (Stroke (strokeStyle c) (lineDash c) (lineWidth c) (shadowBlur c)
                (path c)) c.

(** A context as [getContext('2d')] first hands it out. *)
Definition fresh : t :=
  mk (Plain (Rgba 0 0 0 1)) (Plain (Rgba 0 0 0 1)) (Rgba 0 0 0 0) 0 [] 1
     [] [].

End Ctx.

(** [ctx.createLinearGradient] and [gradient.addColorStop]; a plain colour
    takes no stops. *)
Definition createLinearGradient (x0 y0 x1 y1 : R) : Style :=
  LinearGradient x0 y0 x1 y1 [].

Definition addColorStop (offset : R) (c : Color) (g : Style) : Style :=
  match g with
  | LinearGradient x0 y0 x1 y1 stops =>
      LinearGradient x0 y0 x1 y1 (stops ++ [(offset, c)])
  | Plain _ => g
  end.

(** Statement sequencing on the context: [c |> f] is [f] run on [c]. *)
Notation "c |> f" := (f c) (at level 45, left associativity, only parsing).

(** ** Render: colour, particle, line *)

(** [getParticleColor]: the colour string and the (possibly mutated)
    particle. *)
Definition getParticleColor (e : Effects) (particle : Particle)
  : Particle * Color :=
  if String.eqb (colorMode e) "rainbow" then
    let particle' := set_hue (js_rem (hue particle + 1) 360) particle in
    (particle', Hsl (hue particle') 100 50)
  else
    (particle,
     Hsl (hue particle) (saturation particle) (brightness particle)).

(** [drawParticle]. *)
Definition drawParticle (e : Effects) (ctx : Ctx.t) (particle : Particle)
  : Particle * Ctx.t :=
  let '(particle, color) := getParticleColor e particle in
  let ctx := ctx |> Ctx.set_fillStyle (Plain color) in
  let ctx :=
    if glowEffect e then
      ctx |> Ctx.set_shadowColor color
          |> Ctx.set_shadowBlur (glowIntensity e * 20)
    else ctx in
  let size := size particle in
  let ctx := ctx |> Ctx.beginPath in
  let ctx :=
    if String.eqb (particleShape e) "square" then
      ctx |> Ctx.rect (x particle - size) (y particle - size)
                      (size * 2) (size * 2)
    else if String.eqb (particleShape e) "triangle" then
      ctx |> Ctx.moveTo (x particle) (y particle - size)
          |> Ctx.lineTo (x particle + size) (y particle + size)
          |> Ctx.lineTo (x particle - size) (y particle + size)
    else
      ctx |> Ctx.arc (x particle) (y particle) size 0 (PI * 2) in
  let ctx := ctx |> Ctx.fill in
  let ctx := if glowEffect e then ctx |> Ctx.set_shadowBlur 0 else ctx in
  (particle, ctx).

(** [drawLine].  [p1] and [p2] are distinct objects; both may be mutated by
    the colour resolution of the gradient branch. *)
Definition drawLine (pr : Props) (ctx : Ctx.t) (p1 p2 : Particle)
  (opacity : R) : Particle * Particle * Ctx.t :=
  let e := effects pr in
  let ctx :=
    if String.eqb (lineStyle e) "dashed" then ctx |> Ctx.setLineDash [5; 5]
    else ctx |> Ctx.setLineDash [] in
  let ctx := ctx |> Ctx.set_lineWidth (lineWidth pr) in
  let '(p1, p2, ctx) :=
    if String.eqb (lineStyle e) "gradient" then
      let gradient := createLinearGradient (x p1) (y p1) (x p2) (y p2) in
      let '(p1, color1) := getParticleColor e p1 in
      let '(p2, color2) := getParticleColor e p2 in
      let gradient := gradient |> addColorStop 0 color1 in
      let gradient := gradient |> addColorStop 1 color2 in
      (p1, p2, ctx |> Ctx.set_strokeStyle gradient)
    else
      (p1, p2, ctx |> Ctx.set_strokeStyle (Plain (Rgba 255 255 255 opacity)))
  in
  let ctx := ctx |> Ctx.beginPath
                 |> Ctx.moveTo (x p1) (y p1)
                 |> Ctx.lineTo (x p2) (y p2)
                 |> Ctx.stroke in
  (p1, p2, ctx).

(** ** The frame loop *)

(** [for (let i = from; i < from + count; i++) body(i)]. *)
Fixpoint for_loop {S : Type} (from count : nat) (body : nat -> S -> S)
  (s : S) : S :=
  match count with
  | O => s
  | Datatypes.S count' =>
      for_loop (Datatypes.S from) count' body (body from s)
  end.

(** What the loops of [draw] read and write: the particle array and the
    context. *)
Definition Store : Type := list Particle * Ctx.t.

(** The opacity of a connection line. *)
Definition opacity (distance connectionDistance : R) : R :=
  0.2 * (1 - distance / connectionDistance).

(** Body of the inner loop: [p] is [particles[i]], [p2] is [particles[j]].
    Both indices are below the length whenever the loops of [draw] call
    it, so the last branch is never taken there. *)
Definition connect (pr : Props) (i j : nat) (st : Store) : Store :=
  let '(particles, ctx) := st in
  match particles !! i, particles !! j with
  | Some p, Some p2 =>
      let dx := x p - x p2 in
      let dy := y p - y p2 in
      let distance := sqrt (dx * dx + dy * dy) in
      if Rltb distance (connectionDistance (effects pr)) then
        let '(p, p2, ctx) :=
          drawLine pr ctx p p2
                   (opacity distance (connectionDistance (effects pr))) in
        (<[j := p2]> (<[i := p]> particles), ctx)
      else st
  | _, _ => st
  end.

(** Body of the outer loop: advance particle [i], paint it, then connect it
    to every particle after it. *)
Definition iteration (pr : Props) (mouse : Pointer) (w h : R) (i : nat)
  (st : Store) : Store :=
  let '(particles, ctx) := st in
  match particles !! i with
  | Some p =>
      let p := advance (effects pr) mouse w h p in
      let '(p, ctx) := drawParticle (effects pr) ctx p in
      let particles := <[i := p]> particles in
      for_loop (i + 1) (length particles - (i + 1)) (connect pr i)
               (particles, ctx)
  | None => st
  end.

(** The canvas element; [context2d] is what [getContext('2d')] returns. *)
Record Canvas : Type := mkCanvas {
  width : nat;
  height : nat;
  context2d : option Ctx.t
}.

(** The refs of the component and the host state it touches: the queue of
    requested animation frames (handle and callback closure) and the number
    of [Math.random()] calls made so far. *)
Record World : Type := mkWorld {
  canvasRef : option Canvas;
  particlesRef : list Particle;
  mousePositionRef : Pointer;
  animationFrameRef : nat;
  rafQueue : list (nat * Props);
  rafNext : nat;
  randomCalls : nat
}.

Definition set_canvasRef (v : option Canvas) (w : World) : World :=
  mkWorld v (particlesRef w) (mousePositionRef w) (animationFrameRef w)
          (rafQueue w) (rafNext w) (randomCalls w).
Definition set_particlesRef (v : list Particle) (w : World) : World :=
  mkWorld (canvasRef w) v (mousePositionRef w) (animationFrameRef w)
          (rafQueue w) (rafNext w) (randomCalls w).
Definition set_mousePositionRef (v : Pointer) (w : World) : World :=
  mkWorld (canvasRef w) (particlesRef w) v (animationFrameRef w)
          (rafQueue w) (rafNext w) (randomCalls w).
Definition set_animationFrameRef (v : nat) (w : World) : World :=
  mkWorld (canvasRef w) (particlesRef w) (mousePositionRef w) v
          (rafQueue w) (rafNext w) (randomCalls w).
Definition set_rafQueue (v : list (nat * Props)) (w : World) : World :=
  mkWorld (canvasRef w) (particlesRef w) (mousePositionRef w)
          (animationFrameRef w) v (rafNext w) (randomCalls w).
Definition set_rafNext (v : nat) (w : World) : World :=
  mkWorld (canvasRef w) (particlesRef w) (mousePositionRef w)
          (animationFrameRef w) (rafQueue w) v (randomCalls w).
Definition set_randomCalls (v : nat) (w : World) : World :=
  mkWorld (canvasRef w) (particlesRef w) (mousePositionRef w)
          (animationFrameRef w) (rafQueue w) (rafNext w) v.

(** [animationFrameRef.current = requestAnimationFrame(draw)], where [draw]
    is the closure over [pr]. *)
Definition requestAnimationFrame (pr : Props) (w : World) : World :=
  let handle := rafNext w in
  w |> set_rafQueue (rafQueue w ++ [(handle, pr)])
    |> set_rafNext (handle + 1)%nat
    |> set_animationFrameRef handle.

(** [cancelAnimationFrame(handle)]. *)
Definition cancelAnimationFrame (handle : nat) (w : World) : World :=
  w |> set_rafQueue (filter (fun c => fst c <> handle) (rafQueue w)).

(** [draw], the closure over [pr]. *)
Definition draw (pr : Props) (w : World) : World :=
  match canvasRef w with
  | None => w
  | Some canvas =>
      match context2d canvas with
      | None => w
      | Some ctx =>
          let ctx :=
            ctx |> Ctx.set_fillStyle
                     (Plain (Rgba 0 0 0 (1 - trailLength (effects pr))))
                |> Ctx.fillRect 0 0 (INR (width canvas))
                                (INR (height canvas)) in
          let particles := particlesRef w in
          if Nat.eqb (length particles) 0 then
            w |> set_canvasRef
                   (Some (mkCanvas (width canvas) (height canvas) (Some ctx)))
          else
            let '(particles, ctx) :=
              for_loop 0 (length particles)
                       (iteration pr (mousePositionRef w)
                                  (INR (width canvas)) (INR (height canvas)))
                       (particles, ctx) in
            w |> set_particlesRef particles
              |> set_canvasRef
                   (Some (mkCanvas (width canvas) (height canvas) (Some ctx)))
              |> requestAnimationFrame pr
      end
  end.

(** One frame of the host: every callback requested before the frame runs
    once, in request order; what they request runs in a later frame. *)
Definition run_frame (w : World) : World :=
  fold_left (fun w c => draw (snd c) w) (rafQueue w) (set_rafQueue [] w).

(** The pointer-move handler of the interactive variant: the position is
    already surface-local here. *)
Definition handleMouseMove (pos : R * R) (w : World) : World :=
  set_mousePositionRef (Some pos) w.

(** ** Colour of the solid mode *)

Definition hexDigit (c : ascii) : option Z :=
  let n := Z.of_nat (nat_of_ascii c) in
  if ((48 <=? n) && (n <=? 57))%Z then Some (n - 48)%Z
  else if ((97 <=? n) && (n <=? 102))%Z then Some (n - 87)%Z
  else if ((65 <=? n) && (n <=? 70))%Z then Some (n - 55)%Z
  else None.

(** The longest prefix of hexadecimal digits, [None] when there is none. *)
Fixpoint hexPrefix (s : string) (acc : option Z) : option Z :=
  match s with
  | EmptyString => acc
  | String c rest =>
      match hexDigit c with
      | Some d => hexPrefix rest (Some (16 * default 0%Z acc + d)%Z)
      | None => acc
      end
  end.

Fixpoint skipSpaces (s : string) : string :=
  match s with
  | String c rest =>
      if ((c =? " ") || (c =? "009") || (c =? "010") || (c =? "013"))%char
      then skipSpaces rest else s
  | EmptyString => s
  end.

Definition strip0x (s : string) : string :=
  match s with
  | String "0" (String c rest) =>
      if ((c =? "x") || (c =? "X"))%char then rest else s
  | _ => s
  end.

(** [parseInt(s, 16)]; [None] stands for NaN. *)
Definition parseInt16 (s : string) : option Z :=
  match skipSpaces s with
  | String "-" rest => Z.opp <$> hexPrefix (strip0x rest) None
  | String "+" rest => hexPrefix (strip0x rest) None
  | s' => hexPrefix (strip0x s') None
  end.

(** [s.slice(from, to)] for [0 <= from <= to]. *)
Definition slice (from to : nat) (s : string) : string :=
  substring from (to - from) s.

(** [parseInt(particleColor.slice(from, to), 16) / 255]. *)
Definition channel (particleColor : string) (from to : nat) : option R :=
  (fun n => IZR n / 255) <$> parseInt16 (slice from to particleColor).

(** The conversion inlined in the colour effect: hue in degrees, then the
    saturation and lightness that the effect scales by 100. *)
Definition rgbToHsl (r g b : R) : R * R * R :=
  let max := Rmax r (Rmax g b) in
  let min := Rmin r (Rmin g b) in
  let l := (max + min) / 2 in
  if negb (Reqb max min) then
    let d := max - min in
    let s := if Rltb 0.5 l then d / (2 - max - min) else d / (max + min) in
    let h :=
      if Reqb max r then (g - b) / d + (if Rltb g b then 6 else 0)
      else if Reqb max g then (b - r) / d + 2
      else if Reqb max b then (r - g) / d + 4
      else 0 in
    (h * 60, s, l)
  else (0, 0, l).

(** The solid branch of the colour effect on one particle; [None] when a
    channel is NaN, which the model has no number for. *)
Definition solidColor (particleColor : string) (particle : Particle)
  : option Particle :=
  r ← channel particleColor 1 3;
  g ← channel particleColor 3 5;
  b ← channel particleColor 5 7;
  let '(h, s, l) := rgbToHsl r g b in
  Some (particle |> set_hue h
                 |> set_saturation (s * 100)
                 |> set_brightness (l * 100)).

(** ** Effects that create and re-seed particles *)

Section Random.

(** [random k] is what the [k]-th call of [Math.random()] returns. *)
Variable random : nat -> R.

(** [createParticle]: five draws, in the order of the object literal. *)
Definition createParticle (pr : Props) (innerWidth innerHeight : nat)
  (k : nat) : Particle * nat :=
  (mkParticle (random k * INR innerWidth)
              (random (k + 1) * INR innerHeight)
              ((random (k + 2) - 0.5) * 2)
              ((random (k + 3) - 0.5) * 2)
              (particleSize (effects pr))
              (random (k + 4) * 360)
              100
              100,
   (k + 5)%nat).

(** [Array.from({ length: n }, create)]. *)
Fixpoint Array_from (n : nat) (create : nat -> Particle * nat) (k : nat)
  : list Particle * nat :=
  match n with
  | O => ([], k)
  | S n' =>
      let '(p, k) := create k in
      let '(ps, k) := Array_from n' create k in
      (p :: ps, k)
  end.

(** "Initialize canvas and start animation".  Assigning the canvas size
    resets the context to its initial state. *)
Definition initEffect (pr : Props) (innerWidth innerHeight : nat)
  (w : World) : World :=
  match canvasRef w with
  | None => w
  | Some canvas =>
      let canvas :=
        mkCanvas innerWidth innerHeight
                 ((fun _ => Ctx.fresh) <$> context2d canvas) in
      let '(particles, k) :=
        Array_from (particleCount pr)
                   (createParticle pr innerWidth innerHeight)
                   (randomCalls w) in
      w |> set_canvasRef (Some canvas)
        |> set_particlesRef particles
        |> set_randomCalls k
        |> requestAnimationFrame pr
  end.

(** The cleanup the init effect returns. *)
Definition initCleanup (w : World) : World :=
  if Nat.eqb (animationFrameRef w) 0 then w
  else cancelAnimationFrame (animationFrameRef w) w.

(** A change of one of the dependencies of the init effect: the old
    cleanup runs, then the effect runs with the new props. *)
Definition rerunInit (pr : Props) (innerWidth innerHeight : nat)
  (w : World) : World :=
  initEffect pr innerWidth innerHeight (initCleanup w).

(** Body of the [forEach] of "Update particles when effects change". *)
Definition reseed (pr : Props) (particle : Particle) (k : nat)
  : option (Particle * nat) :=
  let particle := set_size (particleSize (effects pr)) particle in
  if String.eqb (colorMode (effects pr)) "rainbow" then
    Some (particle |> set_hue (random k * 360)
                   |> set_saturation 100
                   |> set_brightness 50,
          (k + 1)%nat)
  else if String.eqb (colorMode (effects pr)) "solid" then
    p ← solidColor (particleColor pr) particle; Some (p, k)
  else Some (particle, k).

Fixpoint forEach_reseed (pr : Props) (ps : list Particle) (k : nat)
  : option (list Particle * nat) :=
  match ps with
  | [] => Some ([], k)
  | p :: rest =>
      '(p', k) ← reseed pr p k;
      '(rest', k) ← forEach_reseed pr rest k;
      Some (p' :: rest', k)
  end.

Definition colorEffect (pr : Props) (w : World) : option World :=
  '(ps, k) ← forEach_reseed pr (particlesRef w) (randomCalls w);
  Some (w |> set_particlesRef ps |> set_randomCalls k).

End Random.

(** ** Simulate-then-render, as the specification words it

    The reference for the refinement question: the Simulation Engine runs
    over all particles, and only then the Render Engine paints them.  The
    render pass is the loop of [draw] without its kinematic part. *)

Definition render_iteration (pr : Props) (i : nat) (st : Store) : Store :=
  let '(particles, ctx) := st in
  match particles !! i with
  | Some p =>
      let '(p, ctx) := drawParticle (effects pr) ctx p in
      let particles := <[i := p]> particles in
      for_loop (i + 1) (length particles - (i + 1)) (connect pr i)
               (particles, ctx)
  | None => st
  end.

Definition simulate (pr : Props) (mouse : Pointer) (w h : R)
  (particles : list Particle) : list Particle :=
  advance (effects pr) mouse w h <$> particles.

Definition draw_two_phase (pr : Props) (w : World) : World :=
  match canvasRef w with
  | None => w
  | Some canvas =>
      match context2d canvas with
      | None => w
      | Some ctx =>
          let ctx :=
            ctx |> Ctx.set_fillStyle
                     (Plain (Rgba 0 0 0 (1 - trailLength (effects pr))))
                |> Ctx.fillRect 0 0 (INR (width canvas))
                                (INR (height canvas)) in
          let particles := particlesRef w in
          if Nat.eqb (length particles) 0 then
            w |> set_canvasRef
                   (Some (mkCanvas (width canvas) (height canvas) (Some ctx)))
          else
            let particles :=
              simulate pr (mousePositionRef w) (INR (width canvas))
                       (INR (height canvas)) particles in
            let '(particles, ctx) :=
              for_loop 0 (length particles) (render_iteration pr)
                       (particles, ctx) in
            w |> set_particlesRef particles
              |> set_canvasRef
                   (Some (mkCanvas (width canvas) (height canvas) (Some ctx)))
              |> requestAnimationFrame pr
      end
  end.

(** The loop body over an arbitrary kinematic part [f]: [iteration] is the
    instance at [advance], [render_iteration] the instance at the identity. *)
Definition iteration_with (f : Particle -> Particle) (pr : Props) (i : nat)
  (st : Store) : Store :=
  let '(particles, ctx) := st in
  match particles !! i with
  | Some p =>
      let p := f p in
      let '(p, ctx) := drawParticle (effects pr) ctx p in
      let particles := <[i := p]> particles in
      for_loop (i + 1) (length particles - (i + 1)) (connect pr i)
               (particles, ctx)
  | None => st
  end.

(** ** Observations on a frame *)

(** Position, velocity and radius: everything of a particle but its colour. *)
Definition motion (p : Particle) : R * R * R * R * R :=
  (x p, y p, vx p, vy p, size p).

(** [f] looks at the motion of a particle only, and determines it. *)
Definition respects_motion (f : Particle -> Particle) : Prop :=
  forall p q, motion p = motion q -> motion (f p) = motion (f q).

(** The particle [p] in another colour. *)
Definition with_color (h s b : R) (p : Particle) : Particle :=
  mkParticle (x p) (y p) (vx p) (vy p) (size p) h s b.

Definition speed (p : Particle) : R := sqrt (vx p * vx p + vy p * vy p).

Definition distance (p p2 : Particle) : R :=
  sqrt ((x p - x p2) * (x p - x p2) + (y p - y p2) * (y p - y p2)).

Definition in_bounds (w h : R) (p : Particle) : Prop :=
  0 <= x p <= w /\ 0 <= y p <= h.

(** The path [drawParticle] fills for a particle. *)
Definition shapePath (e : Effects) (p : Particle) : list PathCmd :=
  if String.eqb (particleShape e) "square" then
    [Rect (x p - size p) (y p - size p) (size p * 2) (size p * 2)]
  else if String.eqb (particleShape e) "triangle" then
    [MoveTo (x p) (y p - size p);
     LineTo (x p + size p) (y p + size p);
     LineTo (x p - size p) (y p + size p)]
  else [Arc (x p) (y p) (size p) 0 (PI * 2)].

(** The path [drawLine] strokes between two particles. *)
Definition linePath (p p2 : Particle) : list PathCmd :=
  [MoveTo (x p) (y p); LineTo (x p2) (y p2)].

(** The filled paths and the stroked paths of a paint log, in paint order. *)
Definition fillPaths (log : list Paint) : list (list PathCmd) :=
  flat_map (fun op => match op with Fill _ _ _ path => [path] | _ => [] end)
           log.

Definition strokePaths (log : list Paint) : list (list PathCmd) :=
  flat_map (fun op => match op with Stroke _ _ _ _ path => [path] | _ => [] end)
           log.

(** The lines from particle [p] to those of [rest] that are closer than
    [cd]. *)
Definition linesFrom (cd : R) (p : Particle) (rest : list Particle)
  : list (list PathCmd) :=
  flat_map (fun p2 => if Rltb (distance p p2) cd then [linePath p p2] else [])
           rest.

(** The lines of a frame in which each particle is moved by [adv] just
    before it is connected to the particles after it, which have not been
    moved yet. *)
Fixpoint staleLines (adv : Particle -> Particle) (cd : R)
  (ps : list Particle) : list (list PathCmd) :=
  match ps with
  | [] => []
  | p :: rest => linesFrom cd (adv p) rest ++ staleLines adv cd rest
  end.

(** The same for the first [n] particles of [ps] only. *)
Fixpoint staleLinesN (adv : Particle -> Particle) (cd : R) (n : nat)
  (ps : list Particle) : list (list PathCmd) :=
  match n, ps with
  | S n', p :: rest => linesFrom cd (adv p) rest ++ staleLinesN adv cd n' rest
  | _, _ => []
  end.

(** The lines between the particles as they are. *)
Definition freshLines (cd : R) (ps : list Particle) : list (list PathCmd) :=
  staleLines (fun p => p) cd ps.

(** The paint log of a world ([[]] without a context). *)
Definition paintLog (w : World) : list Paint :=
  match canvasRef w with
  | Some canvas =>
      match context2d canvas with
      | Some ctx => Ctx.painted ctx
      | None => []
      end
  | None => []
  end.

(** The stroke style and dash pattern [drawLine] selects. *)
Definition strokeOf (pr : Props) (p1 p2 : Particle) (o : R) : Style :=
  if String.eqb (lineStyle (effects pr)) "gradient" then
    LinearGradient (x p1) (y p1) (x p2) (y p2)
                   [(0, (getParticleColor (effects pr) p1).2);
                    (1, (getParticleColor (effects pr) p2).2)]
  else Plain (Rgba 255 255 255 o).

Definition dashOf (pr : Props) : list R :=
  if String.eqb (lineStyle (effects pr)) "dashed" then [5; 5] else [].

(** ** The component as mounted, and sample states *)

(** The initial values of the [useState] calls. *)
Definition initialEffects : Effects :=
  mkEffects "solid" "circle" "solid" 0.1 2 200 false 0.5 80 3.

Definition initialProps : Props := mkProps initialEffects 2 "#ffffff" 100.

(** The particle-count slider moved to 150. *)
Definition resizedProps : Props := mkProps initialEffects 2 "#ffffff" 150.

Definition sampleCanvas : Canvas := mkCanvas 1000 1000 (Some Ctx.fresh).

(** A canvas whose [getContext('2d')] returns [null]. *)
Definition blindCanvas : Canvas := mkCanvas 1000 1000 None.

Definition leftParticle : Particle := mkParticle 100 100 1 0 2 0 0 100.

Definition rightParticle : Particle :=
  mkParticle 301.5 100 (-1) 0 2 0 0 100.

(** Two particles 201.5 apart that approach each other, one frame
    requested. *)
Definition pairWorld : World :=
  mkWorld (Some sampleCanvas) [leftParticle; rightParticle] None 1
          [(1%nat, initialProps)] 2 10.

Definition blindWorld : World :=
  mkWorld (Some blindCanvas) [leftParticle; rightParticle] None 1
          [(1%nat, initialProps)] 2 10.

(** A hundred particles, as after the first mount. *)
Definition crowdWorld : World :=
  mkWorld (Some sampleCanvas) (replicate 100 leftParticle) None 1
          [(1%nat, initialProps)] 2 500.

(** A particle slower than [baseSpeed]: its speed is one half. *)
Definition slowParticle : Particle := mkParticle 100 100 0.3 0.4 2 0 0 100.

(** A particle 50 away from a pointer at the origin. *)
Definition nearParticle : Particle := mkParticle 30 40 1 0 2 0 0 100.

(** Rainbow mode with gradient lines, and a particle about to wrap its
    hue. *)
Definition rainbowEffects : Effects :=
  mkEffects "rainbow" "circle" "gradient" 0.1 2 200 false 0.5 80 3.

Definition rainbowProps : Props := mkProps rainbowEffects 2 "#ffffff" 100.

Definition wrapParticle : Particle := mkParticle 100 100 1 0 2 359.5 100 50.

(** The initial settings with the colour mode switched to rainbow. *)
Definition rainbowModeProps : Props :=
  mkProps (mkEffects "rainbow" "circle" "solid" 0.1 2 200 false 0.5 80 3)
          2 "#ffffff" 100.

(** The initial settings with the pointer repulsion radius at 0. *)
Definition noRepulsionProps : Props :=
  mkProps (mkEffects "solid" "circle" "solid" 0.1 2 200 false 0.5 0 3)
          2 "#ffffff" 100.

(** A [Math.random] that always returns one half. *)
Definition halves : nat -> R := fun _ => 1 / 2.

(** ** Settings changes

    The settings panel only sets state; what reaches the refs is the
    [onChange] handler of the colour-mode select, which recolours the
    particles itself, and the effects that React runs again after a render
    in which one of their dependencies changed. *)

(** The eager recolouring in the [onChange] of the colour-mode select
    ([None]: a channel is NaN). *)
Definition colorModeSelect (newMode particleColor : string) (w : World)
  : option World :=
  if String.eqb newMode "solid" then
    ps ← mapM (solidColor particleColor) (particlesRef w);
    Some (set_particlesRef ps w)
  else Some w.

(** The dependency array of the init effect is unchanged between two
    renders.  The last two entries are those the interactive variant adds;
    the other variant has no control that changes them. *)
Definition initDepsSame (a b : Props) : bool :=
  Nat.eqb (particleCount a) (particleCount b)
  && Reqb (connectionDistance (effects a)) (connectionDistance (effects b))
  && String.eqb (lineStyle (effects a)) (lineStyle (effects b))
  && Reqb (trailLength (effects a)) (trailLength (effects b))
  && String.eqb (particleShape (effects a)) (particleShape (effects b))
  && Bool.eqb (glowEffect (effects a)) (glowEffect (effects b))
  && Reqb (glowIntensity (effects a)) (glowIntensity (effects b))
  && Reqb (lineWidth a) (lineWidth b)
  && Reqb (mouseRepulsion (effects a)) (mouseRepulsion (effects b))
  && Reqb (mouseForce (effects a)) (mouseForce (effects b)).

(** The dependency array of the colour effect is unchanged. *)
Definition colorDepsSame (a b : Props) : bool :=
  String.eqb (colorMode (effects a)) (colorMode (effects b))
  && Reqb (particleSize (effects a)) (particleSize (effects b))
  && String.eqb (lineStyle (effects a)) (lineStyle (effects b))
  && String.eqb (particleColor a) (particleColor b).

(** The effects of the first render: both run, in the order they are
    declared. *)
Definition mount (random : nat -> R) (pr : Props)
  (innerWidth innerHeight : nat) (w : World) : option World :=
  colorEffect random pr (initEffect random pr innerWidth innerHeight w).

(** The effects of a render with props [new] after one with props [old]:
    the cleanup and the init effect when a dependency of the init effect
    changed, then the colour effect when one of its own changed. *)
Definition commit (random : nat -> R) (old new : Props)
  (innerWidth innerHeight : nat) (w : World) : option World :=
  let w :=
    if initDepsSame old new then w
    else rerunInit random new innerWidth innerHeight w in
  if colorDepsSame old new then Some w else colorEffect random new w.

(** [n] frames of the host in a row. *)
Fixpoint frames (n : nat) (w : World) : World :=
  match n with
  | O => w
  | S n' => frames n' (run_frame w)
  end.

(** ** Predicates on particles, paints and worlds *)

(** Where a particle is and how it moves. *)
Definition placement (p : Particle) : R * R * R * R :=
  (x p, y p, vx p, vy p).

(** A path command stays within the box [x0, x1] x [y0, y1]; an arc is
    taken with its whole circle. *)
Definition within_box (x0 x1 y0 y1 : R) (cmd : PathCmd) : Prop :=
  match cmd with
  | Rect px py w h =>
      x0 <= px /\ px + w <= x1 /\ y0 <= py /\ py + h <= y1 /\
      0 <= w /\ 0 <= h
  | MoveTo px py | LineTo px py => x0 <= px <= x1 /\ y0 <= py <= y1
  | Arc px py radius _ _ =>
      x0 <= px - radius /\ px + radius <= x1 /\
      y0 <= py - radius /\ py + radius <= y1 /\ 0 <= radius
  end.

(** The colour triple is in the ranges of the data model. *)
Definition valid_color (p : Particle) : Prop :=
  0 <= hue p < 360 /\ 0 <= saturation p <= 100 /\ 0 <= brightness p <= 100.

(** The colour string [#c1c2c3c4c5c6]. *)
Definition hexColor (c1 c2 c3 c4 c5 c6 : ascii) : string :=
  String "#" (String c1 (String c2 (String c3 (String c4 (String c5
    (String c6 EmptyString)))))).

(** How a paint of the particle loop is shadowed under the settings [pr]:
    lines never, particle shapes by the glow in their own colour when the
    glow is on. *)
Definition shadowOK (pr : Props) (op : Paint) : Prop :=
  match op with
  | FillRect _ _ _ _ _ _ => False
  | Fill style shadowColor shadowBlur _ =>
      if glowEffect (effects pr) then
        shadowBlur = glowIntensity (effects pr) * 20 /\
        style = Plain shadowColor
      else shadowBlur = 0
  | Stroke _ _ _ shadowBlur _ => shadowBlur = 0
  end.

(** How a line of the particle loop is styled under the settings [pr]. *)
Definition lineOK (pr : Props) (op : Paint) : Prop :=
  match op with
  | Stroke style dash width _ path =>
      width = lineWidth pr /\ dash = dashOf pr /\
      (exists x1 y1 x2 y2, path = [MoveTo x1 y1; LineTo x2 y2]) /\
      if String.eqb (lineStyle (effects pr)) "gradient" then
        exists x0 y0 x1 y1 c0 c1,
          style = LinearGradient x0 y0 x1 y1 [(0, c0); (1, c1)]
      else
        exists a, style = Plain (Rgba 255 255 255 a) /\ 0 < a <= 0.2
  | _ => True
  end.

(** The paint log of [ctx'] is that of [ctx] with paints satisfying [Q]
    appended. *)
Definition appends (Q : Paint -> Prop) (ctx ctx' : Ctx.t) : Prop :=
  exists added,
    Ctx.painted ctx' = Ctx.painted ctx ++ added /\ Forall Q added.

(** A store within a frame that started painting at [ctx0]: the particles
    satisfy [P], the context [I], and what was painted since, [Q]. *)
Definition store_ok (P : Particle -> Prop) (I : Ctx.t -> Prop)
  (Q : Paint -> Prop) (ctx0 : Ctx.t) (st : Store) : Prop :=
  Forall P st.1 /\ I st.2 /\ appends Q ctx0 st.2.

(** The loop of the closure over [pr] is running: a mounted canvas with a
    context, particles, and exactly one requested frame, the one whose
    handle [animationFrameRef] holds. *)
Definition loop_running (pr : Props) (w : World) : Prop :=
  (exists canvas ctx,
     canvasRef w = Some canvas /\ context2d canvas = Some ctx) /\
  particlesRef w <> [] /\
  rafQueue w = [(animationFrameRef w, pr)] /\
  (0 < animationFrameRef w < rafNext w)%nat.

(** ** The tick over the arithmetic of the engine

    The definitions above compute on reals.  The engine computes on binary64
    floats: every [+] and [*] rounds, and [Math.sqrt], [Math.cos],
    [Math.sin] and [Math.atan2] return approximations.  The kinematic part
    of the loop of [draw] in [Visualizer.tsx] (speed floor, position update,
    wall bounce) is therefore given once more, over an arbitrary arithmetic:
    an [Arith N] says what the operators and the [Math] functions of the
    loop do on numbers of type [N].  Its instances are the exact arithmetic
    on reals, in which the tick is [advance] without a pointer, every
    arithmetic on reals that is [accurate] up to given rounding errors, and
    binary64 itself. *)

Module Machine.

Record Arith (N : Type) : Type := mkArith {
  zero : N;                       (* the literal 0 *)
  one : N;                        (* the literal 1 *)
  add : N -> N -> N;              (* a + b *)
  mul : N -> N -> N;              (* a * b *)
  opp : N -> N;                   (* -a *)
  lt : N -> N -> bool;            (* a < b *)
  Math_abs : N -> N;
  Math_sqrt : N -> N;
  Math_cos : N -> N;
  Math_sin : N -> N;
  Math_atan2 : N -> N -> N
}.

Arguments mkArith {N} _ _ _ _ _ _ _ _ _ _ _.
Arguments zero {N} _.
Arguments one {N} _.
Arguments add {N} _ _ _.
Arguments mul {N} _ _ _.
Arguments opp {N} _ _.
Arguments lt {N} _ _ _.
Arguments Math_abs {N} _ _.
Arguments Math_sqrt {N} _ _.
Arguments Math_cos {N} _ _.
Arguments Math_sin {N} _ _.
Arguments Math_atan2 {N} _ _ _.

(** The fields of a particle that the tick reads and writes. *)
Record Body (N : Type) : Type := mkBody { x : N; y : N; vx : N; vy : N }.

Arguments mkBody {N} _ _ _ _.
Arguments x {N} _.
Arguments y {N} _.
Arguments vx {N} _.
Arguments vy {N} _.

Definition set_x {N : Type} (v : N) (p : Body N) : Body N :=
  mkBody v (y p) (vx p) (vy p).

Definition set_y {N : Type} (v : N) (p : Body N) : Body N :=
  mkBody (x p) v (vx p) (vy p).

Definition set_vx {N : Type} (v : N) (p : Body N) : Body N :=
  mkBody (x p) (y p) v (vy p).

Definition set_vy {N : Type} (v : N) (p : Body N) : Body N :=
  mkBody (x p) (y p) (vx p) v.

Definition baseSpeed {N : Type} (A : Arith N) : N := one A.

(** [Math.sqrt(p.vx * p.vx + p.vy * p.vy)], the speed as the loop measures
    it. *)
Definition speed {N : Type} (A : Arith N) (p : Body N) : N :=
  Math_sqrt A (add A (mul A (vx p) (vx p)) (mul A (vy p) (vy p))).

(** "Maintain constant base movement". *)
Definition speed_floor {N : Type} (A : Arith N) (p : Body N) : Body N :=
  let angle := Math_atan2 A (vy p) (vx p) in
  let speed := Math_sqrt A (add A (mul A (vx p) (vx p))
                                  (mul A (vy p) (vy p))) in
  if lt A speed (baseSpeed A) then
    let p1 := set_vx (mul A (Math_cos A angle) (baseSpeed A)) p in
    set_vy (mul A (Math_sin A angle) (baseSpeed A)) p1
  else p.

(** "Update position". *)
Definition integrate {N : Type} (A : Arith N) (p : Body N) : Body N :=
  let p1 := set_x (add A (x p) (vx p)) p in
  set_y (add A (y p1) (vy p1)) p1.

(** "Bounce off walls with energy preservation". *)
Definition bounce_x {N : Type} (A : Arith N) (w : N) (p : Body N) : Body N :=
  if lt A (x p) (zero A) then set_vx (Math_abs A (vx p)) (set_x (zero A) p)
  else if lt A w (x p) then
    set_vx (opp A (Math_abs A (vx p))) (set_x w p)
  else p.

Definition bounce_y {N : Type} (A : Arith N) (h : N) (p : Body N) : Body N :=
  if lt A (y p) (zero A) then set_vy (Math_abs A (vy p)) (set_y (zero A) p)
  else if lt A h (y p) then
    set_vy (opp A (Math_abs A (vy p))) (set_y h p)
  else p.

(** The kinematic part of one iteration of the loop of [draw]. *)
Definition tick {N : Type} (A : Arith N) (w h : N) (p : Body N) : Body N :=
  bounce_y A h (bounce_x A w (integrate A (speed_floor A p))).

(** Exact arithmetic on reals, the arithmetic of the definitions above. *)
Definition exact : Arith R :=
  mkArith 0 1 Rplus Rmult Ropp Rltb Rabs sqrt cos sin atan2.

(** A sample arithmetic that does round: every product comes out too small
    by the fraction 1/1024 of its value, everything else is exact. *)
Definition chopping : Arith R :=
  mkArith 0 1 Rplus (fun a b => a * b * (1 - / 1024)) Ropp Rltb Rabs sqrt
          cos sin atan2.

(** An arithmetic on reals that computes the operations of the tick up to
    rounding: a sum to relative error [u], a product to relative error [u]
    or, where it underflows, absolute error [eta], a square root to relative
    error [u], and cosine, sine and arc tangent to absolute error [eps];
    comparison, negation and absolute value are exact, and rounding a
    product does not depend on the signs of its factors.  Sums, products and
    roots are accurate where they do not overflow; magnitudes up to 4 are all
    the reset velocity needs.

    Binary64 with rounding to nearest has [u] = 2^-53 and [eta] = 2^-1075;
    a [Math] library accurate to one unit in the last place has [eps] =
    2^-51, the spacing of the floats around pi.  Exact arithmetic has
    [u] = [eta] = [eps] = 0. *)
Record accurate (u eta eps : R) (A : Arith R) : Prop := mkAccurate {
  acc_zero : zero A = 0;
  acc_one : one A = 1;
  acc_add : forall a b,
    Rabs (a + b) <= 4 -> Rabs (add A a b - (a + b)) <= u * Rabs (a + b);
  acc_mul : forall a b,
    Rabs (a * b) <= 4 ->
    Rabs (mul A a b - a * b) <= u * Rabs (a * b) + eta;
  acc_mul_opp : forall a b, mul A (- a) (- b) = mul A a b;
  acc_opp : forall a, opp A a = - a;
  acc_lt : forall a b, lt A a b = Rltb a b;
  acc_abs : forall a, Math_abs A a = Rabs a;
  acc_sqrt : forall a,
    0 <= a <= 4 -> Rabs (Math_sqrt A a - sqrt a) <= u * sqrt a;
  acc_cos : forall t, Rabs (Math_cos A t - cos t) <= eps;
  acc_sin : forall t, Rabs (Math_sin A t - sin t) <= eps;
  acc_atan2 : forall b a, Rabs (Math_atan2 A b a - atan2 b a) <= eps
}.

(** A particle of velocity (0.75, 0.25), slower than [baseSpeed], and what
    a correctly rounding [Math] library returns for it: [slowAngle] is the
    binary64 number nearest to the arc tangent of 0.25 / 0.75, and
    [slowCos] and [slowSin] are those nearest to the cosine and the sine of
    [slowAngle]. *)
Definition slowBody : Body float :=
  mkBody 100%float 100%float 0.75%float 0.25%float.

Definition slowAngle : float := 0x1.4978fa3269ee1p-2%float.
Definition slowCos : float := 0x1.e5b9d136c6d96p-1%float.
Definition slowSin : float := 0x1.43d136248490fp-2%float.

(** Binary64: the operators are those of IEEE 754, as is [Math.sqrt].  How
    [Math.cos], [Math.sin] and [Math.atan2] round is left to the engine, so
    only their values at the sample velocity are given, and they are NaN
    elsewhere. *)
Definition binary64 : Arith float :=
  mkArith 0%float 1%float PrimFloat.add PrimFloat.mul PrimFloat.opp
          PrimFloat.ltb PrimFloat.abs PrimFloat.sqrt
          (fun t => if PrimFloat.eqb t slowAngle then slowCos
                    else PrimFloat.nan)
          (fun t => if PrimFloat.eqb t slowAngle then slowSin
                    else PrimFloat.nan)
          (fun b a => if PrimFloat.eqb b 0.25%float &&
                         PrimFloat.eqb a 0.75%float
                      then slowAngle else PrimFloat.nan).

End Machine.

(** The fields of a particle the tick works on. *)
Definition body (p : Particle) : Machine.Body R :=
  Machine.mkBody (x p) (y p) (vx p) (vy p).

(** * Properties *)

(** ** Numbers *)

Lemma Rltb_lt (a b : R) : Rltb a b = true <-> a < b.
Proof. unfold Rltb. destruct (Rlt_dec a b); split; intros; try done. Qed.

Lemma Rltb_ge (a b : R) : Rltb a b = false <-> b <= a.
Proof.
  unfold Rltb. destruct (Rlt_dec a b); split; intros; try done; lra.
Qed.

Lemma Rltb_true (a b : R) : a < b -> Rltb a b = true.
Proof. apply Rltb_lt. Qed.

Lemma Rltb_false (a b : R) : b <= a -> Rltb a b = false.
Proof. apply Rltb_ge. Qed.

Lemma Reqb_true (a b : R) : a = b -> Reqb a b = true.
Proof. unfold Reqb. destruct (Req_dec_T a b); done. Qed.

Lemma Reqb_false (a b : R) : a <> b -> Reqb a b = false.
Proof. unfold Reqb. destruct (Req_dec_T a b); done. Qed.

(** Case analysis on the first comparison in the goal. *)
Ltac case_Rltb :=
  match goal with
  | |- context [Rltb ?a ?b] =>
      let H := fresh "Hcmp" in
      destruct (Rltb a b) eqn:H;
      [apply Rltb_lt in H | apply Rltb_ge in H]
  end.

(** Settle the comparisons of the goal whose outcome linear arithmetic
    finds. *)
Ltac eval_Rltb :=
  repeat match goal with
  | |- context [Rltb ?a ?b] =>
      first [ rewrite (Rltb_true a b) by lra
            | rewrite (Rltb_false a b) by lra ]
  | |- context [Reqb ?a ?b] =>
      first [ rewrite (Reqb_true a b) by lra
            | rewrite (Reqb_false a b) by lra ]
  end.

Lemma sqrt_lt_bound (a b : R) : 0 < b -> a < b * b -> sqrt a < b.
Proof.
  intros Hb Hab. destruct (Rle_lt_dec a 0) as [Ha | Ha].
  - rewrite (sqrt_neg_0 a Ha). lra.
  - rewrite <- (sqrt_square b) by lra. apply sqrt_lt_1; nra.
Qed.

Lemma sqrt_ge_bound (a b : R) : 0 <= b -> b * b <= a -> b <= sqrt a.
Proof.
  intros Hb Hab. rewrite <- (sqrt_square b Hb) at 1.
  apply sqrt_le_1; nra.
Qed.

Lemma Rdiv_bounds (a b lo hi : R) :
  0 < b -> lo * b <= a -> a < hi * b -> lo <= a / b < hi.
Proof.
  intros Hb Hlo Hhi. pose proof (Rinv_0_lt_compat b Hb) as Hinv.
  unfold Rdiv. split.
  - replace lo with (lo * b * / b) by (field; lra).
    apply Rmult_le_compat_r; lra.
  - replace hi with (hi * b * / b) by (field; lra).
    apply Rmult_lt_compat_r; lra.
Qed.

Lemma Rdiv_le_bound (a b hi : R) : 0 < b -> a <= hi * b -> a / b <= hi.
Proof.
  intros Hb Hhi. pose proof (Rinv_0_lt_compat b Hb) as Hinv.
  unfold Rdiv. replace hi with (hi * b * / b) by (field; lra).
  apply Rmult_le_compat_r; lra.
Qed.

Lemma sum_squares_nonneg (a b : R) : 0 <= a * a + b * b.
Proof. nra. Qed.

(** The hypotenuse factors out of [sqrt (1 + (b/a)²)]. *)
Lemma sqrt_slope (a b : R) :
  a <> 0 -> sqrt (1 + (b / a)²) = sqrt (a * a + b * b) / Rabs a.
Proof.
  intros Ha.
  replace (1 + (b / a)²) with ((a * a + b * b) / (a * a))
    by (unfold Rsqr; field; done).
  rewrite sqrt_div_alt by nra.
  f_equal. fold (Rsqr a). apply sqrt_Rsqr_abs.
Qed.

Lemma hypot_pos (a b : R) : a <> 0 \/ b <> 0 -> 0 < sqrt (a * a + b * b).
Proof. intros H. apply sqrt_lt_R0. destruct H; nra. Qed.

(** [atan2] is the angle of the vector [(a, b)]: its cosine and sine are the
    normalised coordinates. *)
Lemma cos_atan2 (b a : R) :
  a <> 0 \/ b <> 0 -> cos (atan2 b a) = a / sqrt (a * a + b * b).
Proof.
  intros Hne. pose proof (hypot_pos a b Hne) as Hpos. unfold atan2.
  case_Rltb.
  - rewrite cos_atan, sqrt_slope by lra.
    rewrite Rabs_right by lra. field. lra.
  - case_Rltb.
    + assert (Hcos : cos (atan (b / a)) = - (a / sqrt (a * a + b * b))).
      { rewrite cos_atan, sqrt_slope by lra.
        rewrite Rabs_left by lra. field. lra. }
      case_Rltb.
      * replace (atan (b / a) - PI) with (- (- atan (b / a) + PI)) by lra.
        rewrite cos_neg, neg_cos, cos_neg, Hcos. lra.
      * rewrite neg_cos, Hcos. lra.
    + assert (a = 0) by lra. subst a.
      unfold Rdiv. rewrite Rmult_0_l.
      repeat case_Rltb; try lra.
      * apply cos_PI2.
      * rewrite cos_neg. apply cos_PI2.
Qed.

Lemma sin_atan2 (b a : R) :
  a <> 0 \/ b <> 0 -> sin (atan2 b a) = b / sqrt (a * a + b * b).
Proof.
  intros Hne. pose proof (hypot_pos a b Hne) as Hpos. unfold atan2.
  case_Rltb.
  - rewrite sin_atan, sqrt_slope by lra.
    rewrite Rabs_right by lra. field. lra.
  - case_Rltb.
    + assert (Hsin : sin (atan (b / a)) = - (b / sqrt (a * a + b * b))).
      { rewrite sin_atan, sqrt_slope by lra.
        rewrite Rabs_left by lra. field. lra. }
      case_Rltb.
      * replace (atan (b / a) - PI) with (- (- atan (b / a) + PI)) by lra.
        rewrite sin_neg, neg_sin, sin_neg, Hsin. lra.
      * rewrite neg_sin, Hsin. lra.
    + assert (a = 0) by lra. subst a.
      replace (0 * 0 + b * b) with (b * b) in * by lra.
      repeat case_Rltb; try lra.
      * rewrite sin_PI2, sqrt_square by lra. field. lra.
      * rewrite sin_neg, sin_PI2.
        replace (b * b) with ((- b) * (- b)) by lra.
        rewrite sqrt_square by lra. field. lra.
Qed.

(** ** Speed floor *)


Lemma Rabs_within (a e : R) : Rabs a <= e -> - e <= a <= e.
Proof. unfold Rabs. destruct (Rcase_abs a); lra. Qed.

(** A value computed to relative error [u] and absolute error [eta], of a
    quantity of magnitude at most [M]. *)
Lemma rounded_within (u eta M computed true : R) :
  0 <= u -> Rabs true <= M ->
  Rabs (computed - true) <= u * Rabs true + eta ->
  - (u * M + eta) <= computed - true <= u * M + eta.
Proof.
  intros Hu HM H. apply Rabs_within.
  pose proof (Rabs_pos true). nra.
Qed.

Lemma sin_within (t : R) : 0 <= t -> - t <= sin t <= t.
Proof.
  intros [Hpos | <-]; [| rewrite sin_0; lra].
  pose proof (SIN_bound t) as Hb. pose proof (sin_lt_x t Hpos) as Hlt.
  split; [| lra].
  destruct (Rle_lt_dec 1 t) as [Hfar | Hnear]; [lra |].
  assert (0 <= sin t); [| lra].
  apply sin_ge_0; [lra |]. pose proof PI2_1. lra.
Qed.

Lemma Rabs_sin_le (t : R) : Rabs (sin t) <= Rabs t.
Proof.
  destruct (Rle_lt_dec 0 t) as [Hpos | Hneg].
  - rewrite (Rabs_right t) by lra. apply Rabs_le. by apply sin_within.
  - rewrite (Rabs_left t Hneg). apply Rabs_le.
    pose proof (sin_within (- t) ltac:(lra)) as H.
    rewrite sin_neg in H. lra.
Qed.

(** Cosine and sine change by no more than the angle does. *)
Lemma cos_lipschitz (p q : R) : Rabs (cos p - cos q) <= Rabs (p - q).
Proof.
  rewrite form2, !Rabs_mult.
  pose proof (Rabs_sin_le ((p - q) / 2)) as H1.
  pose proof (SIN_bound ((p + q) / 2)) as H2.
  assert (H3 : Rabs (sin ((p + q) / 2)) <= 1) by (apply Rabs_le; lra).
  replace (Rabs (-2)) with 2 by (rewrite Rabs_left; lra).
  replace (Rabs ((p - q) / 2)) with (Rabs (p - q) / 2) in H1.
  - pose proof (Rabs_pos (sin ((p - q) / 2))).
    pose proof (Rabs_pos (sin ((p + q) / 2))). nra.
  - unfold Rdiv. rewrite Rabs_mult, (Rabs_right (/ 2)); lra.
Qed.

Lemma sin_lipschitz (p q : R) : Rabs (sin p - sin q) <= Rabs (p - q).
Proof.
  rewrite form4, !Rabs_mult.
  pose proof (Rabs_sin_le ((p - q) / 2)) as H1.
  pose proof (COS_bound ((p + q) / 2)) as H2.
  assert (H3 : Rabs (cos ((p + q) / 2)) <= 1) by (apply Rabs_le; lra).
  replace (Rabs 2) with 2 by (rewrite Rabs_right; lra).
  replace (Rabs ((p - q) / 2)) with (Rabs (p - q) / 2) in H1.
  - pose proof (Rabs_pos (sin ((p - q) / 2))).
    pose proof (Rabs_pos (cos ((p + q) / 2))). nra.
  - unfold Rdiv. rewrite Rabs_mult, (Rabs_right (/ 2)); lra.
Qed.

(** Near 1 the square root moves by no more than its argument. *)
Lemma sqrt_near_1 (q e : R) :
  0 <= e <= 1 -> - e <= q - 1 <= e -> - e <= sqrt q - 1 <= e.
Proof.
  intros He Hq. assert (Hq0 : 0 <= q) by lra.
  pose proof (sqrt_pos q) as Hr. pose proof (sqrt_sqrt q Hq0) as Hrr.
  split; nra.
Qed.

Lemma square_within (dl e : R) : - dl <= e <= dl -> 0 <= e * e <= dl * dl.
Proof.
  intros H. pose proof (Rmult_le_pos (dl - e) (dl + e)). nra.
Qed.

Section Rounding.

Variables (u eta eps : R) (A : Machine.Arith R).
Hypothesis Hacc : Machine.accurate u eta eps A.
Hypothesis Hu : 0 <= u.
Hypothesis Heta : 0 <= eta.
Hypothesis Heps : 0 <= eps.
Hypothesis Hsmall : u + eta + eps <= 1 / 100.

(** A component of the reset velocity: the approximate cosine or sine,
    times [baseSpeed]. *)
Lemma reset_component (approx true : R) :
  -1 <= true <= 1 -> Rabs (approx - true) <= eps ->
  - (eps + 101 / 100 * u + eta) <=
    Machine.mul A approx (Machine.baseSpeed A) - true <=
    eps + 101 / 100 * u + eta.
Proof.
  intros Hb Happrox. apply Rabs_within in Happrox.
  unfold Machine.baseSpeed. rewrite (Machine.acc_one _ _ _ _ Hacc).
  assert (Hm : Rabs (approx * 1) <= 101 / 100) by (apply Rabs_le; lra).
  pose proof (Machine.acc_mul _ _ _ _ Hacc approx 1 ltac:(lra)) as Hmul.
  apply (rounded_within u eta (101 / 100)) in Hmul; [| done | done].
  nra.
Qed.

(** The speed of a velocity [(c, s)] that is within [dl] of a point
    [(a, b)] of the unit circle: the exact one, and the one the loop
    measures. *)
Lemma speed_near_circle (dl a b c s : R) :
  a * a + b * b = 1 -> 0 <= dl <= 2 / 100 ->
  - dl <= c - a <= dl -> - dl <= s - b <= dl ->
  - (405 / 100 * dl) <= sqrt (c * c + s * s) - 1 <= 405 / 100 * dl /\
  - (405 / 100 * dl + 35 / 10 * u + 2 * eta) <=
    Machine.Math_sqrt A (Machine.add A (Machine.mul A c c)
                                       (Machine.mul A s s)) - 1 <=
    405 / 100 * dl + 35 / 10 * u + 2 * eta.
Proof.
  intros Hcircle Hdl Hc Hs.
  assert (Ha : -1 <= a <= 1) by nra.
  assert (Hb : -1 <= b <= 1) by nra.
  assert (Hac : - dl <= a * (c - a) <= dl) by nra.
  assert (Hbs : - dl <= b * (s - b) <= dl) by nra.
  pose proof (square_within dl (c - a) Hc) as Hcc.
  pose proof (square_within dl (s - b) Hs) as Hss.
  assert (Hdd : dl * dl <= 2 / 100 * dl) by nra.
  assert (Hsum : - (405 / 100 * dl) <= c * c + s * s - 1 <= 405 / 100 * dl)
    by nra.
  assert (Hc2 : 0 <= c * c <= 105 / 100) by nra.
  assert (Hs2 : 0 <= s * s <= 105 / 100) by nra.
  split.
  { apply sqrt_near_1; lra. }
  pose proof (Machine.acc_mul _ _ _ _ Hacc c c
                ltac:(apply Rabs_le; lra)) as Hp1.
  rewrite (Rabs_right (c * c)) in Hp1 by lra. apply Rabs_within in Hp1.
  pose proof (Machine.acc_mul _ _ _ _ Hacc s s
                ltac:(apply Rabs_le; lra)) as Hp2.
  rewrite (Rabs_right (s * s)) in Hp2 by lra. apply Rabs_within in Hp2.
  set (p1 := Machine.mul A c c) in *. set (p2 := Machine.mul A s s) in *.
  assert (Hcs : u * (c * c + s * s) <= 109 / 100 * u) by nra.
  assert (Hp : - (405 / 100 * dl + 109 / 100 * u + 2 * eta) <=
               p1 + p2 - 1 <= 405 / 100 * dl + 109 / 100 * u + 2 * eta)
    by lra.
  assert (Hp' : 0 <= p1 + p2 <= 12 / 10) by lra.
  pose proof (Machine.acc_add _ _ _ _ Hacc p1 p2
                ltac:(apply Rabs_le; lra)) as Hq.
  rewrite (Rabs_right (p1 + p2)) in Hq by lra. apply Rabs_within in Hq.
  assert (Hpu : u * (p1 + p2) <= 12 / 10 * u) by nra.
  set (q := Machine.add A p1 p2) in *.
  assert (Hq' : - (405 / 100 * dl + 23 / 10 * u + 2 * eta) <=
                q - 1 <= 405 / 100 * dl + 23 / 10 * u + 2 * eta) by lra.
  pose proof (sqrt_near_1 q (405 / 100 * dl + 23 / 10 * u + 2 * eta)
                ltac:(lra) Hq') as Hr.
  pose proof (Machine.acc_sqrt _ _ _ _ Hacc q ltac:(lra)) as Hs'.
  apply Rabs_within in Hs'.
  assert (Hru : u * sqrt q <= 12 / 10 * u) by nra.
  lra.
Qed.

(** The velocity the speed floor resets to, for a measured angle [t]. *)
Lemma reset_velocity (t : R) :
  let c := Machine.mul A (Machine.Math_cos A t) (Machine.baseSpeed A) in
  let s := Machine.mul A (Machine.Math_sin A t) (Machine.baseSpeed A) in
  let d := u + eta + eps in
  Rabs (c - cos t) <= 2 * d /\ Rabs (s - sin t) <= 2 * d /\
  Rabs (sqrt (c * c + s * s) - 1) <= 8 * d /\
  Rabs (Machine.Math_sqrt A (Machine.add A (Machine.mul A c c)
                                           (Machine.mul A s s)) - 1)
    <= 8 * d.
Proof.
  intros c s d.
  pose proof (reset_component _ _ (COS_bound t)
                (Machine.acc_cos _ _ _ _ Hacc t)) as Hc.
  pose proof (reset_component _ _ (SIN_bound t)
                (Machine.acc_sin _ _ _ _ Hacc t)) as Hs.
  fold c in Hc. fold s in Hs.
  assert (Hcircle : cos t * cos t + sin t * sin t = 1).
  { pose proof (sin2_cos2 t) as H. unfold Rsqr in H. lra. }
  destruct (speed_near_circle (eps + 101 / 100 * u + eta) _ _ c s Hcircle
              ltac:(lra) Hc Hs) as [Hexact Hmeasured].
  subst d. repeat split; apply Rabs_le; lra.
Qed.

End Rounding.

(** Exact arithmetic is accurate without error. *)
Lemma exact_accurate : Machine.accurate 0 0 0 Machine.exact.
Proof.
  split; cbn; try done; intros;
    rewrite ?Rminus_diag, ?Rabs_R0; lra.
Qed.

(** The sample arithmetic is accurate to the relative error 1/1024. *)
Lemma chopping_accurate : Machine.accurate (/ 1024) 0 0 Machine.chopping.
Proof.
  split; cbn; try done; intros.
  - rewrite Rminus_diag, Rabs_R0. pose proof (Rabs_pos (a + b)). lra.
  - replace (a * b * (1 - / 1024) - a * b) with (- (/ 1024 * (a * b)))
      by lra.
    rewrite Rabs_Ropp, Rabs_mult, (Rabs_right (/ 1024)); lra.
  - lra.
  - rewrite Rminus_diag, Rabs_R0. pose proof (sqrt_pos a). lra.
  - rewrite Rminus_diag, Rabs_R0. lra.
  - rewrite Rminus_diag, Rabs_R0. lra.
  - rewrite Rminus_diag, Rabs_R0. lra.
Qed.

(** In exact arithmetic the speed floor and the tick are those of the
    definitions on reals. *)
Lemma speed_floor_exact (p : Particle) :
  Machine.speed_floor Machine.exact (body p) =
    body (speed_floor p).
Proof.
  unfold Machine.speed_floor, speed_floor, body. cbn.
  by destruct (Rltb _ _).
Qed.

Lemma integrate_exact (p : Particle) :
  Machine.integrate Machine.exact (body p) =
    body (integrate p).
Proof. reflexivity. Qed.

Lemma bounce_x_exact (w : R) (p : Particle) :
  Machine.bounce_x Machine.exact w (body p) =
    body (bounce_x w p).
Proof.
  unfold Machine.bounce_x, bounce_x. cbn.
  destruct (Rltb (x p) 0); [reflexivity |].
  by destruct (Rltb w (x p)).
Qed.

Lemma bounce_y_exact (h : R) (p : Particle) :
  Machine.bounce_y Machine.exact h (body p) =
    body (bounce_y h p).
Proof.
  unfold Machine.bounce_y, bounce_y. cbn.
  destruct (Rltb (y p) 0); [reflexivity |].
  by destruct (Rltb h (y p)).
Qed.

Lemma tick_exact (e : Effects) (w h : R) (p : Particle) :
  Machine.tick Machine.exact w h (body p) =
    body (advance e None w h p).
Proof.
  unfold Machine.tick, advance.
  by rewrite speed_floor_exact, integrate_exact, bounce_x_exact,
    bounce_y_exact.
Qed.

(** C3, as the code has it.  The speed floor leaves a particle whose measured
    speed is at least [baseSpeed] (which is 1) as it is, however fast, and
    resets the velocity of a slower one to cosine and sine of the measured
    heading, times [baseSpeed].  In an arithmetic that is accurate up to
    [u], [eta] and [eps], the reset velocity is the unit vector along
    [atan2(vy, vx)], the direction of the old velocity (the angle 0 for a
    particle at rest), up to [3 (u + eta + eps)] in each component, and its
    speed, exact or as measured, is [baseSpeed] up to [8 (u + eta + eps)]:
    after the step the measured speed is at least
    [baseSpeed - 8 (u + eta + eps)].  In exact arithmetic the errors are 0
    and the reset velocity has length exactly [baseSpeed]. *)
Theorem speed_floor_up_to_rounding (u eta eps : R) (A : Machine.Arith R)
  (p : Machine.Body R) :
  Machine.accurate u eta eps A ->
  0 <= u -> 0 <= eta -> 0 <= eps -> u + eta + eps <= 1 / 100 ->
  let d := u + eta + eps in
  let q := Machine.speed_floor A p in
  let angle := Machine.Math_atan2 A (Machine.vy p) (Machine.vx p) in
  let heading := atan2 (Machine.vy p) (Machine.vx p) in
  let norm := sqrt (Machine.vx p * Machine.vx p +
                    Machine.vy p * Machine.vy p) in
  Machine.baseSpeed A = 1 /\
  (Machine.baseSpeed A <= Machine.speed A p -> q = p) /\
  (Machine.speed A p < Machine.baseSpeed A ->
     q = Machine.mkBody
           (Machine.x p) (Machine.y p)
           (Machine.mul A (Machine.Math_cos A angle) (Machine.baseSpeed A))
           (Machine.mul A (Machine.Math_sin A angle) (Machine.baseSpeed A)) /\
     Rabs (Machine.vx q - cos heading * Machine.baseSpeed A) <= 3 * d /\
     Rabs (Machine.vy q - sin heading * Machine.baseSpeed A) <= 3 * d /\
     (Machine.vx p <> 0 \/ Machine.vy p <> 0 ->
        Rabs (Machine.vx q - Machine.vx p / norm * Machine.baseSpeed A)
          <= 3 * d /\
        Rabs (Machine.vy q - Machine.vy p / norm * Machine.baseSpeed A)
          <= 3 * d) /\
     (Machine.vx p = 0 -> Machine.vy p = 0 ->
        Rabs (Machine.vx q - Machine.baseSpeed A) <= 3 * d /\
        Rabs (Machine.vy q) <= 3 * d) /\
     Rabs (sqrt (Machine.vx q * Machine.vx q +
                 Machine.vy q * Machine.vy q) - Machine.baseSpeed A)
       <= 8 * d /\
     Rabs (Machine.speed A q - Machine.baseSpeed A) <= 8 * d) /\
  Machine.baseSpeed A - 8 * d <= Machine.speed A q.
Proof.
  intros Hacc Hu Heta Heps Hsmall d q angle heading norm.
  assert (Hone : Machine.baseSpeed A = 1)
    by exact (Machine.acc_one _ _ _ _ Hacc).
  split; [exact Hone |].
  destruct (reset_velocity u eta eps A Hacc Hu Heta Heps Hsmall angle)
    as (Hc & Hs & Hexact & Hmeasured).
  pose proof (Machine.acc_atan2 _ _ _ _ Hacc (Machine.vy p) (Machine.vx p))
    as Ht.
  fold angle heading in Ht.
  pose proof (Rle_trans _ _ _ (cos_lipschitz angle heading) Ht) as Hcl.
  pose proof (Rle_trans _ _ _ (sin_lipschitz angle heading) Ht) as Hsl.
  apply Rabs_within in Hc, Hs, Hcl, Hsl, Hmeasured.
  subst q. unfold Machine.speed_floor.
  fold (Machine.speed A p) angle.
  rewrite (Machine.acc_lt _ _ _ _ Hacc).
  set (c := Machine.mul A (Machine.Math_cos A angle) (Machine.baseSpeed A))
    in *.
  set (s := Machine.mul A (Machine.Math_sin A angle) (Machine.baseSpeed A))
    in *.
  rewrite Hone. case_Rltb.
  - split; [intros; lra |]. split.
    + intros _. cbn.
      assert (Hvx : Rabs (c - cos heading * 1) <= 3 * d)
        by (apply Rabs_le; subst d; lra).
      assert (Hvy : Rabs (s - sin heading * 1) <= 3 * d)
        by (apply Rabs_le; subst d; lra).
      split; [reflexivity |]. split; [exact Hvx |]. split; [exact Hvy |].
      split; [| split; [| split]].
      * intros Hmoving. subst heading norm.
        by rewrite <- cos_atan2, <- sin_atan2.
      * intros Hx Hy. subst heading. rewrite Hx, Hy in Hvx, Hvy.
        unfold atan2 in Hvx, Hvy.
        rewrite (Rltb_false 0 0) in Hvx, Hvy by lra.
        rewrite cos_0 in Hvx. rewrite sin_0 in Hvy.
        split; [by rewrite Rmult_1_r in Hvx |].
        by rewrite Rmult_0_l, Rminus_0_r in Hvy.
      * exact Hexact.
      * apply Rabs_le. unfold Machine.speed. cbn. subst d. lra.
    + unfold Machine.speed. cbn. subst d. lra.
  - split; [done |]. split; [intros; lra |]. subst d. lra.
Qed.

Lemma slowParticle_slow :
  Machine.speed Machine.exact (body slowParticle) <
    Machine.baseSpeed Machine.exact.
Proof. cbn. apply sqrt_lt_bound; lra. Qed.

Lemma speed_floor_up_to_rounding_witness :
  Machine.accurate 0 0 0 Machine.exact /\
  Machine.speed Machine.exact (body slowParticle) <
    Machine.baseSpeed Machine.exact /\
  Rabs (Machine.speed Machine.exact
          (Machine.speed_floor Machine.exact (body slowParticle)) - 1)
    <= 8 * (0 + 0 + 0).
Proof.
  split; [exact exact_accurate |]. split; [exact slowParticle_slow |].
  destruct (speed_floor_up_to_rounding 0 0 0 Machine.exact
              (body slowParticle) exact_accurate
              ltac:(lra) ltac:(lra) ltac:(lra) ltac:(lra))
    as (_ & _ & Hreset & _).
  exact (proj2 (proj2 (proj2 (proj2 (proj2 (proj2
           (Hreset slowParticle_slow))))))).
Defined.

(** C3, the counterexample: in binary64 the velocity (0.75, 0.25), of
    measured speed 0.79, is reset to
    (0.9486832980505138, 0.31622776601683794), whose measured speed is
    0.9999999999999999, below [baseSpeed]. *)
Lemma reset_below_baseSpeed :
  Machine.lt Machine.binary64
    (Machine.speed Machine.binary64 Machine.slowBody)
    (Machine.baseSpeed Machine.binary64) = true /\
  Machine.speed Machine.binary64
    (Machine.speed_floor Machine.binary64 Machine.slowBody) =
    0x1.fffffffffffffp-1%float /\
  Machine.lt Machine.binary64
    (Machine.speed Machine.binary64
       (Machine.speed_floor Machine.binary64 Machine.slowBody))
    (Machine.baseSpeed Machine.binary64) = true.
Proof. repeat split; vm_compute; reflexivity. Qed.

(** ** Pointer repulsion *)

(** C4: within the repulsion radius the velocity grows by
    [force * mouseForce] along the angle [atan2(dy, dx)] from the pointer to
    the particle, with the linear falloff [force = (radius - d) / radius];
    for [d > 0] that increment is a multiple of the vector [(dx, dy)] that
    leads from the pointer to the particle.  At or beyond the radius the
    particle is left as it is. *)
Theorem repel_spec (e : Effects) (mouse : R * R) (p : Particle) :
  let dx := x p - fst mouse in
  let dy := y p - snd mouse in
  let d := sqrt (dx * dx + dy * dy) in
  let radius := mouseRepulsion e in
  let force := (radius - d) / radius in
  let theta := atan2 dy dx in
  (d < radius ->
     vx (repel e mouse p) = vx p + force * mouseForce e * cos theta /\
     vy (repel e mouse p) = vy p + force * mouseForce e * sin theta /\
     0 < force <= 1 /\ (d = 0 -> force = 1) /\
     (0 < d ->
        vx (repel e mouse p) - vx p = force * mouseForce e / d * dx /\
        vy (repel e mouse p) - vy p = force * mouseForce e / d * dy) /\
     motion (repel e mouse p) = (x p, y p, vx (repel e mouse p),
                                 vy (repel e mouse p), size p)) /\
  (radius <= d -> repel e mouse p = p) /\
  (radius <> 0 -> (radius - radius) / radius = 0).
Proof.
  intros dx dy d radius force theta.
  assert (Hd : 0 <= d) by apply sqrt_pos.
  split; [| split].
  - intros Hlt. unfold repel. fold dx dy d radius.
    rewrite (Rltb_true _ _ Hlt). cbn. fold dx dy d radius force theta.
    assert (Hforce : 0 < force <= 1).
    { unfold force. split.
      - apply Rdiv_lt_0_compat; lra.
      - apply Rdiv_le_bound; lra. }
    assert (Hne : 0 < d -> dx <> 0 \/ dy <> 0).
    { intros Hpos. destruct (Req_dec dx 0) as [Hx | Hx]; [| by left].
      right. intros Hy. unfold d in Hpos. rewrite Hx, Hy in Hpos.
      replace (0 * 0 + 0 * 0) with 0 in Hpos by lra.
      rewrite sqrt_0 in Hpos. lra. }
    split; [lra |]. split; [lra |]. split; [done |].
    split; [| split; [| reflexivity]].
    + intros H0. unfold force. rewrite H0. field. lra.
    + intros Hpos. unfold theta.
      rewrite cos_atan2, sin_atan2 by auto. fold d.
      split; field; lra.
  - intros Hge. unfold repel. fold dx dy d radius.
    by rewrite (Rltb_false _ _ Hge).
  - intros Hne. field. done.
Qed.

Lemma repel_spec_witness :
  sqrt ((30 - 0) * (30 - 0) + (40 - 0) * (40 - 0)) = 50 /\
  vx (repel initialEffects (0, 0) nearParticle) - vx nearParticle = 0.675 /\
  vy (repel initialEffects (0, 0) nearParticle) - vy nearParticle = 0.9.
Proof.
  assert (Hd : sqrt ((30 - 0) * (30 - 0) + (40 - 0) * (40 - 0)) = 50).
  { replace ((30 - 0) * (30 - 0) + (40 - 0) * (40 - 0)) with (50 * 50)
      by lra.
    apply sqrt_square. lra. }
  split; [exact Hd |].
  pose proof (repel_spec initialEffects (0, 0) nearParticle) as [Hnear _].
  cbv zeta in Hnear. cbn [x y fst snd nearParticle mouseRepulsion
    mouseForce initialEffects] in Hnear.
  rewrite Hd in Hnear.
  destruct Hnear as (_ & _ & _ & _ & Hdir & _); [lra |].
  destruct Hdir as [Hx Hy]; [lra |].
  split; [rewrite Hx | rewrite Hy]; lra.
Defined.

(** ** Colour resolution *)

Lemma js_rem_step (h : R) :
  (exists k : Z, js_rem (h + 1) 360 = h + 1 - 360 * IZR k) /\
  (0 <= h + 1 -> 0 <= js_rem (h + 1) 360 < 360) /\
  (0 <= h < 359 -> js_rem (h + 1) 360 = h + 1) /\
  (359 <= h < 360 -> js_rem (h + 1) 360 = h + 1 - 360).
Proof.
  unfold js_rem. split; [by eexists |].
  assert (Hfloor : 0 <= h + 1 ->
            Ztrunc ((h + 1) / 360) = Zfloor ((h + 1) / 360)).
  { intros H. unfold Ztrunc. rewrite Rltb_false; [done |].
    apply (Rdiv_bounds _ _ 0 (h + 2)); lra. }
  split; [| split].
  - intros H. rewrite (Hfloor H).
    pose proof (Zfloor_bound ((h + 1) / 360)) as [Hlo Hhi].
    apply (Rmult_le_compat_r 360) in Hlo; [| lra].
    apply (Rmult_lt_compat_r 360) in Hhi; [| lra].
    replace ((h + 1) / 360 * 360) with (h + 1) in * by (field; lra).
    lra.
  - intros H. rewrite Hfloor by lra.
    rewrite (Zfloor_eq 0); [lra |].
    apply (Rdiv_bounds _ _ 0 (0 + 1)); lra.
  - intros H. rewrite Hfloor by lra.
    rewrite (Zfloor_eq 1); [lra |].
    apply (Rdiv_bounds _ _ 1 (1 + 1)); lra.
Qed.

(** C9: in rainbow mode one colour resolution replaces the stored hue by
    [(hue + 1) % 360] and changes nothing else of the particle; in solid
    mode (and for any other mode string, by the [default] label) it returns
    the stored hue, saturation and brightness and leaves the particle as it
    is. *)
Theorem getParticleColor_spec (e : Effects) (p : Particle) :
  (colorMode e = "rainbow"%string ->
     let p' := fst (getParticleColor e p) in
     hue p' = js_rem (hue p + 1) 360 /\
     (exists k : Z, hue p' = hue p + 1 - 360 * IZR k) /\
     (0 <= hue p < 359 -> hue p' = hue p + 1) /\
     (359 <= hue p < 360 -> hue p' = hue p + 1 - 360) /\
     (0 <= hue p + 1 -> 0 <= hue p' < 360) /\
     motion p' = motion p /\
     saturation p' = saturation p /\
     brightness p' = brightness p /\
     snd (getParticleColor e p) = Hsl (hue p') 100 50) /\
  (colorMode e <> "rainbow"%string ->
     getParticleColor e p =
       (p, Hsl (hue p) (saturation p) (brightness p))).
Proof.
  unfold getParticleColor. split.
  - intros ->. cbn. pose proof (js_rem_step (hue p)) as (Hk & Hr & Hlo & Hhi).
    repeat split; try done; apply Hr || apply Hk; done.
  - intros Hne. apply String.eqb_neq in Hne. by rewrite Hne.
Qed.

Lemma getParticleColor_spec_witness :
  colorMode rainbowEffects = "rainbow"%string /\
  hue (getParticleColor rainbowEffects wrapParticle).1 = 0.5.
Proof.
  split; [reflexivity |].
  destruct (getParticleColor_spec rainbowEffects wrapParticle)
    as [Hrainbow _].
  destruct (Hrainbow eq_refl) as (_ & _ & _ & Hwrap & _).
  rewrite Hwrap; cbn; lra.
Defined.

(** ** Line styling *)

(** C10: in the gradient style the stroke is the two-stop gradient of the
    endpoint colours and the whole effect of [drawLine] is the same for every
    opacity passed in; in the other styles the stroke is white at the
    opacity passed in. *)
Theorem drawLine_gradient_ignores_opacity (pr : Props) (ctx : Ctx.t)
  (p1 p2 : Particle) (o : R) :
  let e := effects pr in
  (lineStyle e = "gradient"%string ->
     Ctx.painted (snd (drawLine pr ctx p1 p2 o)) =
       Ctx.painted ctx ++
       [Stroke (LinearGradient (x p1) (y p1) (x p2) (y p2)
                  [(0, snd (getParticleColor e p1));
                   (1, snd (getParticleColor e p2))])
               [] (lineWidth pr) (Ctx.shadowBlur ctx) (linePath p1 p2)] /\
     forall o' : R, drawLine pr ctx p1 p2 o' = drawLine pr ctx p1 p2 o) /\
  (lineStyle e <> "gradient"%string ->
     Ctx.painted (snd (drawLine pr ctx p1 p2 o)) =
       Ctx.painted ctx ++
       [Stroke (Plain (Rgba 255 255 255 o))
               (if String.eqb (lineStyle e) "dashed" then [5; 5] else [])
               (lineWidth pr) (Ctx.shadowBlur ctx) (linePath p1 p2)] /\
     fst (drawLine pr ctx p1 p2 o) = (p1, p2)).
Proof.
  intros e. unfold drawLine. fold e. split.
  - intros ->. cbn.
    unfold getParticleColor. destruct (String.eqb (colorMode e) "rainbow");
      cbn; split; done.
  - intros Hne. apply String.eqb_neq in Hne. rewrite Hne.
    destruct (String.eqb (lineStyle e) "dashed"); cbn; split; done.
Qed.

Lemma drawLine_gradient_ignores_opacity_witness :
  lineStyle (effects rainbowProps) = "gradient"%string /\
  drawLine rainbowProps Ctx.fresh leftParticle rightParticle 0.9 =
  drawLine rainbowProps Ctx.fresh leftParticle rightParticle 0.1.
Proof.
  split; [reflexivity |].
  destruct (drawLine_gradient_ignores_opacity rainbowProps Ctx.fresh
              leftParticle rightParticle 0.1) as [Hgradient _].
  exact (proj2 (Hgradient eq_refl) 0.9).
Defined.

(** ** Colour of the solid mode *)

Lemma Reqb_eq (a b : R) : Reqb a b = true <-> a = b.
Proof. unfold Reqb. destruct (Req_dec_T a b); split; intros; done. Qed.

Lemma Reqb_neq (a b : R) : Reqb a b = false <-> a <> b.
Proof. unfold Reqb. destruct (Req_dec_T a b); split; intros; done. Qed.

Lemma Rdiv_within (a d lo hi : R) :
  0 < d -> lo * d <= a <= hi * d -> lo <= a / d <= hi.
Proof.
  intros Hd [Hlo Hhi]. pose proof (Rinv_0_lt_compat d Hd) as Hinv.
  unfold Rdiv. split.
  - replace lo with (lo * d * / d) by (field; lra).
    apply Rmult_le_compat_r; lra.
  - replace hi with (hi * d * / d) by (field; lra).
    apply Rmult_le_compat_r; lra.
Qed.

Lemma Rdiv_neg (a d : R) : 0 < d -> a < 0 -> a / d < 0.
Proof.
  intros Hd Ha. pose proof (Rinv_0_lt_compat d Hd) as Hinv.
  unfold Rdiv. nra.
Qed.

Lemma channels_between (r g b : R) :
  let max := Rmax r (Rmax g b) in
  let min := Rmin r (Rmin g b) in
  (min <= r <= max) /\ (min <= g <= max) /\ (min <= b <= max).
Proof.
  cbn.
  pose proof (Rmax_l r (Rmax g b)). pose proof (Rmax_r r (Rmax g b)).
  pose proof (Rmax_l g b). pose proof (Rmax_r g b).
  pose proof (Rmin_l r (Rmin g b)). pose proof (Rmin_r r (Rmin g b)).
  pose proof (Rmin_l g b). pose proof (Rmin_r g b).
  lra.
Qed.

Lemma rgbToHsl_hue_range (r g b : R) :
  0 <= fst (fst (rgbToHsl r g b)) < 360.
Proof.
  unfold rgbToHsl.
  pose proof (channels_between r g b) as (Hr & Hg & Hb). cbn in Hr, Hg, Hb.
  set (max := Rmax r (Rmax g b)) in *.
  set (min := Rmin r (Rmin g b)) in *.
  destruct (Reqb max min) eqn:Hachr; cbn; [lra |].
  apply Reqb_neq in Hachr.
  assert (Hd : 0 < max - min) by lra.
  destruct (Reqb max r) eqn:Er; [| destruct (Reqb max g) eqn:Eg;
    [| destruct (Reqb max b) eqn:Eb]].
  - apply Reqb_eq in Er.
    pose proof (Rdiv_within (g - b) (max - min) (-1) 1 Hd) as Hq.
    case_Rltb.
    + pose proof (Rdiv_neg (g - b) (max - min) Hd). lra.
    + pose proof (Rdiv_within (g - b) (max - min) 0 1 Hd). lra.
  - apply Reqb_eq in Eg.
    pose proof (Rdiv_within (b - r) (max - min) (-1) 1 Hd). lra.
  - apply Reqb_eq in Eb.
    pose proof (Rdiv_within (r - g) (max - min) (-1) 1 Hd). lra.
  - lra.
Qed.

Ltac eval_Rmax :=
  repeat match goal with
  | |- context [Rmax ?a ?b] =>
      first [ rewrite (Rmax_left a b) by lra
            | rewrite (Rmax_right a b) by lra ]
  | |- context [Rmin ?a ?b] =>
      first [ rewrite (Rmin_left a b) by lra
            | rewrite (Rmin_right a b) by lra ]
  end.

Lemma rgbToHsl_white : rgbToHsl 1 1 1 = (0, 0, 1).
Proof.
  unfold rgbToHsl. eval_Rmax. eval_Rltb. cbn. repeat f_equal. lra.
Qed.

Lemma rgbToHsl_black : rgbToHsl 0 0 0 = (0, 0, 0).
Proof.
  unfold rgbToHsl. eval_Rmax. eval_Rltb. cbn. repeat f_equal. lra.
Qed.

Lemma rgbToHsl_red : rgbToHsl 1 0 0 = (0, 1, 1 / 2).
Proof.
  unfold rgbToHsl. eval_Rmax. eval_Rltb. cbn. repeat f_equal; lra.
Qed.

Lemma channel_val (s : string) (from to : nat) (n : Z) :
  parseInt16 (slice from to s) = Some n ->
  channel s from to = Some (IZR n / 255).
Proof. unfold channel. by intros ->. Qed.

Lemma channel_ff : IZR 255 / 255 = 1.
Proof. lra. Qed.

Lemma channel_00 : IZR 0 / 255 = 0.
Proof. lra. Qed.

(** C6: the conversion of the solid mode computes lightness
    [(max + min) / 2]; hue 0 and saturation 0 when [max = min]; otherwise the
    saturation is [d / (2 - max - min)] above half lightness and
    [d / (max + min)] else, and the hue is 60 times the case of the maximal
    channel (red first, then green, then blue), which always lies in
    [0, 360).  White gives (0, 0, 100), pure red (0, 100, 50) and black
    (0, 0, 0) as hue, saturation and brightness of the particle. *)
Theorem rgbToHsl_spec (r g b : R) (p : Particle) :
  let max := Rmax r (Rmax g b) in
  let min := Rmin r (Rmin g b) in
  let d := max - min in
  let h := fst (fst (rgbToHsl r g b)) in
  let s := snd (fst (rgbToHsl r g b)) in
  let l := snd (rgbToHsl r g b) in
  l = (max + min) / 2 /\
  (max = min -> h = 0 /\ s = 0) /\
  (max <> min ->
     (0.5 < l -> s = d / (2 - max - min)) /\
     (l <= 0.5 -> s = d / (max + min)) /\
     (max = r -> g < b -> h = ((g - b) / d + 6) * 60) /\
     (max = r -> b <= g -> h = ((g - b) / d + 0) * 60) /\
     (max <> r -> max = g -> h = ((b - r) / d + 2) * 60) /\
     (max <> r -> max <> g -> h = ((r - g) / d + 4) * 60)) /\
  0 <= h < 360 /\
  solidColor "#ffffff" p =
    Some (p |> set_hue 0 |> set_saturation 0 |> set_brightness 100) /\
  solidColor "#ff0000" p =
    Some (p |> set_hue 0 |> set_saturation 100 |> set_brightness 50) /\
  solidColor "#000000" p =
    Some (p |> set_hue 0 |> set_saturation 0 |> set_brightness 0).
Proof.
  intros max min d h s l.
  split; [| split; [| split; [| split; [| split; [| split]]]]].
  - subst l. unfold rgbToHsl. fold max min.
    by destruct (negb (Reqb max min)).
  - intros Heq. subst h s. unfold rgbToHsl. fold max min.
    by rewrite (Reqb_true _ _ Heq).
  - intros Hne. subst h s l. unfold rgbToHsl. fold max min d.
    rewrite (Reqb_false _ _ Hne). cbn.
    pose proof (channels_between r g b) as (_ & _ & Hb). cbn in Hb.
    fold max min in Hb.
    repeat split.
    + intros Hl. by rewrite (Rltb_true _ _ Hl).
    + intros Hl. by rewrite (Rltb_false _ _ Hl).
    + intros Hr Hlt. by rewrite (Reqb_true _ _ Hr), (Rltb_true _ _ Hlt).
    + intros Hr Hge. by rewrite (Reqb_true _ _ Hr), (Rltb_false _ _ Hge).
    + intros Hr Hg. by rewrite (Reqb_false _ _ Hr), (Reqb_true _ _ Hg).
    + intros Hr Hg. rewrite (Reqb_false _ _ Hr), (Reqb_false _ _ Hg).
      assert (Hmb : max = b).
      { subst max. unfold Rmax in *.
        repeat destruct (Rle_dec _ _); lra. }
      by rewrite (Reqb_true _ _ Hmb).
  - apply rgbToHsl_hue_range.
  - unfold solidColor.
    rewrite (channel_val _ 1 3 255), (channel_val _ 3 5 255),
      (channel_val _ 5 7 255) by reflexivity.
    cbn. rewrite channel_ff, rgbToHsl_white.
    unfold set_hue, set_saturation, set_brightness. cbn.
    do 2 f_equal; lra.
  - unfold solidColor.
    rewrite (channel_val _ 1 3 255), (channel_val _ 3 5 0),
      (channel_val _ 5 7 0) by reflexivity.
    cbn. rewrite channel_ff, channel_00, rgbToHsl_red.
    unfold set_hue, set_saturation, set_brightness. cbn.
    do 2 f_equal; lra.
  - unfold solidColor.
    rewrite (channel_val _ 1 3 0), (channel_val _ 3 5 0),
      (channel_val _ 5 7 0) by reflexivity.
    cbn. rewrite channel_00, rgbToHsl_black.
    unfold set_hue, set_saturation, set_brightness. cbn.
    do 2 f_equal; lra.
Qed.

Lemma rgbToHsl_spec_witness :
  Rmax 0 (Rmax 0 1) <> Rmin 0 (Rmin 0 1) /\
  (rgbToHsl 0 0 1).1.1 = 240.
Proof.
  assert (Hmax : Rmax 0 (Rmax 0 1) = 1) by (eval_Rmax; reflexivity).
  assert (Hmin : Rmin 0 (Rmin 0 1) = 0) by (eval_Rmax; reflexivity).
  assert (Hne : Rmax 0 (Rmax 0 1) <> Rmin 0 (Rmin 0 1))
    by (rewrite Hmax, Hmin; lra).
  split; [exact Hne |].
  destruct (rgbToHsl_spec 0 0 1 leftParticle) as (_ & _ & Hchrom & _).
  destruct (Hchrom Hne) as (_ & _ & _ & _ & _ & Hblue).
  rewrite Hblue; rewrite ?Hmax, ?Hmin; lra.
Defined.

(** ** The loops of [draw] *)

Lemma for_loop_invariant {S : Type} (P : nat -> S -> Prop)
  (body : nat -> S -> S) (count from : nat) (s : S) :
  P from s ->
  (forall i s', (from <= i < from + count)%nat -> P i s' ->
                P (Datatypes.S i) (body i s')) ->
  P (from + count)%nat (for_loop from count body s).
Proof.
  revert from s. induction count as [| count IH]; intros from s H0 Hstep.
  - by rewrite Nat.add_0_r.
  - cbn. replace (from + Datatypes.S count)%nat
      with (Datatypes.S from + count)%nat by lia.
    apply IH.
    + apply Hstep; [lia | done].
    + intros i s' Hi. apply Hstep. lia.
Qed.

Lemma motion_fields (p q : Particle) :
  motion p = motion q ->
  x p = x q /\ y p = y q /\ vx p = vx q /\ vy p = vy q /\ size p = size q.
Proof. unfold motion. intros [= -> -> -> -> ->]. done. Qed.

Lemma motion_distance (p q p2 q2 : Particle) :
  motion p = motion q -> motion p2 = motion q2 ->
  distance p p2 = distance q q2.
Proof.
  intros (Hx & Hy & _)%motion_fields (Hx2 & Hy2 & _)%motion_fields.
  unfold distance. by rewrite Hx, Hy, Hx2, Hy2.
Qed.

Lemma motion_linePath (p q p2 q2 : Particle) :
  motion p = motion q -> motion p2 = motion q2 ->
  linePath p p2 = linePath q q2.
Proof.
  intros (Hx & Hy & _)%motion_fields (Hx2 & Hy2 & _)%motion_fields.
  unfold linePath. by rewrite Hx, Hy, Hx2, Hy2.
Qed.

Lemma motion_shapePath (e : Effects) (p q : Particle) :
  motion p = motion q -> shapePath e p = shapePath e q.
Proof.
  intros (Hx & Hy & _ & _ & Hs)%motion_fields.
  unfold shapePath. by rewrite Hx, Hy, Hs.
Qed.

Lemma motion_lookup (ps ref : list Particle) (i : nat) (r : Particle) :
  motion <$> ps = motion <$> ref -> ref !! i = Some r ->
  exists p, ps !! i = Some p /\ motion p = motion r.
Proof.
  intros Hm Hr. apply (f_equal (fun l => l !! i)) in Hm.
  rewrite !list_lookup_fmap, Hr in Hm.
  destruct (ps !! i) as [p |]; [| done].
  exists p. split; [done |].
  cbn [fmap option_fmap option_map] in Hm. congruence.
Qed.

Lemma getParticleColor_motion (e : Effects) (p : Particle) :
  motion (getParticleColor e p).1 = motion p.
Proof.
  unfold getParticleColor. by destruct (String.eqb (colorMode e) "rainbow").
Qed.

Lemma fillPaths_app (l1 l2 : list Paint) :
  fillPaths (l1 ++ l2) = fillPaths l1 ++ fillPaths l2.
Proof. apply flat_map_app. Qed.

Lemma strokePaths_app (l1 l2 : list Paint) :
  strokePaths (l1 ++ l2) = strokePaths l1 ++ strokePaths l2.
Proof. apply flat_map_app. Qed.

(** What [drawParticle] does: one fill of the particle's shape, the motion
    of the particle untouched. *)
Lemma drawParticle_effect (e : Effects) (ctx : Ctx.t) (p : Particle) :
  motion (drawParticle e ctx p).1 = motion p /\
  exists style sc sb,
    Ctx.painted (drawParticle e ctx p).2 =
      Ctx.painted ctx ++ [Fill style sc sb (shapePath e p)].
Proof.
  unfold drawParticle, shapePath.
  pose proof (getParticleColor_motion e p) as Hm.
  destruct (getParticleColor e p) as [q color]. cbn [fst] in Hm.
  split; [exact Hm |].
  apply motion_fields in Hm as (Hx & Hy & _ & _ & Hs).
  destruct (glowEffect e),
    (String.eqb (particleShape e) "square"),
    (String.eqb (particleShape e) "triangle"); cbn;
    rewrite Hx, Hy, Hs; eauto.
Qed.

(** What [drawLine] does: one stroke of the segment, motions untouched. *)
Lemma drawLine_effect (pr : Props) (ctx : Ctx.t) (p1 p2 : Particle) (o : R) :
  motion (drawLine pr ctx p1 p2 o).1.1 = motion p1 /\
  motion (drawLine pr ctx p1 p2 o).1.2 = motion p2 /\
  exists style dash,
    Ctx.painted (drawLine pr ctx p1 p2 o).2 =
      Ctx.painted ctx ++
      [Stroke style dash (lineWidth pr) (Ctx.shadowBlur ctx)
              (linePath p1 p2)].
Proof.
  unfold drawLine.
  pose proof (getParticleColor_motion (effects pr) p1) as Hm1.
  pose proof (getParticleColor_motion (effects pr) p2) as Hm2.
  destruct (getParticleColor (effects pr) p1) as [q1 c1].
  destruct (getParticleColor (effects pr) p2) as [q2 c2].
  cbn [fst] in Hm1, Hm2.
  pose proof (motion_linePath _ _ _ _ Hm1 Hm2) as Hpath.
  unfold linePath in *.
  destruct (String.eqb (lineStyle (effects pr)) "gradient"),
    (String.eqb (lineStyle (effects pr)) "dashed"); cbn -[motion];
    (split; [done | split; [done |]]); rewrite ?Hpath; eauto.
Qed.

(** One step of the inner loop against a reference list [ref] that has the
    motions of the array. *)
Lemma connect_effect (pr : Props) (i j : nat) (ps ref : list Particle)
  (ctx : Ctx.t) (r r2 : Particle) :
  motion <$> ps = motion <$> ref ->
  ref !! i = Some r -> ref !! j = Some r2 ->
  let st := connect pr i j (ps, ctx) in
  motion <$> st.1 = motion <$> ref /\
  fillPaths (Ctx.painted st.2) = fillPaths (Ctx.painted ctx) /\
  strokePaths (Ctx.painted st.2) =
    strokePaths (Ctx.painted ctx) ++
    (if Rltb (distance r r2) (connectionDistance (effects pr))
     then [linePath r r2] else []).
Proof.
  intros Hm Hi Hj.
  destruct (motion_lookup _ _ _ _ Hm Hi) as (p & Hpi & Hp).
  destruct (motion_lookup _ _ _ _ Hm Hj) as (p2 & Hpj & Hp2).
  unfold connect. rewrite Hpi, Hpj.
  fold (distance p p2). rewrite (motion_distance _ _ _ _ Hp Hp2).
  destruct (Rltb (distance r r2) (connectionDistance (effects pr))).
  - pose proof (drawLine_effect pr ctx p p2
      (opacity (distance r r2) (connectionDistance (effects pr))))
      as (H1 & H2 & style & dash & Hpaint).
    destruct (drawLine pr ctx p p2 _) as [[q q2] ctx']. cbn in *.
    split; [| split].
    + rewrite !list_fmap_insert, H1, H2.
      rewrite (list_insert_id (motion <$> ps) i (motion p))
        by (by rewrite list_lookup_fmap, Hpi).
      rewrite (list_insert_id (motion <$> ps) j (motion p2))
        by (by rewrite list_lookup_fmap, Hpj).
      done.
    + rewrite Hpaint, fillPaths_app. cbn. by rewrite app_nil_r.
    + rewrite Hpaint, strokePaths_app. cbn.
      by rewrite (motion_linePath _ _ _ _ Hp Hp2).
  - cbn. by rewrite app_nil_r.
Qed.

Lemma inner_loop_effect (pr : Props) (i : nat) (ref : list Particle)
  (r : Particle) (count : nat) :
  forall (from : nat) (ps : list Particle) (ctx : Ctx.t),
  motion <$> ps = motion <$> ref ->
  ref !! i = Some r ->
  (from + count <= length ref)%nat ->
  let st := for_loop from count (connect pr i) (ps, ctx) in
  motion <$> st.1 = motion <$> ref /\
  fillPaths (Ctx.painted st.2) = fillPaths (Ctx.painted ctx) /\
  strokePaths (Ctx.painted st.2) =
    strokePaths (Ctx.painted ctx) ++
    linesFrom (connectionDistance (effects pr)) r (take count (drop from ref)).
Proof.
  induction count as [| count IH]; intros from ps ctx Hm Hi Hlen.
  - cbn. by rewrite app_nil_r.
  - destruct (lookup_lt_is_Some_2 ref from) as [r2 Hj]; [lia |].
    pose proof (connect_effect pr i from ps ref ctx r r2 Hm Hi Hj)
      as (Hm1 & Hf1 & Hs1).
    cbn [for_loop].
    destruct (connect pr i from (ps, ctx)) as [ps1 ctx1]. cbn [fst snd] in *.
    destruct (IH (S from) ps1 ctx1 Hm1 Hi) as (Hm2 & Hf2 & Hs2); [lia |].
    split; [done |]. split; [congruence |].
    rewrite Hs2, Hs1, (drop_S _ _ _ Hj). cbn [take].
    unfold linesFrom. cbn [flat_map].
    by rewrite <- app_assoc.
Qed.

(** Moving the boundary between the advanced prefix and the untouched
    suffix of the array one particle to the right. *)
Lemma advance_prefix_step {A B : Type} (f : A -> A) (g : A -> B)
  (l : list A) (i : nat) (r : A) :
  l !! i = Some r ->
  <[i := g (f r)]> (g <$> ((f <$> take i l) ++ drop i l)) =
  g <$> ((f <$> take (S i) l) ++ drop (S i) l).
Proof.
  intros Hr.
  assert (Hlen : length (g <$> (f <$> take i l)) = i).
  { rewrite !length_fmap, length_take.
    apply lookup_lt_Some in Hr. lia. }
  rewrite (take_S_r _ _ _ Hr), (drop_S _ _ _ Hr), !fmap_app.
  rewrite insert_app_r_alt by lia.
  rewrite Hlen, Nat.sub_diag. cbn. by rewrite <- app_assoc.
Qed.

Lemma prefix_lookup {A : Type} (f : A -> A) (l : list A) (i : nat) (r : A) :
  l !! i = Some r -> ((f <$> take i l) ++ drop i l) !! i = Some r.
Proof.
  intros Hr.
  assert (Hlen : length (f <$> take i l) = i).
  { rewrite length_fmap, length_take. apply lookup_lt_Some in Hr. lia. }
  rewrite lookup_app_r by lia.
  rewrite Hlen, Nat.sub_diag, lookup_drop, Nat.add_0_r. done.
Qed.

Lemma prefix_drop {A : Type} (f : A -> A) (l : list A) (i : nat) :
  (i <= length l)%nat -> drop i ((f <$> take i l) ++ drop i l) = drop i l.
Proof.
  intros Hi.
  assert (Hlen : length (f <$> take i l) = i).
  { rewrite length_fmap, length_take. lia. }
  rewrite <- Hlen at 1. apply drop_app_length.
Qed.

(** One iteration of the outer loop: particle [i] is moved by [f], painted,
    and connected to the particles after it as they stand. *)
Lemma iteration_with_effect (f : Particle -> Particle) (pr : Props)
  (i : nat) (ps0 ps : list Particle) (ctx : Ctx.t) (r : Particle) :
  respects_motion f ->
  ps0 !! i = Some r ->
  motion <$> ps = motion <$> ((f <$> take i ps0) ++ drop i ps0) ->
  let st := iteration_with f pr i (ps, ctx) in
  motion <$> st.1 = motion <$> ((f <$> take (S i) ps0) ++ drop (S i) ps0) /\
  fillPaths (Ctx.painted st.2) =
    fillPaths (Ctx.painted ctx) ++ [shapePath (effects pr) (f r)] /\
  strokePaths (Ctx.painted st.2) =
    strokePaths (Ctx.painted ctx) ++
    linesFrom (connectionDistance (effects pr)) (f r) (drop (S i) ps0).
Proof.
  intros Hf Hr Hm.
  pose proof (lookup_lt_Some _ _ _ Hr) as Hi.
  destruct (motion_lookup _ _ _ _ Hm (prefix_lookup f _ _ _ Hr))
    as (p & Hpi & Hp).
  assert (Hlen : length ps = length ps0).
  { apply (f_equal length) in Hm.
    rewrite !length_fmap, length_app, length_fmap, length_take,
      length_drop in Hm. lia. }
  unfold iteration_with. rewrite Hpi.
  pose proof (drawParticle_effect (effects pr) ctx (f p))
    as (Hq & sty & sc & sb & Hpaint).
  destruct (drawParticle (effects pr) ctx (f p)) as [q ctx1].
  cbn [fst snd] in Hq, Hpaint.
  assert (Hqr : motion q = motion (f r)) by (rewrite Hq; by apply Hf).
  set (ref := (f <$> take (S i) ps0) ++ drop (S i) ps0).
  assert (Hm1 : motion <$> <[i := q]> ps = motion <$> ref).
  { rewrite list_fmap_insert, Hm, Hqr. by apply advance_prefix_step. }
  assert (Href : ref !! i = Some (f r)).
  { unfold ref. rewrite (take_S_r _ _ _ Hr), fmap_app. cbn.
    rewrite <- app_assoc. cbn. apply list_lookup_middle.
    rewrite length_fmap, length_take. lia. }
  assert (Hreflen : length ref = length ps0).
  { unfold ref. rewrite length_app, length_fmap, length_take, length_drop.
    lia. }
  destruct (inner_loop_effect pr i ref (f r)
              (length (<[i := q]> ps) - (i + 1)) (i + 1) (<[i := q]> ps) ctx1
              Hm1 Href) as (Hm2 & Hf2 & Hs2).
  { rewrite length_insert. lia. }
  split; [done |]. split.
  - rewrite Hf2, Hpaint, fillPaths_app. cbn.
    by rewrite (motion_shapePath _ _ _ (Hf _ _ Hp)).
  - rewrite Hs2, Hpaint, strokePaths_app. cbn. rewrite app_nil_r.
    f_equal. f_equal.
    rewrite length_insert, Hlen.
    replace (i + 1)%nat with (S i) by lia.
    unfold ref. rewrite prefix_drop by lia.
    apply take_ge. rewrite length_drop. lia.
Qed.

Lemma outer_loop_effect (f : Particle -> Particle) (pr : Props)
  (ps0 : list Particle) (count : nat) :
  respects_motion f ->
  forall (from : nat) (ps : list Particle) (ctx : Ctx.t),
  (from + count <= length ps0)%nat ->
  motion <$> ps = motion <$> ((f <$> take from ps0) ++ drop from ps0) ->
  let st := for_loop from count (iteration_with f pr) (ps, ctx) in
  motion <$> st.1 =
    motion <$> ((f <$> take (from + count) ps0) ++ drop (from + count) ps0) /\
  fillPaths (Ctx.painted st.2) =
    fillPaths (Ctx.painted ctx) ++
    (shapePath (effects pr) <$> (f <$> take count (drop from ps0))) /\
  strokePaths (Ctx.painted st.2) =
    strokePaths (Ctx.painted ctx) ++
    staleLinesN f (connectionDistance (effects pr)) count (drop from ps0).
Proof.
  intros Hf. induction count as [| count IH]; intros from ps ctx Hlen Hm.
  - cbn. rewrite Nat.add_0_r, !app_nil_r. done.
  - destruct (lookup_lt_is_Some_2 ps0 from) as [r Hr]; [lia |].
    pose proof (iteration_with_effect f pr from ps0 ps ctx r Hf Hr Hm)
      as (Hm1 & Hf1 & Hs1).
    cbn [for_loop].
    destruct (iteration_with f pr from (ps, ctx)) as [ps1 ctx1].
    cbn [fst snd] in *.
    destruct (IH (S from) ps1 ctx1) as (Hm2 & Hf2 & Hs2); [lia | done |].
    replace (from + S count)%nat with (S from + count)%nat by lia.
    split; [done |]. split.
    + rewrite Hf2, Hf1, (drop_S _ _ _ Hr). cbn. by rewrite <- app_assoc.
    + rewrite Hs2, Hs1, (drop_S _ _ _ Hr). cbn. by rewrite <- app_assoc.
Qed.

Lemma staleLinesN_all (f : Particle -> Particle) (cd : R)
  (ps : list Particle) :
  staleLinesN f cd (length ps) ps = staleLines f cd ps.
Proof. induction ps as [| p rest IH]; [done |]. cbn. by rewrite IH. Qed.

Lemma with_color_of_motion (p q : Particle) :
  motion p = motion q ->
  p = with_color (hue p) (saturation p) (brightness p) q.
Proof.
  destruct p, q. unfold motion, with_color. cbn.
  intros [= -> -> -> -> ->]. reflexivity.
Qed.

Lemma repel_with_color (e : Effects) (m : R * R) (h s b : R)
  (p : Particle) :
  repel e m (with_color h s b p) = with_color h s b (repel e m p).
Proof. destruct p. unfold repel. cbn. by case_Rltb. Qed.

Lemma speed_floor_with_color (h s b : R) (p : Particle) :
  speed_floor (with_color h s b p) = with_color h s b (speed_floor p).
Proof. destruct p. unfold speed_floor. cbn. by case_Rltb. Qed.

Lemma integrate_with_color (h s b : R) (p : Particle) :
  integrate (with_color h s b p) = with_color h s b (integrate p).
Proof. by destruct p. Qed.

Lemma bounce_x_with_color (w h s b : R) (p : Particle) :
  bounce_x w (with_color h s b p) = with_color h s b (bounce_x w p).
Proof. destruct p. unfold bounce_x. cbn. by repeat case_Rltb. Qed.

Lemma bounce_y_with_color (w h s b : R) (p : Particle) :
  bounce_y w (with_color h s b p) = with_color h s b (bounce_y w p).
Proof. destruct p. unfold bounce_y. cbn. by repeat case_Rltb. Qed.

(** The kinematic step neither reads nor writes the colour. *)
Lemma advance_with_color (e : Effects) (mouse : Pointer) (w h : R)
  (hu s b : R) (p : Particle) :
  advance e mouse w h (with_color hu s b p) =
  with_color hu s b (advance e mouse w h p).
Proof.
  unfold advance. destruct mouse as [m |].
  - by rewrite repel_with_color, speed_floor_with_color,
      integrate_with_color, bounce_x_with_color, bounce_y_with_color.
  - by rewrite speed_floor_with_color,
      integrate_with_color, bounce_x_with_color, bounce_y_with_color.
Qed.

Lemma respects_advance (e : Effects) (mouse : Pointer) (w h : R) :
  respects_motion (advance e mouse w h).
Proof.
  intros p q Hm. rewrite (with_color_of_motion p q Hm).
  by rewrite advance_with_color.
Qed.

Lemma respects_id : respects_motion (fun p => p).
Proof. by intros p q. Qed.

(** The whole loop of a frame over the kinematic part [f]. *)
Lemma frame_loop_effect (f : Particle -> Particle) (pr : Props)
  (ps : list Particle) (ctx : Ctx.t) :
  respects_motion f ->
  let st := for_loop 0 (length ps) (iteration_with f pr) (ps, ctx) in
  motion <$> st.1 = motion <$> (f <$> ps) /\
  fillPaths (Ctx.painted st.2) =
    fillPaths (Ctx.painted ctx) ++ (shapePath (effects pr) <$> (f <$> ps)) /\
  strokePaths (Ctx.painted st.2) =
    strokePaths (Ctx.painted ctx) ++
    staleLines f (connectionDistance (effects pr)) ps.
Proof.
  intros Hf.
  pose proof (outer_loop_effect f pr ps (length ps) Hf 0 ps ctx) as H.
  cbn [Nat.add] in H. rewrite take_0, drop_0 in H.
  cbn [fmap list_fmap app] in H.
  rewrite drop_all, app_nil_r, staleLinesN_all in H.
  rewrite (take_ge ps (length ps)) in H by lia.
  apply H; [lia | done].
Qed.

Lemma clear_fillPaths (ctx : Ctx.t) (c : Style) (px py w h : R) :
  let ctx' := ctx |> Ctx.set_fillStyle c |> Ctx.fillRect px py w h in
  fillPaths (Ctx.painted ctx') = fillPaths (Ctx.painted ctx) /\
  strokePaths (Ctx.painted ctx') = strokePaths (Ctx.painted ctx).
Proof.
  cbn. rewrite fillPaths_app, strokePaths_app. cbn.
  by rewrite !app_nil_r.
Qed.

(** A frame of [draw] on a canvas with a context: every particle is
    advanced once, painted once at its new place, and connected to the
    later particles where they stood before this frame moved them. *)
Lemma draw_effect (pr : Props) (w : World) (canvas : Canvas) (ctx : Ctx.t) :
  canvasRef w = Some canvas -> context2d canvas = Some ctx ->
  let adv := advance (effects pr) (mousePositionRef w)
                     (INR (width canvas)) (INR (height canvas)) in
  motion <$> particlesRef (draw pr w) = motion <$> (adv <$> particlesRef w) /\
  fillPaths (paintLog (draw pr w)) =
    fillPaths (Ctx.painted ctx) ++
    (shapePath (effects pr) <$> (adv <$> particlesRef w)) /\
  strokePaths (paintLog (draw pr w)) =
    strokePaths (Ctx.painted ctx) ++
    staleLines adv (connectionDistance (effects pr)) (particlesRef w).
Proof.
  intros Hc Hctx adv. unfold draw. rewrite Hc, Hctx.
  destruct (clear_fillPaths ctx
              (Plain (Rgba 0 0 0 (1 - trailLength (effects pr))))
              0 0 (INR (width canvas)) (INR (height canvas))) as [Hf0 Hs0].
  set (ctx0 := ctx |> Ctx.set_fillStyle _ |> Ctx.fillRect _ _ _ _) in *.
  clearbody ctx0.
  destruct (particlesRef w) as [| p0 rest] eqn:Hps.
  - cbn -[fillPaths strokePaths]. rewrite Hps, Hf0, Hs0. cbn.
    by rewrite !app_nil_r.
  - cbn [length Nat.eqb]. rewrite <- Hps.
    replace (S (length rest)) with (length (particlesRef w))
      by (by rewrite Hps).
    change (iteration pr (mousePositionRef w) (INR (width canvas))
                      (INR (height canvas)))
      with (iteration_with adv pr).
    pose proof (frame_loop_effect adv pr (particlesRef w) ctx0
                  (respects_advance _ _ _ _)) as (Hm & Hf & Hs).
    destruct (for_loop 0 _ _ _) as [ps' ctx']. cbn [fst snd] in *.
    cbn -[fillPaths strokePaths]. by rewrite Hf, Hs, Hf0, Hs0.
Qed.

(** The same frame, simulated first and rendered afterwards. *)
Lemma draw_two_phase_effect (pr : Props) (w : World) (canvas : Canvas)
  (ctx : Ctx.t) :
  canvasRef w = Some canvas -> context2d canvas = Some ctx ->
  let adv := advance (effects pr) (mousePositionRef w)
                     (INR (width canvas)) (INR (height canvas)) in
  motion <$> particlesRef (draw_two_phase pr w) =
    motion <$> (adv <$> particlesRef w) /\
  fillPaths (paintLog (draw_two_phase pr w)) =
    fillPaths (Ctx.painted ctx) ++
    (shapePath (effects pr) <$> (adv <$> particlesRef w)) /\
  strokePaths (paintLog (draw_two_phase pr w)) =
    strokePaths (Ctx.painted ctx) ++
    freshLines (connectionDistance (effects pr)) (adv <$> particlesRef w).
Proof.
  intros Hc Hctx adv. unfold draw_two_phase. rewrite Hc, Hctx.
  destruct (clear_fillPaths ctx
              (Plain (Rgba 0 0 0 (1 - trailLength (effects pr))))
              0 0 (INR (width canvas)) (INR (height canvas))) as [Hf0 Hs0].
  set (ctx0 := ctx |> Ctx.set_fillStyle _ |> Ctx.fillRect _ _ _ _) in *.
  clearbody ctx0.
  destruct (particlesRef w) as [| p0 rest] eqn:Hps.
  - cbn -[fillPaths strokePaths]. rewrite Hps, Hf0, Hs0. cbn.
    by rewrite !app_nil_r.
  - cbn [length Nat.eqb]. rewrite <- Hps. unfold simulate. fold adv.
    change (render_iteration pr) with (iteration_with (fun p => p) pr).
    pose proof (frame_loop_effect (fun p => p) pr (adv <$> particlesRef w)
                  ctx0 respects_id) as (Hm & Hf & Hs).
    rewrite list_fmap_id in Hm, Hf.
    destruct (for_loop 0 _ _ _) as [ps' ctx']. cbn [fst snd] in *.
    cbn -[fillPaths strokePaths]. by rewrite Hf, Hs, Hf0, Hs0.
Qed.

(** ** Frames without a drawing context *)

Lemma draw_no_context (pr : Props) (w : World) :
  canvasRef w ≫= context2d = None -> draw pr w = w.
Proof.
  unfold draw. destruct (canvasRef w) as [canvas |]; [| done].
  cbn. by intros ->.
Qed.

Lemma run_frame_idle (w : World) : rafQueue w = [] -> run_frame w = w.
Proof.
  unfold run_frame. intros Hq. rewrite Hq.
  destruct w. cbn in *. by subst.
Qed.

(** A completed frame requests the next one. *)
Lemma draw_requests_next (pr : Props) (w : World) (canvas : Canvas)
  (ctx : Ctx.t) :
  canvasRef w = Some canvas -> context2d canvas = Some ctx ->
  particlesRef w <> [] ->
  rafQueue (draw pr w) = rafQueue w ++ [(rafNext w, pr)].
Proof.
  intros Hc Hctx Hps. unfold draw. rewrite Hc, Hctx.
  destruct (particlesRef w) as [| p rest]; [done |].
  cbn [length Nat.eqb].
  by destruct (for_loop 0 _ _ _) as [ps' ctx'].
Qed.

(** The init effect on a mounted canvas requests a frame. *)
Lemma initEffect_requests (random : nat -> R) (pr : Props) (iw ih : nat)
  (w : World) (canvas : Canvas) :
  canvasRef w = Some canvas ->
  rafQueue (initEffect random pr iw ih w) = rafQueue w ++ [(rafNext w, pr)].
Proof.
  intros Hc. unfold initEffect. rewrite Hc.
  by destruct (Array_from _ _ _).
Qed.

(** C8, as the code has it: without a drawing context [draw] returns at
    once, so nothing is painted, no particle is advanced, and no next frame
    is requested either; a frame whose only callback is that [draw] leaves
    the request queue empty, and every later frame does nothing.  Frames
    are requested by a completed [draw] and by the init effect only. *)
Theorem draw_without_context_halts (pr : Props) (w : World) :
  canvasRef w ≫= context2d = None ->
  draw pr w = w /\
  particlesRef (draw pr w) = particlesRef w /\
  paintLog (draw pr w) = paintLog w /\
  rafQueue (draw pr w) = rafQueue w /\
  (forall handle : nat,
     rafQueue w = [(handle, pr)] ->
     run_frame w = set_rafQueue [] w /\
     rafQueue (run_frame w) = [] /\
     run_frame (run_frame w) = run_frame w) /\
  (forall (w' : World) (canvas : Canvas) (ctx : Ctx.t),
     canvasRef w' = Some canvas -> context2d canvas = Some ctx ->
     particlesRef w' <> [] ->
     rafQueue (draw pr w') = rafQueue w' ++ [(rafNext w', pr)]) /\
  (forall (random : nat -> R) (iw ih : nat) (w' : World) (canvas : Canvas),
     canvasRef w' = Some canvas ->
     rafQueue (initEffect random pr iw ih w') =
       rafQueue w' ++ [(rafNext w', pr)]).
Proof.
  intros Hno. pose proof (draw_no_context pr w Hno) as Hd.
  rewrite Hd. do 4 (split; [done |]). split; [| split].
  - intros handle Hq.
    assert (Hr : run_frame w = set_rafQueue [] w).
    { unfold run_frame. rewrite Hq. cbn. by apply draw_no_context. }
    rewrite Hr. split; [done |]. split; [done |].
    by apply run_frame_idle.
  - intros w' canvas ctx. apply draw_requests_next.
  - intros random iw ih w' canvas. apply initEffect_requests.
Qed.

Lemma draw_without_context_halts_witness :
  canvasRef blindWorld ≫= context2d = None /\
  draw initialProps blindWorld = blindWorld /\
  run_frame blindWorld = set_rafQueue [] blindWorld.
Proof.
  split; [reflexivity |].
  pose proof (draw_without_context_halts initialProps blindWorld eq_refl)
    as (Hd & _ & _ & _ & Hq & _ & _).
  split; [exact Hd |]. exact (proj1 (Hq 1%nat eq_refl)).
Defined.

(** C8, the counterexample: the one requested frame finds no context; after
    it the request queue is empty, and when the context is there again the
    next frame still moves no particle, because nothing was scheduled. *)
Lemma frame_without_context_not_retried :
  rafQueue (run_frame blindWorld) = [] /\
  run_frame (set_canvasRef (Some sampleCanvas) (run_frame blindWorld)) =
    set_canvasRef (Some sampleCanvas) (run_frame blindWorld) /\
  particlesRef
    (run_frame (set_canvasRef (Some sampleCanvas) (run_frame blindWorld))) =
    [leftParticle; rightParticle].
Proof. repeat split. Qed.

(** ** Creating particles *)

Lemma Array_from_S (random : nat -> R) (pr : Props) (iw ih : nat)
  (n k : nat) :
  Array_from (S n) (createParticle random pr iw ih) k =
    ((createParticle random pr iw ih k).1 ::
       (Array_from n (createParticle random pr iw ih) (k + 5)).1,
     (Array_from n (createParticle random pr iw ih) (k + 5)).2).
Proof.
  cbn [Array_from createParticle fst].
  by destruct (Array_from n _ (k + 5)).
Qed.

Lemma Array_from_createParticle (random : nat -> R) (pr : Props)
  (iw ih : nat) (n : nat) :
  forall k : nat,
  let created := Array_from n (createParticle random pr iw ih) k in
  length created.1 = n /\
  created.2 = (k + 5 * n)%nat /\
  forall i : nat, (i < n)%nat ->
    created.1 !! i = Some (createParticle random pr iw ih (k + 5 * i)).1.
Proof.
  induction n as [| n IH]; intros k.
  - cbn. split; [done |]. split; [lia |]. intros i Hi. lia.
  - cbv zeta. rewrite Array_from_S.
    destruct (IH (k + 5)%nat) as (Hlen & Hk & Hlook).
    cbn [fst snd]. split; [cbn; lia |]. split; [lia |].
    intros [| i] Hi.
    + cbn [lookup list_lookup]. by rewrite Nat.mul_0_r, Nat.add_0_r.
    + cbn [lookup list_lookup]. rewrite Hlook by lia.
      do 3 f_equal. lia.
Qed.

Lemma initCleanup_refs (w : World) :
  canvasRef (initCleanup w) = canvasRef w /\
  randomCalls (initCleanup w) = randomCalls w /\
  particlesRef (initCleanup w) = particlesRef w.
Proof. unfold initCleanup. by destruct (animationFrameRef w =? 0)%nat. Qed.

Lemma initEffect_particles (random : nat -> R) (pr : Props) (iw ih : nat)
  (w : World) (canvas : Canvas) :
  canvasRef w = Some canvas ->
  particlesRef (initEffect random pr iw ih w) =
    (Array_from (particleCount pr) (createParticle random pr iw ih)
                (randomCalls w)).1 /\
  canvasRef (initEffect random pr iw ih w) =
    Some (mkCanvas iw ih ((fun _ => Ctx.fresh) <$> context2d canvas)).
Proof.
  intros Hc. unfold initEffect. rewrite Hc.
  by destruct (Array_from _ _ _).
Qed.

Lemma draw_length (pr : Props) (w : World) :
  length (particlesRef (draw pr w)) = length (particlesRef w).
Proof.
  destruct (canvasRef w ≫= context2d) as [ctx |] eqn:Hctx.
  - destruct (canvasRef w) as [canvas |] eqn:Hc; [| done]. cbn in Hctx.
    pose proof (draw_effect pr w canvas ctx Hc Hctx) as (Hm & _).
    apply (f_equal length) in Hm. by rewrite !length_fmap in Hm.
  - by rewrite draw_no_context.
Qed.

(** C1, as the code has it: when the particle count changes on a mounted
    canvas, the init effect runs again and replaces the particle array by
    [particleCount] particles that [createParticle] makes afresh; the array
    then has the configured length, which [draw] keeps, and nothing of it
    depends on the particles that were there before. *)
Theorem rerunInit_replaces_particles (random : nat -> R) (pr : Props)
  (iw ih : nat) (w : World) (canvas : Canvas) :
  canvasRef w = Some canvas ->
  let w' := rerunInit random pr iw ih w in
  length (particlesRef w') = particleCount pr /\
  (forall pr' : Props,
     length (particlesRef (draw pr' w')) = particleCount pr) /\
  (forall i : nat, (i < particleCount pr)%nat ->
     particlesRef w' !! i =
       Some (createParticle random pr iw ih (randomCalls w + 5 * i)).1) /\
  (forall ps : list Particle,
     particlesRef (rerunInit random pr iw ih (set_particlesRef ps w)) =
       particlesRef w').
Proof.
  intros Hc w'.
  destruct (initCleanup_refs w) as (Hcc & Hrc & _).
  assert (Hps : particlesRef w' =
            (Array_from (particleCount pr) (createParticle random pr iw ih)
                        (randomCalls w)).1).
  { unfold w', rerunInit. rewrite <- Hrc.
    eapply initEffect_particles. by rewrite Hcc. }
  destruct (Array_from_createParticle random pr iw ih (particleCount pr)
              (randomCalls w)) as (Hlen & _ & Hlook).
  split; [by rewrite Hps |]. split; [| split].
  - intros pr'. by rewrite draw_length, Hps.
  - intros i Hi. rewrite Hps. by apply Hlook.
  - intros ps. rewrite Hps. unfold rerunInit.
    destruct (initCleanup_refs (set_particlesRef ps w)) as (Hcc' & Hrc' & _).
    rewrite (proj1 (initEffect_particles random pr iw ih _ canvas
                      (eq_trans Hcc' Hc))).
    by rewrite Hrc'.
Qed.

Lemma rerunInit_replaces_particles_witness :
  canvasRef crowdWorld = Some sampleCanvas /\
  length (particlesRef (rerunInit halves resizedProps 1000 1000 crowdWorld))
    = 150%nat.
Proof.
  split; [reflexivity |].
  exact (proj1 (rerunInit_replaces_particles halves resizedProps 1000 1000
                  crowdWorld sampleCanvas eq_refl)).
Defined.

Lemma INR_1000 : INR 1000 = 1000.
Proof. rewrite INR_IZR_INZ. reflexivity. Qed.

(** C1, the counterexample: a hundred particles at (100, 100), then the
    count is set to 150.  The array gets 150 entries, but already the first
    of them is a new particle at (500, 500): the state of the original
    hundred is gone. *)
Lemma resize_discards_particles :
  length (particlesRef crowdWorld) = 100%nat /\
  length (particlesRef (rerunInit halves resizedProps 1000 1000 crowdWorld))
    = 150%nat /\
  motion <$> take 100 (particlesRef
                         (rerunInit halves resizedProps 1000 1000 crowdWorld))
    <> motion <$> particlesRef crowdWorld.
Proof.
  split; [reflexivity |].
  destruct (Array_from_createParticle halves resizedProps 1000 1000 150 500)
    as (Hlen & _ & Hlook).
  assert (Hps : particlesRef
                  (rerunInit halves resizedProps 1000 1000 crowdWorld) =
            (Array_from 150 (createParticle halves resizedProps 1000 1000)
                        500).1).
  { apply (initEffect_particles halves resizedProps 1000 1000
             (initCleanup crowdWorld) sampleCanvas eq_refl). }
  rewrite Hps. split; [exact Hlen |].
  intros Heq. apply (f_equal (fun l => l !! 0%nat)) in Heq.
  rewrite !list_lookup_fmap, lookup_take_lt, (Hlook 0%nat) in Heq by lia.
  cbn -[INR] in Heq. rewrite INR_1000 in Heq.
  injection Heq as Hx _. unfold halves in Hx. lra.
Qed.

(** ** Boundary reflection *)

Lemma bounce_x_range (w : R) (p : Particle) :
  0 <= w -> 0 <= x (bounce_x w p) <= w /\ y (bounce_x w p) = y p.
Proof. intros Hw. unfold bounce_x. repeat case_Rltb; cbn; lra. Qed.

Lemma bounce_y_range (h : R) (p : Particle) :
  0 <= h -> 0 <= y (bounce_y h p) <= h /\ x (bounce_y h p) = x p.
Proof. intros Hh. unfold bounce_y. repeat case_Rltb; cbn; lra. Qed.

(** Where [advance] leaves a particle, wherever it started. *)
Lemma advance_in_bounds (e : Effects) (mouse : Pointer) (w h : R)
  (p : Particle) :
  0 <= w -> 0 <= h -> in_bounds w h (advance e mouse w h p).
Proof.
  intros Hw Hh. unfold advance, in_bounds.
  set (q := integrate _).
  destruct (bounce_y_range h (bounce_x w q) Hh) as [Hy Hx].
  destruct (bounce_x_range w q Hw) as [Hx' _].
  rewrite Hx. done.
Qed.

Lemma motion_in_bounds (w h : R) (p q : Particle) :
  motion p = motion q -> in_bounds w h q -> in_bounds w h p.
Proof.
  intros (Hx & Hy & _)%motion_fields. unfold in_bounds. by rewrite Hx, Hy.
Qed.

(** C2: the init effect makes the canvas as large as the window and creates
    every particle inside that rectangle; the kinematic step of a tick ends
    with each coordinate clamped into [0, width] and [0, height], whatever
    the position and velocity before; hence after a frame of [draw] every
    particle of the array lies within the canvas. *)
Theorem positions_stay_in_bounds (random : nat -> R) (pr : Props)
  (iw ih : nat) (w : World) (canvas : Canvas) (ctx : Ctx.t) :
  (forall n : nat, 0 <= random n < 1) ->
  canvasRef w = Some canvas -> context2d canvas = Some ctx ->
  let W := INR (width canvas) in
  let H := INR (height canvas) in
  let moved e mouse p :=
    integrate (speed_floor
      (match mouse with Some m => repel e m p | None => p end)) in
  (forall k : nat,
     in_bounds (INR iw) (INR ih) (createParticle random pr iw ih k).1) /\
  (canvasRef (initEffect random pr iw ih w) =
     Some (mkCanvas iw ih (Some Ctx.fresh)) /\
   Forall (in_bounds (INR iw) (INR ih))
          (particlesRef (initEffect random pr iw ih w))) /\
  (forall (e : Effects) (mouse : Pointer) (p : Particle),
     in_bounds W H (advance e mouse W H p) /\
     x (advance e mouse W H p) = Rmax 0 (Rmin W (x (moved e mouse p))) /\
     y (advance e mouse W H p) = Rmax 0 (Rmin H (y (moved e mouse p)))) /\
  Forall (in_bounds W H) (particlesRef (draw pr w)).
Proof.
  intros Hrnd Hc Hctx W H moved.
  assert (HW : 0 <= W) by apply pos_INR.
  assert (HH : 0 <= H) by apply pos_INR.
  assert (Hnew : forall k : nat,
            in_bounds (INR iw) (INR ih) (createParticle random pr iw ih k).1).
  { intros k. unfold in_bounds. cbn -[INR].
    pose proof (pos_INR iw). pose proof (pos_INR ih).
    pose proof (Hrnd k). pose proof (Hrnd (k + 1)%nat). nra. }
  split; [exact Hnew |]. split; [| split].
  - destruct (initEffect_particles random pr iw ih w canvas Hc) as [Hps Hcv].
    rewrite Hps, Hcv, Hctx. split; [done |].
    destruct (Array_from_createParticle random pr iw ih (particleCount pr)
                (randomCalls w)) as (Hlen & _ & Hlook).
    apply Forall_lookup. intros i p Hp.
    pose proof (lookup_lt_Some _ _ _ Hp) as Hi. rewrite Hlen in Hi.
    rewrite (Hlook i Hi) in Hp. injection Hp as <-. apply Hnew.
  - intros e mouse p. split; [by apply advance_in_bounds |].
    clearbody W H. unfold advance. fold (moved e mouse p).
    set (q := moved e mouse p). clearbody q.
    destruct (bounce_y_range H (bounce_x W q) HH) as [_ Hx].
    destruct (bounce_x_range W q HW) as [_ Hy].
    rewrite Hx. split.
    + unfold bounce_x, Rmax, Rmin.
      repeat case_Rltb; cbn; repeat destruct (Rle_dec _ _); lra.
    + unfold bounce_y. rewrite Hy. unfold Rmax, Rmin.
      repeat case_Rltb; cbn; repeat destruct (Rle_dec _ _); lra.
  - destruct (draw_effect pr w canvas ctx Hc Hctx) as (Hm & _).
    apply Forall_lookup. intros i p Hp.
    destruct (motion_lookup _ _ i p (eq_sym Hm) Hp) as (r & Hr & Hmr).
    rewrite list_lookup_fmap in Hr.
    destruct (particlesRef w !! i) as [r0 |]; [| done].
    injection Hr as <-.
    apply (motion_in_bounds _ _ _ _ (eq_sym Hmr)).
    by apply advance_in_bounds.
Qed.

Lemma positions_stay_in_bounds_witness :
  (forall n : nat, 0 <= halves n < 1) /\
  canvasRef pairWorld = Some sampleCanvas /\
  context2d sampleCanvas = Some Ctx.fresh /\
  Forall (in_bounds (INR 1000) (INR 1000))
         (particlesRef (draw initialProps pairWorld)).
Proof.
  assert (Hh : forall n : nat, 0 <= halves n < 1)
    by (intros n; unfold halves; lra).
  split; [exact Hh |]. split; [reflexivity |]. split; [reflexivity |].
  exact (proj2 (proj2 (proj2
    (positions_stay_in_bounds halves initialProps 1000 1000 pairWorld
       sampleCanvas Ctx.fresh Hh eq_refl eq_refl)))).
Defined.

(** ** Connection lines *)

Lemma drawLine_painted (pr : Props) (ctx : Ctx.t) (p1 p2 : Particle)
  (o : R) :
  Ctx.painted (drawLine pr ctx p1 p2 o).2 =
    Ctx.painted ctx ++
    [Stroke (strokeOf pr p1 p2 o) (dashOf pr) (lineWidth pr)
            (Ctx.shadowBlur ctx) (linePath p1 p2)].
Proof.
  unfold drawLine, strokeOf, dashOf.
  pose proof (getParticleColor_motion (effects pr) p1) as Hm1.
  pose proof (getParticleColor_motion (effects pr) p2) as Hm2.
  destruct (getParticleColor (effects pr) p1) as [q1 c1].
  destruct (getParticleColor (effects pr) p2) as [q2 c2].
  cbn [fst snd] in *.
  pose proof (motion_linePath _ _ _ _ Hm1 Hm2) as Hpath.
  unfold linePath in *.
  destruct (String.eqb (lineStyle (effects pr)) "gradient"),
    (String.eqb (lineStyle (effects pr)) "dashed"); cbn;
    rewrite ?Hpath; done.
Qed.

(** The inner loop body on a pair that is close enough. *)
Lemma connect_near (pr : Props) (ps : list Particle) (ctx : Ctx.t)
  (i j : nat) (p p2 : Particle) :
  ps !! i = Some p -> ps !! j = Some p2 ->
  distance p p2 < connectionDistance (effects pr) ->
  Ctx.painted (connect pr i j (ps, ctx)).2 =
    Ctx.painted ctx ++
    [Stroke (strokeOf pr p p2
               (opacity (distance p p2) (connectionDistance (effects pr))))
            (dashOf pr) (lineWidth pr) (Ctx.shadowBlur ctx) (linePath p p2)].
Proof.
  intros Hi Hj Hnear. unfold connect. rewrite Hi, Hj.
  fold (distance p p2). rewrite (Rltb_true _ _ Hnear).
  pose proof (drawLine_painted pr ctx p p2
    (opacity (distance p p2) (connectionDistance (effects pr)))) as Hpaint.
  by destruct (drawLine pr ctx p p2 _) as [[q q2] ctx'].
Qed.

Lemma connect_far (pr : Props) (ps : list Particle) (ctx : Ctx.t)
  (i j : nat) (p p2 : Particle) :
  ps !! i = Some p -> ps !! j = Some p2 ->
  connectionDistance (effects pr) <= distance p p2 ->
  connect pr i j (ps, ctx) = (ps, ctx).
Proof.
  intros Hi Hj Hfar. unfold connect. rewrite Hi, Hj.
  fold (distance p p2). by rewrite (Rltb_false _ _ Hfar).
Qed.

Lemma opacity_decreasing (cd d1 d2 : R) :
  0 < cd -> d1 <= d2 -> opacity d2 cd <= opacity d1 cd.
Proof.
  intros Hcd Hle. unfold opacity, Rdiv.
  pose proof (Rinv_0_lt_compat cd Hcd) as Hinv.
  assert (d1 * / cd <= d2 * / cd) by (apply Rmult_le_compat_r; lra).
  lra.
Qed.

(** In the gradient style the stroke is the gradient between the colours of
    the two particles, whatever the opacity. *)
Lemma strokeOf_gradient (pr : Props) (p1 p2 : Particle) (o : R) :
  lineStyle (effects pr) = "gradient"%string ->
  exists h1 s1 l1 h2 s2 l2 : R,
    strokeOf pr p1 p2 o =
      LinearGradient (x p1) (y p1) (x p2) (y p2)
                     [(0, Hsl h1 s1 l1); (1, Hsl h2 s2 l2)].
Proof.
  intros Hstyle. unfold strokeOf, getParticleColor.
  rewrite Hstyle. cbn [String.eqb Ascii.eqb Bool.eqb].
  destruct (String.eqb (colorMode (effects pr)) "rainbow"); cbn; eauto 10.
Qed.

Lemma opacity_at_0 (cd : R) : opacity 0 cd = 0.2.
Proof. unfold opacity, Rdiv. rewrite Rmult_0_l. lra. Qed.

Lemma opacity_at_threshold (cd : R) : cd <> 0 -> opacity cd cd = 0.
Proof. intros Hcd. unfold opacity. field. done. Qed.

(** C5, as the code has it: a pair [i], [j] that the inner loop examines
    gets a line exactly when the distance it measures is below
    [connectionDistance].  The opacity
    [0.2 * (1 - distance / connectionDistance)] is monotonically decreasing
    in the distance (a larger distance never gives a larger opacity), is 0
    at the threshold, and is largest, 0.2, at distance 0.  In the solid and
    dashed styles the line is stroked white with this opacity as its alpha,
    so it is not fully opaque at distance 0; in the gradient style the
    stroke is the gradient between the hsl colours of the two particles,
    which has no alpha, and the opacity is not used.  Over a frame the
    loops examine every pair [i < j] once, particle [i] already advanced
    and particle [j] not yet. *)
Theorem connection_rule (pr : Props) (ps : list Particle) (ctx : Ctx.t)
  (i j : nat) (p p2 : Particle) :
  ps !! i = Some p -> ps !! j = Some p2 ->
  let cd := connectionDistance (effects pr) in
  let d := distance p p2 in
  (d < cd ->
     Ctx.painted (connect pr i j (ps, ctx)).2 =
       Ctx.painted ctx ++
       [Stroke (strokeOf pr p p2 (opacity d cd)) (dashOf pr) (lineWidth pr)
               (Ctx.shadowBlur ctx) (linePath p p2)]) /\
  (cd <= d -> connect pr i j (ps, ctx) = (ps, ctx)) /\
  (lineStyle (effects pr) <> "gradient"%string ->
     strokeOf pr p p2 (opacity d cd) =
       Plain (Rgba 255 255 255 (0.2 * (1 - d / cd)))) /\
  (lineStyle (effects pr) = "gradient"%string ->
     forall o : R,
     exists h1 s1 l1 h2 s2 l2 : R,
       strokeOf pr p p2 o =
         LinearGradient (x p) (y p) (x p2) (y p2)
                        [(0, Hsl h1 s1 l1); (1, Hsl h2 s2 l2)]) /\
  (0 < cd ->
     forall d1 d2 : R, d1 <= d2 -> opacity d2 cd <= opacity d1 cd) /\
  (cd <> 0 -> opacity cd cd = 0) /\
  opacity 0 cd = 0.2 /\
  (0 < cd -> forall d' : R, 0 <= d' -> opacity d' cd <= 0.2) /\
  (forall (w : World) (canvas : Canvas) (ctx0 : Ctx.t),
     canvasRef w = Some canvas -> context2d canvas = Some ctx0 ->
     strokePaths (paintLog (draw pr w)) =
       strokePaths (Ctx.painted ctx0) ++
       staleLines (advance (effects pr) (mousePositionRef w)
                           (INR (width canvas)) (INR (height canvas)))
                  cd (particlesRef w)).
Proof.
  intros Hi Hj cd d.
  split; [| split; [| split; [| split; [| split; [| split; [| split;
    [| split]]]]]]].
  - intros Hnear. exact (connect_near pr ps ctx i j p p2 Hi Hj Hnear).
  - intros Hfar. exact (connect_far pr ps ctx i j p p2 Hi Hj Hfar).
  - intros Hne. apply String.eqb_neq in Hne.
    unfold strokeOf. by rewrite Hne.
  - intros Hstyle o. exact (strokeOf_gradient pr p p2 o Hstyle).
  - intros Hcd d1 d2. by apply opacity_decreasing.
  - apply opacity_at_threshold.
  - apply opacity_at_0.
  - intros Hcd d' Hd'. rewrite <- (opacity_at_0 cd).
    by apply opacity_decreasing.
  - intros w canvas ctx0 Hc Hctx.
    apply (draw_effect pr w canvas ctx0 Hc Hctx).
Qed.

Lemma distance_left_right : distance leftParticle rightParticle = 201.5.
Proof.
  unfold distance. cbn.
  replace ((100 - 301.5) * (100 - 301.5) + (100 - 100) * (100 - 100))
    with (201.5 * 201.5) by lra.
  apply sqrt_square. lra.
Qed.

Lemma connection_rule_witness :
  [leftParticle; rightParticle] !! 0%nat = Some leftParticle /\
  [leftParticle; rightParticle] !! 1%nat = Some rightParticle /\
  connect initialProps 0 1 ([leftParticle; rightParticle], Ctx.fresh) =
    ([leftParticle; rightParticle], Ctx.fresh).
Proof.
  split; [reflexivity |]. split; [reflexivity |].
  apply (connection_rule initialProps [leftParticle; rightParticle]
           Ctx.fresh 0 1 leftParticle rightParticle eq_refl eq_refl).
  rewrite distance_left_right. cbn. lra.
Defined.

(** C5, the counterexample: two particles at the same place.  Their line is
    painted white at opacity 0.2, not fully opaque. *)
Lemma coincident_line_not_opaque :
  Ctx.painted
    (connect initialProps 0 1 ([leftParticle; leftParticle], Ctx.fresh)).2 =
    [Stroke (Plain (Rgba 255 255 255 0.2)) [] 2 0
            [MoveTo 100 100; LineTo 100 100]] /\
  0.2 <> 1.
Proof.
  assert (Hd : distance leftParticle leftParticle = 0).
  { unfold distance. cbn.
    replace ((100 - 100) * (100 - 100) + (100 - 100) * (100 - 100))
      with 0 by lra.
    apply sqrt_0. }
  split; [| lra].
  rewrite (connect_near initialProps [leftParticle; leftParticle] Ctx.fresh
             0 1 leftParticle leftParticle eq_refl eq_refl)
    by (rewrite Hd; cbn; lra).
  rewrite Hd, opacity_at_0. reflexivity.
Qed.

(** ** The fused loop against simulate-then-render *)

(** C7, as the code has it: the fused loop leaves the particles with the
    motion the simulation pass gives them and fills the same shapes at the
    same places as simulate-then-render; its connection lines, however, run
    from each advanced particle to the later particles at the places they
    had before this frame advanced them, whereas simulate-then-render
    connects the advanced particles among themselves. *)
Theorem draw_fused_against_two_phase (pr : Props) (w : World)
  (canvas : Canvas) (ctx : Ctx.t) :
  canvasRef w = Some canvas -> context2d canvas = Some ctx ->
  let W := INR (width canvas) in
  let H := INR (height canvas) in
  let adv := advance (effects pr) (mousePositionRef w) W H in
  let cd := connectionDistance (effects pr) in
  motion <$> particlesRef (draw pr w) =
    motion <$> simulate pr (mousePositionRef w) W H (particlesRef w) /\
  motion <$> particlesRef (draw pr w) =
    motion <$> particlesRef (draw_two_phase pr w) /\
  fillPaths (paintLog (draw pr w)) =
    fillPaths (paintLog (draw_two_phase pr w)) /\
  strokePaths (paintLog (draw pr w)) =
    strokePaths (Ctx.painted ctx) ++ staleLines adv cd (particlesRef w) /\
  strokePaths (paintLog (draw_two_phase pr w)) =
    strokePaths (Ctx.painted ctx) ++
    freshLines cd (simulate pr (mousePositionRef w) W H (particlesRef w)).
Proof.
  intros Hc Hctx W H adv cd.
  destruct (draw_effect pr w canvas ctx Hc Hctx) as (Hm & Hf & Hs).
  destruct (draw_two_phase_effect pr w canvas ctx Hc Hctx)
    as (Hm2 & Hf2 & Hs2).
  unfold simulate. fold W H adv cd in Hm, Hf, Hs, Hm2, Hf2, Hs2 |- *.
  repeat split; congruence.
Qed.

Lemma advance_leftParticle :
  advance initialEffects None (INR 1000) (INR 1000) leftParticle =
    mkParticle 101 100 1 0 2 0 0 100.
Proof.
  rewrite INR_1000. unfold advance, leftParticle.
  assert (Hfloor : speed_floor (mkParticle 100 100 1 0 2 0 0 100) =
                   mkParticle 100 100 1 0 2 0 0 100).
  { unfold speed_floor, baseSpeed. cbn.
    rewrite Rltb_false; [done |]. apply sqrt_ge_bound; lra. }
  rewrite Hfloor. unfold integrate. cbn.
  unfold bounce_x. cbn. eval_Rltb.
  unfold bounce_y. cbn. eval_Rltb.
  unfold set_x, set_y. cbn. f_equal; lra.
Qed.

Lemma advance_rightParticle :
  advance initialEffects None (INR 1000) (INR 1000) rightParticle =
    mkParticle 300.5 100 (-1) 0 2 0 0 100.
Proof.
  rewrite INR_1000. unfold advance, rightParticle.
  assert (Hfloor : speed_floor (mkParticle 301.5 100 (-1) 0 2 0 0 100) =
                   mkParticle 301.5 100 (-1) 0 2 0 0 100).
  { unfold speed_floor, baseSpeed. cbn.
    rewrite Rltb_false; [done |]. apply sqrt_ge_bound; lra. }
  rewrite Hfloor. unfold integrate. cbn.
  unfold bounce_x. cbn. eval_Rltb.
  unfold bounce_y. cbn. eval_Rltb.
  unfold set_x, set_y. cbn. f_equal; lra.
Qed.

Lemma draw_fused_against_two_phase_witness :
  canvasRef pairWorld = Some sampleCanvas /\
  context2d sampleCanvas = Some Ctx.fresh /\
  fillPaths (paintLog (draw initialProps pairWorld)) =
    fillPaths (paintLog (draw_two_phase initialProps pairWorld)).
Proof.
  split; [reflexivity |]. split; [reflexivity |].
  exact (proj1 (proj2 (proj2
    (draw_fused_against_two_phase initialProps pairWorld sampleCanvas
       Ctx.fresh eq_refl eq_refl)))).
Defined.

(** C7, the counterexample: two particles 201.5 apart move towards each
    other at speed 1, the connection distance is 200.  The fused loop
    measures 200.5 from the advanced left particle to the right particle
    that has not moved yet and strokes no line; simulate-then-render
    measures 199.5 and strokes one.  The two frames differ. *)
Lemma fused_frame_differs :
  strokePaths (paintLog (draw initialProps pairWorld)) = [] /\
  strokePaths (paintLog (draw_two_phase initialProps pairWorld)) =
    [[MoveTo 101 100; LineTo 300.5 100]] /\
  paintLog (draw initialProps pairWorld) <>
    paintLog (draw_two_phase initialProps pairWorld).
Proof.
  destruct (draw_effect initialProps pairWorld sampleCanvas Ctx.fresh
              eq_refl eq_refl) as (_ & _ & Hs).
  destruct (draw_two_phase_effect initialProps pairWorld sampleCanvas
              Ctx.fresh eq_refl eq_refl) as (_ & _ & Hs2).
  assert (Hfused : strokePaths (paintLog (draw initialProps pairWorld)) = []).
  { rewrite Hs.
    change (particlesRef pairWorld) with [leftParticle; rightParticle].
    change (effects initialProps) with initialEffects.
    change (mousePositionRef pairWorld) with (@None (R * R)).
    change (width sampleCanvas) with 1000%nat.
    change (height sampleCanvas) with 1000%nat.
    cbn [staleLines linesFrom flat_map Ctx.painted Ctx.fresh strokePaths
         app].
    rewrite advance_leftParticle. unfold distance. cbn.
    rewrite Rltb_false; [done |].
    apply sqrt_ge_bound; lra. }
  assert (Htwo : strokePaths
                   (paintLog (draw_two_phase initialProps pairWorld)) =
                 [[MoveTo 101 100; LineTo 300.5 100]]).
  { rewrite Hs2.
    change (particlesRef pairWorld) with [leftParticle; rightParticle].
    change (effects initialProps) with initialEffects.
    change (mousePositionRef pairWorld) with (@None (R * R)).
    change (width sampleCanvas) with 1000%nat.
    change (height sampleCanvas) with 1000%nat.
    cbn [fmap list_fmap]. rewrite advance_leftParticle, advance_rightParticle.
    unfold freshLines. cbn. unfold distance. cbn.
    rewrite Rltb_true; [done |].
    apply sqrt_lt_bound; lra. }
  split; [exact Hfused |]. split; [exact Htwo |].
  intros Heq. rewrite Heq, Htwo in Hfused. discriminate Hfused.
Qed.

(** * Further properties of the code *)

(** ** Speed through a tick *)

Lemma Rabs_square (a : R) : Rabs a * Rabs a = a * a.
Proof.
  unfold Rabs. destruct (Rcase_abs a); lra.
Qed.

Lemma speed_bounce_x (w : R) (p : Particle) :
  speed (bounce_x w p) = speed p.
Proof.
  unfold bounce_x, speed. repeat case_Rltb; cbn; try done.
  - by rewrite Rabs_square.
  - replace (- Rabs (vx p) * - Rabs (vx p)) with (Rabs (vx p) * Rabs (vx p))
      by lra.
    by rewrite Rabs_square.
Qed.

Lemma speed_bounce_y (h : R) (p : Particle) :
  speed (bounce_y h p) = speed p.
Proof.
  unfold bounce_y, speed. repeat case_Rltb; cbn; try done.
  - by rewrite Rabs_square.
  - replace (- Rabs (vy p) * - Rabs (vy p)) with (Rabs (vy p) * Rabs (vy p))
      by lra.
    by rewrite Rabs_square.
Qed.

(** X1: the wall bounce keeps the speed of a particle ("energy
    preservation"), and it turns the velocity inward: a particle put back
    on the left or top wall moves right or down afterwards, one put back on
    the right or bottom wall moves left or up; a particle inside the canvas
    is not touched. *)
Theorem bounce_elastic_inward (w h : R) (p : Particle) :
  speed (bounce_y h (bounce_x w p)) = speed p /\
  (x p < 0 -> x (bounce_x w p) = 0 /\ vx (bounce_x w p) = Rabs (vx p) /\
              0 <= vx (bounce_x w p)) /\
  (0 <= x p -> w < x p ->
     x (bounce_x w p) = w /\ vx (bounce_x w p) = - Rabs (vx p) /\
     vx (bounce_x w p) <= 0) /\
  (y p < 0 -> y (bounce_y h p) = 0 /\ vy (bounce_y h p) = Rabs (vy p) /\
              0 <= vy (bounce_y h p)) /\
  (0 <= y p -> h < y p ->
     y (bounce_y h p) = h /\ vy (bounce_y h p) = - Rabs (vy p) /\
     vy (bounce_y h p) <= 0) /\
  (0 <= x p <= w -> 0 <= y p <= h -> bounce_y h (bounce_x w p) = p) /\
  vy (bounce_x w p) = vy p /\ vx (bounce_y h p) = vx p.
Proof.
  split; [by rewrite speed_bounce_y, speed_bounce_x |].
  pose proof (Rabs_pos (vx p)). pose proof (Rabs_pos (vy p)).
  unfold bounce_x, bounce_y.
  repeat split; intros; repeat case_Rltb; cbn; try lra; try done.
  all: repeat case_Rltb; cbn; try lra; done.
Qed.

Section TickRounding.

Variables (u eta eps : R) (A : Machine.Arith R).
Hypothesis Hacc : Machine.accurate u eta eps A.
Hypothesis Hu : 0 <= u.
Hypothesis Heta : 0 <= eta.
Hypothesis Heps : 0 <= eps.
Hypothesis Hsmall : u + eta + eps <= 1 / 100.

(** After the speed floor the measured speed is at least [baseSpeed] up to
    rounding, whether the velocity was reset or not. *)
Lemma speed_floor_measured (p : Machine.Body R) :
  Machine.baseSpeed A - 8 * (u + eta + eps) <=
    Machine.speed A (Machine.speed_floor A p).
Proof.
  unfold Machine.speed_floor. fold (Machine.speed A p).
  rewrite (Machine.acc_lt _ _ _ _ Hacc).
  set (t := Machine.Math_atan2 A (Machine.vy p) (Machine.vx p)).
  destruct (reset_velocity u eta eps A Hacc Hu Heta Heps Hsmall t)
    as (_ & _ & _ & Hmeasured).
  apply Rabs_within in Hmeasured.
  unfold Machine.baseSpeed in *. rewrite (Machine.acc_one _ _ _ _ Hacc) in *.
  case_Rltb; [unfold Machine.speed; cbn |]; lra.
Qed.

(** Rounding a square does not depend on the sign. *)
Lemma mul_same_magnitude (a b : R) :
  Rabs a = Rabs b -> Machine.mul A a a = Machine.mul A b b.
Proof.
  intros H. assert (Hab : a = b \/ a = - b).
  { unfold Rabs in H.
    destruct (Rcase_abs a), (Rcase_abs b); [left | right | right | left];
      lra. }
  destruct Hab as [-> | ->]; [done |].
  apply (Machine.acc_mul_opp _ _ _ _ Hacc).
Qed.

Lemma speed_same_magnitude (p q : Machine.Body R) :
  Rabs (Machine.vx p) = Rabs (Machine.vx q) ->
  Rabs (Machine.vy p) = Rabs (Machine.vy q) ->
  Machine.speed A p = Machine.speed A q.
Proof.
  intros Hx Hy. unfold Machine.speed.
  by rewrite (mul_same_magnitude _ _ Hx), (mul_same_magnitude _ _ Hy).
Qed.

(** The position update and the wall bounce keep the magnitude of both
    velocity components. *)
Lemma bounce_magnitude (w h : R) (p : Machine.Body R) :
  let q := Machine.bounce_y A h (Machine.bounce_x A w
             (Machine.integrate A p)) in
  Rabs (Machine.vx q) = Rabs (Machine.vx p) /\
  Rabs (Machine.vy q) = Rabs (Machine.vy p).
Proof.
  unfold Machine.bounce_y, Machine.bounce_x, Machine.integrate.
  rewrite !(Machine.acc_lt _ _ _ _ Hacc), !(Machine.acc_abs _ _ _ _ Hacc),
    !(Machine.acc_opp _ _ _ _ Hacc).
  cbn. destruct (Rltb _ _); [| destruct (Rltb _ _)]; cbn;
    (destruct (Rltb _ _); [| destruct (Rltb _ _)]); cbn;
    by rewrite ?Rabs_Ropp, ?Rabs_Rabsolu.
Qed.

End TickRounding.

(** X2: the speed the loop measures, through a tick of [Visualizer.tsx]
    in an arithmetic that is accurate up to [u], [eta] and [eps].  The
    position update and the wall bounce keep the magnitude of both velocity
    components, so at the end of a tick the measured speed is the one after
    the speed floor, which is at least [baseSpeed - 8 (u + eta + eps)]; and
    a particle whose measured speed is at least [baseSpeed] keeps the
    magnitudes of its velocity components, and with them its measured
    speed, over any number of ticks. *)
Theorem speed_after_tick (u eta eps : R) (A : Machine.Arith R) (w h : R)
  (p : Machine.Body R) :
  Machine.accurate u eta eps A ->
  0 <= u -> 0 <= eta -> 0 <= eps -> u + eta + eps <= 1 / 100 ->
  let q := Machine.tick A w h p in
  Rabs (Machine.vx q) = Rabs (Machine.vx (Machine.speed_floor A p)) /\
  Rabs (Machine.vy q) = Rabs (Machine.vy (Machine.speed_floor A p)) /\
  Machine.speed A q = Machine.speed A (Machine.speed_floor A p) /\
  Machine.baseSpeed A - 8 * (u + eta + eps) <= Machine.speed A q /\
  (Machine.baseSpeed A <= Machine.speed A p ->
   forall n : nat,
     let r := Nat.iter n (Machine.tick A w h) p in
     Rabs (Machine.vx r) = Rabs (Machine.vx p) /\
     Rabs (Machine.vy r) = Rabs (Machine.vy p) /\
     Machine.speed A r = Machine.speed A p).
Proof.
  intros Hacc Hu Heta Heps Hsmall q.
  assert (Htick : forall b,
            Rabs (Machine.vx (Machine.tick A w h b)) =
              Rabs (Machine.vx (Machine.speed_floor A b)) /\
            Rabs (Machine.vy (Machine.tick A w h b)) =
              Rabs (Machine.vy (Machine.speed_floor A b))).
  { intros b. exact (bounce_magnitude u eta eps A Hacc w h _). }
  destruct (Htick p) as [Hx Hy].
  pose proof (speed_same_magnitude u eta eps A Hacc _ _ Hx Hy) as Hspeed.
  split; [exact Hx |]. split; [exact Hy |]. split; [exact Hspeed |]. split.
  - subst q. rewrite Hspeed.
    exact (speed_floor_measured u eta eps A Hacc Hu Heta Heps Hsmall p).
  - intros Hfast n. induction n as [| n (IHx & IHy & IHs)]; [done |].
    cbn [Nat.iter]. set (r := Nat.iter n (Machine.tick A w h) p) in *.
    assert (Hkeep : Machine.speed_floor A r = r).
    { unfold Machine.speed_floor. fold (Machine.speed A r).
      rewrite (Machine.acc_lt _ _ _ _ Hacc), IHs.
      by rewrite Rltb_false. }
    destruct (Htick r) as [Hrx Hry]. rewrite Hkeep in Hrx, Hry.
    assert (Hx' : Rabs (Machine.vx (Machine.tick A w h r)) =
                  Rabs (Machine.vx p)) by congruence.
    assert (Hy' : Rabs (Machine.vy (Machine.tick A w h r)) =
                  Rabs (Machine.vy p)) by congruence.
    split; [exact Hx' |]. split; [exact Hy' |].
    exact (speed_same_magnitude u eta eps A Hacc _ _ Hx' Hy').
Qed.

Lemma speed_after_tick_witness :
  Machine.accurate (/ 1024) 0 0 Machine.chopping /\
  Machine.baseSpeed Machine.chopping - 8 * (/ 1024 + 0 + 0) <=
    Machine.speed Machine.chopping
      (Machine.tick Machine.chopping 1000 1000 (body slowParticle)).
Proof.
  split; [exact chopping_accurate |].
  exact (proj1 (proj2 (proj2 (proj2
    (speed_after_tick (/ 1024) 0 0 Machine.chopping 1000 1000
       (body slowParticle) chopping_accurate
       ltac:(lra) ltac:(lra) ltac:(lra) ltac:(lra)))))).
Defined.

(** ** Invariants of a frame *)

Lemma opacity_of_drawn_line (d cd : R) :
  0 <= d -> d < cd -> 0 < opacity d cd <= 0.2.
Proof.
  intros Hd Hlt. unfold opacity.
  destruct (Rdiv_bounds d cd 0 1) as [Hlo Hhi]; lra.
Qed.

Section FrameInvariant.

Variable pr : Props.
Variable f : Particle -> Particle.
Variable P : Particle -> Prop.
Variable I : Ctx.t -> Prop.
Variable Q : Paint -> Prop.

Hypothesis f_keeps : forall p, P p -> P (f p).

Hypothesis drawParticle_keeps : forall ctx p, I ctx -> P p ->
  P (drawParticle (effects pr) ctx p).1 /\
  I (drawParticle (effects pr) ctx p).2 /\
  appends Q ctx (drawParticle (effects pr) ctx p).2.

Hypothesis drawLine_keeps : forall ctx p1 p2 o,
  I ctx -> P p1 -> P p2 -> 0 < o <= 0.2 ->
  P (drawLine pr ctx p1 p2 o).1.1 /\
  P (drawLine pr ctx p1 p2 o).1.2 /\
  I (drawLine pr ctx p1 p2 o).2 /\
  appends Q ctx (drawLine pr ctx p1 p2 o).2.

Lemma appends_refl (ctx : Ctx.t) : appends Q ctx ctx.
Proof. exists []. by rewrite app_nil_r. Qed.

Lemma appends_trans (c1 c2 c3 : Ctx.t) :
  appends Q c1 c2 -> appends Q c2 c3 -> appends Q c1 c3.
Proof.
  intros (a1 & H1 & HQ1) (a2 & H2 & HQ2). exists (a1 ++ a2). split.
  - by rewrite H2, H1, <- app_assoc.
  - by apply Forall_app.
Qed.

Lemma connect_keeps (ctx0 : Ctx.t) (i j : nat) (st : Store) :
  store_ok P I Q ctx0 st -> store_ok P I Q ctx0 (connect pr i j st).
Proof.
  destruct st as [ps ctx]. intros (HP & HI & Happ). unfold connect.
  destruct (ps !! i) as [p |] eqn:Hi; [| done].
  destruct (ps !! j) as [p2 |] eqn:Hj; [| done].
  case_Rltb; [| done].
  pose proof (proj1 (Forall_lookup _ _) HP i p Hi) as Hp.
  pose proof (proj1 (Forall_lookup _ _) HP j p2 Hj) as Hp2.
  set (d := sqrt _) in *.
  assert (Ho : 0 < opacity d (connectionDistance (effects pr)) <= 0.2).
  { apply opacity_of_drawn_line; [apply sqrt_pos | done]. }
  destruct (drawLine_keeps ctx p p2 _ HI Hp Hp2 Ho) as (H1 & H2 & H3 & H4).
  destruct (drawLine pr ctx p p2 _) as [[q q2] ctx']. cbn [fst snd] in *.
  split; [| split].
  - apply Forall_insert; [| done]. by apply Forall_insert.
  - done.
  - by apply (appends_trans _ ctx).
Qed.

Lemma iteration_with_keeps (ctx0 : Ctx.t) (i : nat) (st : Store) :
  store_ok P I Q ctx0 st ->
  store_ok P I Q ctx0 (iteration_with f pr i st).
Proof.
  destruct st as [ps ctx]. intros (HP & HI & Happ). unfold iteration_with.
  destruct (ps !! i) as [p |] eqn:Hi; [| done].
  pose proof (proj1 (Forall_lookup _ _) HP i p Hi) as Hp.
  destruct (drawParticle_keeps ctx (f p) HI (f_keeps p Hp))
    as (H1 & H2 & H3).
  destruct (drawParticle (effects pr) ctx (f p)) as [q ctx1].
  cbn [fst snd] in *.
  replace (i + 1)%nat with (0 + (i + 1))%nat at 1 by lia.
  set (n := (length (<[i:=q]> ps) - (i + 1))%nat).
  apply (for_loop_invariant (fun _ st => store_ok P I Q ctx0 st)).
  - split; [by apply Forall_insert |]. split; [done |].
    by apply (appends_trans _ ctx).
  - intros j st' _. apply connect_keeps.
Qed.

Lemma frame_loop_keeps (ctx0 : Ctx.t) (ps : list Particle) :
  Forall P ps -> I ctx0 ->
  store_ok P I Q ctx0
           (for_loop 0 (length ps) (iteration_with f pr) (ps, ctx0)).
Proof.
  intros HP HI.
  apply (for_loop_invariant (fun _ st => store_ok P I Q ctx0 st)
           (iteration_with f pr) (length ps) 0).
  - split; [done |]. split; [done |]. apply appends_refl.
  - intros i st' _. apply iteration_with_keeps.
Qed.

End FrameInvariant.

(** What a frame of [draw] keeps: a property [P] of the particles that the
    kinematic step and the colour resolution keep, a property [I] of the
    context that the painting functions keep, and a property [Q] of what
    they paint.  The frame appends the fade rectangle and then paints
    satisfying [Q]. *)
Lemma draw_keeps (pr : Props) (P : Particle -> Prop) (I : Ctx.t -> Prop)
  (Q : Paint -> Prop) (w : World) (canvas : Canvas) (ctx : Ctx.t) :
  (forall e mouse W H p, P p -> P (advance e mouse W H p)) ->
  (forall c px py W H ctx1,
     I ctx1 -> I (ctx1 |> Ctx.set_fillStyle c |> Ctx.fillRect px py W H)) ->
  (forall ctx1 p, I ctx1 -> P p ->
     P (drawParticle (effects pr) ctx1 p).1 /\
     I (drawParticle (effects pr) ctx1 p).2 /\
     appends Q ctx1 (drawParticle (effects pr) ctx1 p).2) ->
  (forall ctx1 p1 p2 o, I ctx1 -> P p1 -> P p2 -> 0 < o <= 0.2 ->
     P (drawLine pr ctx1 p1 p2 o).1.1 /\
     P (drawLine pr ctx1 p1 p2 o).1.2 /\
     I (drawLine pr ctx1 p1 p2 o).2 /\
     appends Q ctx1 (drawLine pr ctx1 p1 p2 o).2) ->
  canvasRef w = Some canvas -> context2d canvas = Some ctx ->
  Forall P (particlesRef w) -> I ctx ->
  Forall P (particlesRef (draw pr w)) /\
  exists ctx' added,
    canvasRef (draw pr w) =
      Some (mkCanvas (width canvas) (height canvas) (Some ctx')) /\
    I ctx' /\
    Ctx.painted ctx' =
      Ctx.painted ctx ++
      FillRect (Plain (Rgba 0 0 0 (1 - trailLength (effects pr))))
               (Ctx.shadowBlur ctx) 0 0
               (INR (width canvas)) (INR (height canvas)) :: added /\
    Forall Q added.
Proof.
  intros Hadv Hclear Hpart Hline Hc Hctx HP HI. unfold draw.
  rewrite Hc, Hctx.
  set (fade := Plain (Rgba 0 0 0 (1 - trailLength (effects pr)))).
  set (W := INR (width canvas)). set (H := INR (height canvas)).
  pose proof (Hclear fade 0 0 W H ctx HI) as HI0.
  assert (Hp0 : Ctx.painted (ctx |> Ctx.set_fillStyle fade
                                 |> Ctx.fillRect 0 0 W H) =
                Ctx.painted ctx ++
                [FillRect fade (Ctx.shadowBlur ctx) 0 0 W H]) by done.
  set (ctx0 := ctx |> Ctx.set_fillStyle fade |> Ctx.fillRect 0 0 W H) in *.
  clearbody ctx0.
  destruct (particlesRef w) as [| p0 rest] eqn:Hps.
  - cbn. rewrite Hps. split; [done |].
    exists ctx0, []. by rewrite Hp0.
  - cbn [length Nat.eqb]. rewrite <- Hps in *.
    replace (S (length rest)) with (length (particlesRef w))
      by (by rewrite Hps).
    change (iteration pr (mousePositionRef w) W H)
      with (iteration_with (advance (effects pr) (mousePositionRef w) W H)
              pr).
    pose proof (frame_loop_keeps pr _ P I Q
                  (Hadv (effects pr) (mousePositionRef w) W H) Hpart Hline
                  ctx0 (particlesRef w) HP HI0) as (HP' & HI' & Happ).
    destruct (for_loop 0 _ _ _) as [ps' ctx']. cbn [fst snd] in *.
    split; [done |].
    destruct Happ as (added & Hadd & HQ).
    exists ctx', added. cbn. split; [done |]. split; [done |].
    split; [| done]. by rewrite Hadd, Hp0, <- app_assoc.
Qed.

(** ** Shadows and line styles of a frame *)

Lemma appends_one (Q : Paint -> Prop) (ctx ctx' : Ctx.t) (op : Paint) :
  Ctx.painted ctx' = Ctx.painted ctx ++ [op] -> Q op -> appends Q ctx ctx'.
Proof.
  intros Hp HQ. exists [op]. split; [done |]. by apply Forall_singleton.
Qed.

Lemma drawParticle_shadow (pr : Props) (ctx : Ctx.t) (p : Particle) :
  Ctx.shadowBlur ctx = 0 ->
  True /\
  Ctx.shadowBlur (drawParticle (effects pr) ctx p).2 = 0 /\
  appends (shadowOK pr) ctx (drawParticle (effects pr) ctx p).2.
Proof.
  intros Hblur. split; [done |].
  unfold drawParticle.
  destruct (getParticleColor (effects pr) p) as [q color].
  destruct (glowEffect (effects pr)) eqn:Hglow,
    (String.eqb (particleShape (effects pr)) "square"),
    (String.eqb (particleShape (effects pr)) "triangle");
    (split; [done |]);
    (eapply appends_one; [reflexivity |]); cbn; by rewrite Hglow.
Qed.

Lemma drawLine_shadow (pr : Props) (ctx : Ctx.t) (p1 p2 : Particle)
  (o : R) :
  Ctx.shadowBlur ctx = 0 ->
  True /\ True /\
  Ctx.shadowBlur (drawLine pr ctx p1 p2 o).2 = 0 /\
  appends (shadowOK pr) ctx (drawLine pr ctx p1 p2 o).2.
Proof.
  intros Hblur. do 2 (split; [done |]). split.
  - unfold drawLine.
    destruct (getParticleColor (effects pr) p1) as [q1 c1].
    destruct (getParticleColor (effects pr) p2) as [q2 c2].
    by destruct (String.eqb (lineStyle (effects pr)) "gradient"),
      (String.eqb (lineStyle (effects pr)) "dashed").
  - eapply appends_one; [apply drawLine_painted |]. done.
Qed.

(** X3: the glow does not leak.  On a context whose shadow blur is 0 (as
    the init effect leaves it), a frame paints the fade rectangle and every
    connection line without shadow and, when the glow is on, every particle
    shape with blur [glowIntensity * 20] in the shape's own colour; the
    frame ends with the shadow blur back at 0, so the same holds for the
    next one. *)
Theorem glow_never_leaks (pr : Props) (w : World) (canvas : Canvas)
  (ctx : Ctx.t) :
  canvasRef w = Some canvas -> context2d canvas = Some ctx ->
  Ctx.shadowBlur ctx = 0 ->
  exists ctx' added,
    canvasRef (draw pr w) =
      Some (mkCanvas (width canvas) (height canvas) (Some ctx')) /\
    Ctx.shadowBlur ctx' = 0 /\
    Ctx.painted ctx' =
      Ctx.painted ctx ++
      FillRect (Plain (Rgba 0 0 0 (1 - trailLength (effects pr)))) 0 0 0
               (INR (width canvas)) (INR (height canvas)) :: added /\
    Forall (shadowOK pr) added.
Proof.
  intros Hc Hctx Hblur.
  destruct (draw_keeps pr (fun _ => True) (fun c => Ctx.shadowBlur c = 0)
              (shadowOK pr) w canvas ctx) as (_ & ctx' & added & H);
    try done.
  - intros ctx1 p H1 _. by apply drawParticle_shadow.
  - intros ctx1 p1 p2 o H1 _ _ _. by apply drawLine_shadow.
  - by apply Forall_true.
  - exists ctx', added. by rewrite Hblur in H.
Qed.

Lemma glow_never_leaks_witness :
  canvasRef pairWorld = Some sampleCanvas /\
  context2d sampleCanvas = Some Ctx.fresh /\
  Ctx.shadowBlur Ctx.fresh = 0 /\
  exists ctx' added,
    canvasRef (draw initialProps pairWorld) =
      Some (mkCanvas 1000 1000 (Some ctx')) /\
    Ctx.shadowBlur ctx' = 0 /\
    Ctx.painted ctx' =
      Ctx.painted Ctx.fresh ++
      FillRect (Plain (Rgba 0 0 0 (1 - trailLength initialEffects))) 0 0 0
               (INR 1000) (INR 1000) :: added /\
    Forall (shadowOK initialProps) added.
Proof.
  split; [reflexivity |]. split; [reflexivity |]. split; [reflexivity |].
  exact (glow_never_leaks initialProps pairWorld sampleCanvas Ctx.fresh
           eq_refl eq_refl eq_refl).
Defined.

Lemma drawLine_lineOK (pr : Props) (ctx : Ctx.t) (p1 p2 : Particle)
  (o : R) :
  0 < o <= 0.2 ->
  appends (lineOK pr) ctx (drawLine pr ctx p1 p2 o).2.
Proof.
  intros Ho. eapply appends_one; [apply drawLine_painted |].
  cbn. split; [done |]. split; [done |]. split.
  - unfold linePath. eauto.
  - unfold strokeOf.
    destruct (String.eqb (lineStyle (effects pr)) "gradient"); eauto 10.
Qed.

(** X4: every connection line of a frame is a single segment stroked with
    the configured line width and the dash pattern of the line style (5 on,
    5 off when dashed, none otherwise); in the gradient style its stroke is
    a gradient of exactly two stops at offsets 0 and 1, in the other styles
    it is white with an alpha above 0 and at most 0.2. *)
Theorem lines_of_a_frame (pr : Props) (w : World) (canvas : Canvas)
  (ctx : Ctx.t) :
  canvasRef w = Some canvas -> context2d canvas = Some ctx ->
  exists ctx' added,
    canvasRef (draw pr w) =
      Some (mkCanvas (width canvas) (height canvas) (Some ctx')) /\
    Ctx.painted ctx' =
      Ctx.painted ctx ++
      FillRect (Plain (Rgba 0 0 0 (1 - trailLength (effects pr))))
               (Ctx.shadowBlur ctx) 0 0
               (INR (width canvas)) (INR (height canvas)) :: added /\
    Forall (lineOK pr) added.
Proof.
  intros Hc Hctx.
  destruct (draw_keeps pr (fun _ => True) (fun _ => True)
              (lineOK pr) w canvas ctx) as (_ & ctx' & added & H);
    try done.
  - intros ctx1 p _ _. do 2 (split; [done |]).
    destruct (drawParticle_effect (effects pr) ctx1 p)
      as (_ & sty & sc & sb & Hp).
    by eapply appends_one.
  - intros ctx1 p1 p2 o _ _ _ Ho. do 3 (split; [done |]).
    by apply drawLine_lineOK.
  - by apply Forall_true.
  - exists ctx', added. tauto.
Qed.

Lemma lines_of_a_frame_witness :
  canvasRef pairWorld = Some sampleCanvas /\
  context2d sampleCanvas = Some Ctx.fresh /\
  exists ctx' added,
    canvasRef (draw rainbowProps pairWorld) =
      Some (mkCanvas 1000 1000 (Some ctx')) /\
    Ctx.painted ctx' =
      Ctx.painted Ctx.fresh ++
      FillRect (Plain (Rgba 0 0 0 (1 - trailLength rainbowEffects)))
               (Ctx.shadowBlur Ctx.fresh) 0 0
               (INR 1000) (INR 1000) :: added /\
    Forall (lineOK rainbowProps) added.
Proof.
  split; [reflexivity |]. split; [reflexivity |].
  exact (lines_of_a_frame rainbowProps pairWorld sampleCanvas Ctx.fresh
           eq_refl eq_refl).
Defined.

(** ** The particles after a frame *)

Lemma drawParticle_particle (e : Effects) (ctx : Ctx.t) (p : Particle) :
  (drawParticle e ctx p).1 = (getParticleColor e p).1.
Proof.
  unfold drawParticle. by destruct (getParticleColor e p) as [q color].
Qed.

Lemma drawLine_plain_particles (pr : Props) (ctx : Ctx.t)
  (p1 p2 : Particle) (o : R) :
  lineStyle (effects pr) <> "gradient"%string ->
  (drawLine pr ctx p1 p2 o).1 = (p1, p2).
Proof.
  intros Hne%String.eqb_neq. unfold drawLine. rewrite Hne.
  by destruct (String.eqb (lineStyle (effects pr)) "dashed").
Qed.

Lemma connect_plain_particles (pr : Props) (i j : nat) (st : Store) :
  lineStyle (effects pr) <> "gradient"%string ->
  (connect pr i j st).1 = st.1.
Proof.
  intros Hne. destruct st as [ps ctx]. unfold connect.
  destruct (ps !! i) as [p |] eqn:Hi; [| done].
  destruct (ps !! j) as [p2 |] eqn:Hj; [| done].
  case_Rltb; [| done].
  pose proof (drawLine_plain_particles pr ctx p p2
    (opacity (sqrt ((x p - x p2) * (x p - x p2) +
                    (y p - y p2) * (y p - y p2)))
             (connectionDistance (effects pr))) Hne) as Hd.
  destruct (drawLine pr ctx p p2 _) as [[q q2] ctx']. cbn [fst snd] in *.
  injection Hd as -> ->.
  rewrite (list_insert_id ps i p Hi). by rewrite list_insert_id.
Qed.

Lemma prefix_insert {A : Type} (g : A -> A) (l : list A) (i : nat) (r : A) :
  l !! i = Some r ->
  <[i := g r]> ((g <$> take i l) ++ drop i l) =
  (g <$> take (S i) l) ++ drop (S i) l.
Proof.
  intros Hr.
  pose proof (advance_prefix_step g (fun a => a) l i r Hr) as H.
  by rewrite !list_fmap_id in H.
Qed.

Lemma advance_size (e : Effects) (mouse : Pointer) (W H : R)
  (p : Particle) :
  size (advance e mouse W H p) = size p.
Proof.
  assert (Hbx : forall q, size (bounce_x W q) = size q)
    by (intros q; unfold bounce_x; by repeat case_Rltb).
  assert (Hby : forall q, size (bounce_y H q) = size q)
    by (intros q; unfold bounce_y; by repeat case_Rltb).
  assert (Hfl : forall q, size (speed_floor q) = size q)
    by (intros q; unfold speed_floor; by case_Rltb).
  assert (Hrp : forall m q, size (repel e m q) = size q)
    by (intros m q; unfold repel; by case_Rltb).
  unfold advance. rewrite Hby, Hbx. unfold integrate. cbn.
  rewrite Hfl. destruct mouse; [apply Hrp | done].
Qed.

(** The kinematic step keeps colour and radius. *)
Lemma advance_keeps_color (e : Effects) (mouse : Pointer) (W H : R)
  (p : Particle) :
  hue (advance e mouse W H p) = hue p /\
  saturation (advance e mouse W H p) = saturation p /\
  brightness (advance e mouse W H p) = brightness p /\
  size (advance e mouse W H p) = size p.
Proof.
  split; [| split; [| split; [| apply advance_size]]].
  all: replace p with (with_color (hue p) (saturation p) (brightness p) p)
         at 1 by (by destruct p);
       by rewrite advance_with_color.
Qed.

Lemma iteration_plain_particles (pr : Props) (mouse : Pointer) (W H : R)
  (i : nat) (ps : list Particle) (ctx : Ctx.t) (p : Particle) :
  lineStyle (effects pr) <> "gradient"%string ->
  ps !! i = Some p ->
  (iteration pr mouse W H i (ps, ctx)).1 =
    <[i := (getParticleColor (effects pr)
              (advance (effects pr) mouse W H p)).1]> ps.
Proof.
  intros Hne Hi. unfold iteration. rewrite Hi.
  pose proof (drawParticle_particle (effects pr) ctx
                (advance (effects pr) mouse W H p)) as Hq.
  destruct (drawParticle (effects pr) ctx _) as [q ctx1].
  cbn [fst] in Hq. subst q.
  replace (i + 1)%nat with (0 + (i + 1))%nat at 1 by lia.
  set (n := (length _ - (i + 1))%nat). set (ps1 := <[i := _]> ps).
  apply (for_loop_invariant (fun _ st => st.1 = ps1)); [done |].
  intros j st' _ <-. by apply connect_plain_particles.
Qed.

(** X5: when the line style is not the gradient one, a frame of [draw]
    turns every particle into its advanced self with one colour resolution
    applied, and nothing else: in solid mode hue, saturation and brightness
    of all particles are as before the frame, in rainbow mode every hue is
    advanced exactly once per frame. *)
Theorem particles_after_plain_frame (pr : Props) (w : World)
  (canvas : Canvas) (ctx : Ctx.t) :
  canvasRef w = Some canvas -> context2d canvas = Some ctx ->
  lineStyle (effects pr) <> "gradient"%string ->
  let adv := advance (effects pr) (mousePositionRef w)
                     (INR (width canvas)) (INR (height canvas)) in
  particlesRef (draw pr w) =
    (fun p => (getParticleColor (effects pr) (adv p)).1)
      <$> particlesRef w /\
  (colorMode (effects pr) <> "rainbow"%string ->
     particlesRef (draw pr w) = adv <$> particlesRef w /\
     (fun p => (hue p, saturation p, brightness p, size p)) <$>
       particlesRef (draw pr w) =
     (fun p => (hue p, saturation p, brightness p, size p)) <$>
       particlesRef w) /\
  (colorMode (effects pr) = "rainbow"%string ->
     hue <$> particlesRef (draw pr w) =
     (fun p => js_rem (hue p + 1) 360) <$> particlesRef w).
Proof.
  intros Hc Hctx Hne adv.
  set (g := fun p => (getParticleColor (effects pr) (adv p)).1).
  assert (Hps : particlesRef (draw pr w) = g <$> particlesRef w).
  { unfold draw. rewrite Hc, Hctx.
    destruct (particlesRef w) as [| p0 rest] eqn:Hps;
      [by cbn; rewrite Hps |].
    cbn [length Nat.eqb]. rewrite <- Hps.
    replace (S (length rest)) with (length (particlesRef w))
      by (by rewrite Hps).
    set (ctx0 := Ctx.fillRect _ _ _ _ _). clearbody ctx0.
    set (ps0 := particlesRef w).
    assert (Hloop :
      (for_loop 0 (length ps0)
         (iteration pr (mousePositionRef w) (INR (width canvas))
                    (INR (height canvas))) (ps0, ctx0)).1 =
      (g <$> take (0 + length ps0) ps0) ++ drop (0 + length ps0) ps0).
    { apply (for_loop_invariant
               (fun i st => st.1 = (g <$> take i ps0) ++ drop i ps0));
        [by rewrite take_0, drop_0 |].
      intros i [ps' ctx'] Hi Hinv. cbn [fst] in Hinv.
      destruct (lookup_lt_is_Some_2 ps0 i) as [r Hr]; [lia |].
      rewrite (iteration_plain_particles pr _ _ _ i ps' ctx' r Hne).
      - rewrite Hinv. exact (prefix_insert g ps0 i r Hr).
      - rewrite Hinv. by apply prefix_lookup. }
    cbn [Nat.add] in Hloop.
    rewrite drop_all, app_nil_r, take_ge in Hloop by lia.
    destruct (for_loop 0 _ _ _) as [ps' ctx']. by cbn in *. }
  split; [exact Hps |]. split.
  - intros Hmode%String.eqb_neq.
    assert (Hg : forall p, g p = adv p).
    { intros p. unfold g, getParticleColor. by rewrite Hmode. }
    rewrite Hps. split.
    + apply list_fmap_ext. intros _ p _. apply Hg.
    + rewrite <- list_fmap_compose. apply list_fmap_ext. intros _ p _.
      cbn. rewrite Hg. unfold adv.
      destruct (advance_keeps_color (effects pr) (mousePositionRef w)
                  (INR (width canvas)) (INR (height canvas)) p)
        as (-> & -> & -> & ->).
      done.
  - intros Hmode. rewrite Hps, <- list_fmap_compose.
    apply list_fmap_ext. intros _ p _. cbn. unfold g, getParticleColor.
    rewrite Hmode. cbn. f_equal. unfold adv.
    by destruct (advance_keeps_color (effects pr) (mousePositionRef w)
                   (INR (width canvas)) (INR (height canvas)) p) as [-> _].
Qed.

Lemma particles_after_plain_frame_witness :
  canvasRef pairWorld = Some sampleCanvas /\
  context2d sampleCanvas = Some Ctx.fresh /\
  lineStyle (effects initialProps) <> "gradient"%string /\
  particlesRef (draw initialProps pairWorld) =
    advance initialEffects None (INR 1000) (INR 1000) <$>
      [leftParticle; rightParticle].
Proof.
  split; [reflexivity |]. split; [reflexivity |].
  assert (Hne : lineStyle (effects initialProps) <> "gradient"%string)
    by discriminate.
  split; [exact Hne |].
  destruct (particles_after_plain_frame initialProps pairWorld sampleCanvas
              Ctx.fresh eq_refl eq_refl Hne) as (_ & Hsolid & _).
  apply Hsolid. discriminate.
Defined.

(** ** Colours of the colour picker *)

Lemma hexDigit_char (c : ascii) (d : Z) :
  hexDigit c = Some d ->
  (0 <= d <= 15)%Z /\
  skipSpaces (String c EmptyString) = String c EmptyString /\
  (c =? "-")%char = false /\ (c =? "+")%char = false /\
  (c =? "x")%char = false /\ (c =? "X")%char = false.
Proof.
  destruct c as [[] [] [] [] [] [] [] []]; vm_compute; intros [= <-];
    repeat split; congruence.
Qed.

Lemma skipSpaces_hex (c : ascii) (d : Z) (rest : string) :
  hexDigit c = Some d -> skipSpaces (String c rest) = String c rest.
Proof.
  intros Hc. destruct (hexDigit_char c d Hc) as (_ & Hs & _).
  cbn [skipSpaces] in *.
  by destruct ((c =? " ") || (c =? "009") || (c =? "010")
               || (c =? "013"))%char.
Qed.

Lemma hexPrefix_two (a b : ascii) (da db : Z) :
  hexDigit a = Some da -> hexDigit b = Some db ->
  hexPrefix (String a (String b EmptyString)) None =
    Some (16 * da + db)%Z.
Proof.
  intros Ha Hb. cbn [hexPrefix]. rewrite Ha, Hb. cbn [default].
  f_equal; lia.
Qed.

(** [parseInt] of two hexadecimal digits. *)
Lemma parseInt16_two (a b : ascii) (da db : Z) :
  hexDigit a = Some da -> hexDigit b = Some db ->
  parseInt16 (String a (String b EmptyString)) = Some (16 * da + db)%Z.
Proof.
  intros Ha Hb.
  destruct (hexDigit_char a da Ha) as (_ & _ & Hminus & Hplus & _).
  destruct (hexDigit_char b db Hb) as (_ & _ & _ & _ & Hx & HX).
  unfold parseInt16. rewrite (skipSpaces_hex a da _ Ha).
  assert (Hstrip : strip0x (String a (String b EmptyString)) =
                   String a (String b EmptyString)).
  { unfold strip0x. rewrite Hx, HX. cbn.
    by destruct a as [[] [] [] [] [] [] [] []]. }
  rewrite <- (hexPrefix_two a b da db Ha Hb), <- Hstrip.
  destruct a as [[] [] [] [] [] [] [] []]; try reflexivity;
    vm_compute in Hminus, Hplus; discriminate.
Qed.

Lemma channel_hex (s : string) (from to : nat) (a b : ascii) (da db : Z) :
  slice from to s = String a (String b EmptyString) ->
  hexDigit a = Some da -> hexDigit b = Some db ->
  exists v : R, channel s from to = Some v /\ 0 <= v <= 1.
Proof.
  intros Hs Ha Hb. unfold channel.
  rewrite Hs, (parseInt16_two a b da db Ha Hb). cbn.
  eexists. split; [reflexivity |].
  destruct (hexDigit_char a da Ha) as (Hda & _).
  destruct (hexDigit_char b db Hb) as (Hdb & _).
  assert (H0 : (0 <= 16 * da + db)%Z) by lia.
  assert (H1 : (16 * da + db <= 255)%Z) by lia.
  apply IZR_le in H0, H1.
  apply Rdiv_within; lra.
Qed.

Lemma rgbToHsl_ranges (r g b : R) :
  0 <= r <= 1 -> 0 <= g <= 1 -> 0 <= b <= 1 ->
  0 <= (rgbToHsl r g b).1.1 < 360 /\
  0 <= (rgbToHsl r g b).1.2 <= 1 /\
  0 <= (rgbToHsl r g b).2 <= 1.
Proof.
  intros Hr Hg Hb. split; [apply rgbToHsl_hue_range |].
  unfold rgbToHsl.
  pose proof (channels_between r g b) as (Hr' & Hg' & Hb').
  cbn in Hr', Hg', Hb'.
  assert (Hmax : Rmax r (Rmax g b) <= 1)
    by (apply Rmax_lub; [| apply Rmax_lub]; lra).
  assert (Hmin : 0 <= Rmin r (Rmin g b))
    by (apply Rmin_glb; [| apply Rmin_glb]; lra).
  set (max := Rmax r (Rmax g b)) in *.
  set (min := Rmin r (Rmin g b)) in *.
  destruct (Reqb max min) eqn:Hachr; cbn; [lra |].
  apply Reqb_neq in Hachr. split; [| lra].
  case_Rltb.
  - apply Rdiv_within; lra.
  - apply Rdiv_within; lra.
Qed.

(** The solid colour of a string of the colour picker: one colour triple
    for all particles. *)
Lemma solidColor_hex_form (c1 c2 c3 c4 c5 c6 : ascii)
  (d1 d2 d3 d4 d5 d6 : Z) :
  hexDigit c1 = Some d1 -> hexDigit c2 = Some d2 ->
  hexDigit c3 = Some d3 -> hexDigit c4 = Some d4 ->
  hexDigit c5 = Some d5 -> hexDigit c6 = Some d6 ->
  exists h s l : R,
    0 <= h < 360 /\ 0 <= s <= 100 /\ 0 <= l <= 100 /\
    forall p : Particle,
      solidColor (hexColor c1 c2 c3 c4 c5 c6) p =
        Some (p |> set_hue h |> set_saturation s |> set_brightness l).
Proof.
  intros H1 H2 H3 H4 H5 H6.
  destruct (channel_hex (hexColor c1 c2 c3 c4 c5 c6) 1 3 c1 c2 d1 d2
              eq_refl H1 H2) as (r & Hr & Hrr).
  destruct (channel_hex (hexColor c1 c2 c3 c4 c5 c6) 3 5 c3 c4 d3 d4
              eq_refl H3 H4) as (g & Hg & Hgr).
  destruct (channel_hex (hexColor c1 c2 c3 c4 c5 c6) 5 7 c5 c6 d5 d6
              eq_refl H5 H6) as (b & Hb & Hbr).
  destruct (rgbToHsl_ranges r g b Hrr Hgr Hbr) as (Hh & Hs & Hl).
  destruct (rgbToHsl r g b) as [[h s] l] eqn:Hhsl. cbn [fst snd] in *.
  exists h, (s * 100), (l * 100).
  split; [done |]. split; [lra |]. split; [lra |].
  intros p. unfold solidColor. rewrite Hr, Hg, Hb. cbn. by rewrite Hhsl.
Qed.

(** X6: for every colour string the colour picker can deliver, a [#]
    followed by six hexadecimal digits, the solid colour is defined, its
    hue lies in [0, 360) and its saturation and brightness in [0, 100], it
    is the same for all particles, and setting it leaves position, velocity
    and radius of the particle as they are. *)
Theorem solidColor_of_picker (c1 c2 c3 c4 c5 c6 : ascii)
  (d1 d2 d3 d4 d5 d6 : Z) :
  hexDigit c1 = Some d1 -> hexDigit c2 = Some d2 ->
  hexDigit c3 = Some d3 -> hexDigit c4 = Some d4 ->
  hexDigit c5 = Some d5 -> hexDigit c6 = Some d6 ->
  exists h s l : R,
    0 <= h < 360 /\ 0 <= s <= 100 /\ 0 <= l <= 100 /\
    forall p : Particle,
      exists q : Particle,
        solidColor (hexColor c1 c2 c3 c4 c5 c6) p = Some q /\
        hue q = h /\ saturation q = s /\ brightness q = l /\
        motion q = motion p /\ valid_color q.
Proof.
  intros H1 H2 H3 H4 H5 H6.
  destruct (solidColor_hex_form c1 c2 c3 c4 c5 c6 d1 d2 d3 d4 d5 d6
              H1 H2 H3 H4 H5 H6) as (h & s & l & Hh & Hs & Hl & Hsolid).
  exists h, s, l. do 3 (split; [done |]).
  intros p. eexists. split; [apply Hsolid |].
  do 4 (split; [reflexivity |]). unfold valid_color. cbn. lra.
Qed.

Lemma solidColor_of_picker_witness :
  hexDigit "f" = Some 15%Z /\ hexDigit "0" = Some 0%Z /\
  exists h s l : R,
    0 <= h < 360 /\ 0 <= s <= 100 /\ 0 <= l <= 100 /\
    forall p : Particle,
      exists q : Particle,
        solidColor (hexColor "f" "f" "0" "0" "0" "0") p = Some q /\
        hue q = h /\ saturation q = s /\ brightness q = l /\
        motion q = motion p /\ valid_color q.
Proof.
  split; [reflexivity |]. split; [reflexivity |].
  exact (solidColor_of_picker "f" "f" "0" "0" "0" "0" 15 15 0 0 0 0
           eq_refl eq_refl eq_refl eq_refl eq_refl eq_refl).
Defined.

(** X7: a colour string shorter than six characters, such as the short
    form [#fff], leaves [parseInt] of its blue slice without a digit: the
    blue channel is NaN and the solid colour has no number for any
    particle. *)
Theorem solidColor_short_string (s : string) (p : Particle) :
  (String.length s < 6)%nat ->
  slice 5 7 s = EmptyString /\
  parseInt16 (slice 5 7 s) = None /\
  solidColor s p = None.
Proof.
  intros Hlen.
  assert (Hslice : slice 5 7 s = EmptyString).
  { destruct s as [| c0 [| c1 [| c2 [| c3 [| c4 [| c5 s']]]]]];
      try reflexivity. cbn in Hlen. lia. }
  split; [exact Hslice |]. split; [by rewrite Hslice |].
  unfold solidColor, channel. rewrite Hslice. cbn.
  by destruct (parseInt16 (slice 1 3 s)), (parseInt16 (slice 3 5 s)).
Qed.

Lemma solidColor_short_string_witness :
  (String.length "#fff" < 6)%nat /\
  solidColor "#fff" leftParticle = None.
Proof.
  assert (Hlen : (String.length "#fff" < 6)%nat) by (cbn; lia).
  split; [exact Hlen |].
  exact (proj2 (proj2 (solidColor_short_string "#fff" leftParticle Hlen))).
Defined.

(** ** The colour effect and the colour-mode select *)

Lemma set_same_randomCalls (ps : list Particle) (w : World) :
  w |> set_particlesRef ps |> set_randomCalls (randomCalls w) =
  set_particlesRef ps w.
Proof. by destruct w. Qed.

Lemma forEach_reseed_solid (random : nat -> R) (pr : Props) (h s l : R)
  (ps : list Particle) (k : nat) :
  colorMode (effects pr) = "solid"%string ->
  (forall p, solidColor (particleColor pr) p =
             Some (p |> set_hue h |> set_saturation s |> set_brightness l)) ->
  forEach_reseed random pr ps k =
    Some ((fun p => p |> set_size (particleSize (effects pr))
                      |> set_hue h |> set_saturation s |> set_brightness l)
            <$> ps, k).
Proof.
  intros Hmode Hsolid. induction ps as [| p rest IH]; [done |].
  cbn [forEach_reseed]. unfold reseed at 1. rewrite Hmode.
  cbn [String.eqb Ascii.eqb Bool.eqb]. rewrite Hsolid. cbn. by rewrite IH.
Qed.

Lemma colorEffect_solid_form (random : nat -> R) (pr : Props) (h s l : R)
  (w : World) :
  colorMode (effects pr) = "solid"%string ->
  (forall p, solidColor (particleColor pr) p =
             Some (p |> set_hue h |> set_saturation s |> set_brightness l)) ->
  colorEffect random pr w =
    Some (set_particlesRef
            ((fun p => mkParticle (x p) (y p) (vx p) (vy p)
                                  (particleSize (effects pr)) h s l)
               <$> particlesRef w) w).
Proof.
  intros Hmode Hsolid. unfold colorEffect.
  rewrite (forEach_reseed_solid random pr h s l _ _ Hmode Hsolid).
  cbn. by rewrite set_same_randomCalls.
Qed.

(** X8: in solid mode, with a colour the conversion has numbers for, the
    colour effect gives every particle the configured radius and the one
    solid colour, keeps position and velocity, and makes no call of
    [Math.random]; running it again changes nothing. *)
Theorem colorEffect_solid (random : nat -> R) (pr : Props) (h s l : R)
  (w : World) :
  colorMode (effects pr) = "solid"%string ->
  (forall p, solidColor (particleColor pr) p =
             Some (p |> set_hue h |> set_saturation s |> set_brightness l)) ->
  let paint p :=
    mkParticle (x p) (y p) (vx p) (vy p) (particleSize (effects pr)) h s l in
  colorEffect random pr w =
    Some (set_particlesRef (paint <$> particlesRef w) w) /\
  colorEffect random pr (set_particlesRef (paint <$> particlesRef w) w) =
    Some (set_particlesRef (paint <$> particlesRef w) w).
Proof.
  intros Hmode Hsolid paint.
  split; [by apply colorEffect_solid_form |].
  rewrite (colorEffect_solid_form random pr h s l _ Hmode Hsolid).
  cbn. rewrite <- list_fmap_compose.
  destruct w. done.
Qed.

Lemma solidColor_white (p : Particle) :
  solidColor "#ffffff" p =
    Some (p |> set_hue 0 |> set_saturation 0 |> set_brightness 100).
Proof.
  unfold solidColor.
  rewrite (channel_val _ 1 3 255), (channel_val _ 3 5 255),
    (channel_val _ 5 7 255) by reflexivity.
  cbn. rewrite channel_ff, rgbToHsl_white.
  unfold set_hue, set_saturation, set_brightness. cbn.
  do 2 f_equal; lra.
Qed.

Lemma colorEffect_solid_witness :
  colorMode (effects initialProps) = "solid"%string /\
  colorEffect halves initialProps pairWorld =
    Some (set_particlesRef
            [mkParticle 100 100 1 0 2 0 0 100;
             mkParticle 301.5 100 (-1) 0 2 0 0 100] pairWorld).
Proof.
  split; [reflexivity |].
  exact (proj1 (colorEffect_solid halves initialProps 0 0 100 pairWorld
                  eq_refl solidColor_white)).
Defined.

Lemma forEach_reseed_rainbow (random : nat -> R) (pr : Props)
  (ps : list Particle) :
  colorMode (effects pr) = "rainbow"%string ->
  forall k : nat,
  forEach_reseed random pr ps k =
    Some (imap (fun i p =>
                  mkParticle (x p) (y p) (vx p) (vy p)
                             (particleSize (effects pr))
                             (random (k + i)%nat * 360) 100 50) ps,
          (k + length ps)%nat).
Proof.
  intros Hmode. induction ps as [| p rest IH]; intros k.
  - cbn. by rewrite Nat.add_0_r.
  - cbn [forEach_reseed]. unfold reseed at 1. rewrite Hmode.
    cbn [String.eqb Ascii.eqb Bool.eqb mbind option_bind].
    rewrite IH. cbn. rewrite Nat.add_0_r.
    replace (k + S (length rest))%nat with (k + 1 + length rest)%nat by lia.
    do 3 f_equal.
    apply imap_ext. intros i q _. cbn. do 3 f_equal. lia.
Qed.

(** X9: in rainbow mode the colour effect always succeeds: it gives
    particle [i] the configured radius, the hue [360] times the [i]-th
    next random number, saturation 100 and brightness 50, keeps position
    and velocity, and makes exactly one call of [Math.random] per
    particle. *)
Theorem colorEffect_rainbow (random : nat -> R) (pr : Props) (w : World) :
  colorMode (effects pr) = "rainbow"%string ->
  let k := randomCalls w in
  let reseeded :=
    imap (fun i p =>
            mkParticle (x p) (y p) (vx p) (vy p)
                       (particleSize (effects pr))
                       (random (k + i)%nat * 360) 100 50)
         (particlesRef w) in
  colorEffect random pr w =
    Some (w |> set_particlesRef reseeded
            |> set_randomCalls (k + length (particlesRef w))%nat) /\
  length reseeded = length (particlesRef w) /\
  ((forall n : nat, 0 <= random n < 1) -> Forall valid_color reseeded).
Proof.
  intros Hmode k reseeded. split; [| split].
  - unfold colorEffect.
    by rewrite (forEach_reseed_rainbow random pr _ Hmode).
  - apply length_imap.
  - intros Hrnd. apply Forall_lookup. intros i q Hq.
    unfold reseeded in Hq. rewrite list_lookup_imap in Hq.
    destruct (particlesRef w !! i) as [p |]; [| done].
    injection Hq as <-. unfold valid_color. cbn.
    pose proof (Hrnd (k + i)%nat). lra.
Qed.

Lemma colorEffect_rainbow_witness :
  colorMode (effects rainbowProps) = "rainbow"%string /\
  colorEffect halves rainbowProps pairWorld =
    Some (pairWorld
            |> set_particlesRef
                 (imap (fun i p =>
                          mkParticle (x p) (y p) (vx p) (vy p) 2
                                     (halves (10 + i)%nat * 360) 100 50)
                       [leftParticle; rightParticle])
            |> set_randomCalls 12).
Proof.
  split; [reflexivity |].
  exact (proj1 (colorEffect_rainbow halves rainbowProps pairWorld eq_refl)).
Defined.

(** X10: the colour-mode select recolours the particles itself only when
    the new mode is solid; what it does then is what the colour effect of
    the following render does anyway, so with or without the handler's
    work the effect ends in the same world. *)
Theorem colorModeSelect_then_effect (random : nat -> R) (pr : Props)
  (h s l : R) (w : World) :
  colorMode (effects pr) = "solid"%string ->
  (forall p, solidColor (particleColor pr) p =
             Some (p |> set_hue h |> set_saturation s |> set_brightness l)) ->
  (forall mode : string, mode <> "solid"%string ->
     colorModeSelect mode (particleColor pr) w = Some w) /\
  colorModeSelect "solid" (particleColor pr) w =
    Some (set_particlesRef
            ((fun p => mkParticle (x p) (y p) (vx p) (vy p) (size p) h s l)
               <$> particlesRef w) w) /\
  (colorModeSelect "solid" (particleColor pr) w ≫= colorEffect random pr) =
    colorEffect random pr w.
Proof.
  intros Hmode Hsolid.
  assert (Hsel : colorModeSelect "solid" (particleColor pr) w =
            Some (set_particlesRef
                    ((fun p => mkParticle (x p) (y p) (vx p) (vy p)
                                          (size p) h s l)
                       <$> particlesRef w) w)).
  { unfold colorModeSelect. cbn [String.eqb Ascii.eqb Bool.eqb].
    erewrite (mapM_Some_2 _ (particlesRef w)); [done |].
    apply Forall2_fmap_r, Forall_Forall2_diag, Forall_forall.
    intros p _. by rewrite Hsolid. }
  split; [| split; [exact Hsel |]].
  - intros mode Hne%String.eqb_neq. unfold colorModeSelect. by rewrite Hne.
  - rewrite Hsel. cbn [mbind option_bind].
    rewrite !(colorEffect_solid_form random pr h s l _ Hmode Hsolid).
    cbn. rewrite <- list_fmap_compose. by destruct w.
Qed.

Lemma colorModeSelect_then_effect_witness :
  colorMode (effects initialProps) = "solid"%string /\
  (colorModeSelect "solid" (particleColor initialProps) pairWorld
     ≫= colorEffect halves initialProps) =
    colorEffect halves initialProps pairWorld.
Proof.
  split; [reflexivity |].
  exact (proj2 (proj2 (colorModeSelect_then_effect halves initialProps
                         0 0 100 pairWorld eq_refl solidColor_white))).
Defined.

(** ** Colours stay in range *)

Lemma getParticleColor_valid (e : Effects) (p : Particle) :
  valid_color p -> valid_color (getParticleColor e p).1.
Proof.
  intros (Hh & Hs & Hb). unfold getParticleColor.
  destruct (String.eqb (colorMode e) "rainbow"); [| done].
  cbn. split; [| done].
  destruct (js_rem_step (hue p)) as (_ & Hr & _). apply Hr. lra.
Qed.

Lemma advance_valid (e : Effects) (mouse : Pointer) (W H : R)
  (p : Particle) :
  valid_color p -> valid_color (advance e mouse W H p).
Proof.
  unfold valid_color.
  by destruct (advance_keeps_color e mouse W H p) as (-> & -> & -> & _).
Qed.

Lemma drawLine_particles (pr : Props) (ctx : Ctx.t) (p1 p2 : Particle)
  (o : R) :
  (drawLine pr ctx p1 p2 o).1 =
    if String.eqb (lineStyle (effects pr)) "gradient"
    then ((getParticleColor (effects pr) p1).1,
          (getParticleColor (effects pr) p2).1)
    else (p1, p2).
Proof.
  unfold drawLine.
  destruct (getParticleColor (effects pr) p1) as [q1 c1].
  destruct (getParticleColor (effects pr) p2) as [q2 c2].
  by destruct (String.eqb (lineStyle (effects pr)) "gradient"),
    (String.eqb (lineStyle (effects pr)) "dashed").
Qed.

Lemma createParticle_fields (random : nat -> R) (pr : Props)
  (iw ih k : nat) :
  (forall n : nat, 0 <= random n < 1) ->
  let p := (createParticle random pr iw ih k).1 in
  valid_color p /\ -1 <= vx p < 1 /\ -1 <= vy p < 1 /\
  size p = particleSize (effects pr) /\
  saturation p = 100 /\ brightness p = 100.
Proof.
  intros Hrnd. unfold valid_color. cbn -[INR].
  pose proof (Hrnd (k + 2)%nat). pose proof (Hrnd (k + 3)%nat).
  pose proof (Hrnd (k + 4)%nat). lra.
Qed.

(** X11: the colour triple of every particle stays in the ranges of the
    data model.  A created particle has a hue in [0, 360), saturation 100
    and brightness 100, velocity components in [-1, 1) and the configured
    radius; and a frame of [draw] keeps hue in [0, 360), saturation and
    brightness in [0, 100] in every colour mode and line style, however
    often a hue is advanced within the frame. *)
Theorem colors_stay_valid (random : nat -> R) (pr : Props) (iw ih : nat)
  (w : World) (canvas : Canvas) (ctx : Ctx.t) :
  (forall n : nat, 0 <= random n < 1) ->
  canvasRef w = Some canvas -> context2d canvas = Some ctx ->
  (forall k : nat,
     let p := (createParticle random pr iw ih k).1 in
     valid_color p /\ -1 <= vx p < 1 /\ -1 <= vy p < 1 /\
     size p = particleSize (effects pr) /\
     saturation p = 100 /\ brightness p = 100) /\
  Forall valid_color (particlesRef (initEffect random pr iw ih w)) /\
  (Forall valid_color (particlesRef w) ->
   forall pr' : Props, Forall valid_color (particlesRef (draw pr' w))).
Proof.
  intros Hrnd Hc Hctx. split; [| split].
  - intros k. by apply createParticle_fields.
  - destruct (initEffect_particles random pr iw ih w canvas Hc) as [-> _].
    destruct (Array_from_createParticle random pr iw ih (particleCount pr)
                (randomCalls w)) as (Hlen & _ & Hlook).
    apply Forall_lookup. intros i p Hp.
    pose proof (lookup_lt_Some _ _ _ Hp) as Hi. rewrite Hlen in Hi.
    rewrite (Hlook i Hi) in Hp. injection Hp as <-.
    by apply createParticle_fields.
  - intros Hvalid pr'.
    destruct (draw_keeps pr' valid_color (fun _ => True) (fun _ => True)
                w canvas ctx) as [H _]; try done.
    + intros e mouse W H p. apply advance_valid.
    + intros ctx1 p _ Hp. split; [| split; [done |]].
      * rewrite drawParticle_particle. by apply getParticleColor_valid.
      * destruct (drawParticle_effect (effects pr') ctx1 p)
          as (_ & sty & sc & sb & Hpaint).
        by eapply appends_one.
    + intros ctx1 p1 p2 o _ Hp1 Hp2 _.
      rewrite drawLine_particles.
      split; [| split; [| split; [done |]]].
      * destruct (String.eqb (lineStyle (effects pr')) "gradient");
          [by apply getParticleColor_valid | done].
      * destruct (String.eqb (lineStyle (effects pr')) "gradient");
          [by apply getParticleColor_valid | done].
      * eapply appends_one; [apply drawLine_painted | done].
Qed.

Lemma colors_stay_valid_witness :
  (forall n : nat, 0 <= halves n < 1) /\
  canvasRef pairWorld = Some sampleCanvas /\
  context2d sampleCanvas = Some Ctx.fresh /\
  Forall valid_color (particlesRef pairWorld) /\
  Forall valid_color (particlesRef (draw rainbowProps pairWorld)).
Proof.
  assert (Hh : forall n : nat, 0 <= halves n < 1)
    by (intros n; unfold halves; lra).
  assert (Hv : Forall valid_color (particlesRef pairWorld)).
  { apply Forall_cons; split; [| apply Forall_cons; split;
                                   [| apply Forall_nil]];
      unfold valid_color; cbn; lra. }
  split; [exact Hh |]. split; [reflexivity |]. split; [reflexivity |].
  split; [exact Hv |].
  exact (proj2 (proj2 (colors_stay_valid halves initialProps 1000 1000
                         pairWorld sampleCanvas Ctx.fresh Hh eq_refl eq_refl))
           Hv rainbowProps).
Defined.

(** ** The running loop *)

Lemma draw_refs (pr : Props) (w : World) (canvas : Canvas) (ctx : Ctx.t) :
  canvasRef w = Some canvas -> context2d canvas = Some ctx ->
  particlesRef w <> [] ->
  (exists ctx',
     canvasRef (draw pr w) =
       Some (mkCanvas (width canvas) (height canvas) (Some ctx'))) /\
  animationFrameRef (draw pr w) = rafNext w /\
  rafNext (draw pr w) = (rafNext w + 1)%nat /\
  mousePositionRef (draw pr w) = mousePositionRef w /\
  randomCalls (draw pr w) = randomCalls w.
Proof.
  intros Hc Hctx Hps. unfold draw. rewrite Hc, Hctx.
  destruct (particlesRef w) as [| p rest]; [done |].
  cbn [length Nat.eqb].
  destruct (for_loop 0 _ _ _) as [ps' ctx']. cbn. eauto 10.
Qed.

Lemma draw_in_bounds (pr : Props) (w : World) (canvas : Canvas)
  (ctx : Ctx.t) :
  canvasRef w = Some canvas -> context2d canvas = Some ctx ->
  Forall (in_bounds (INR (width canvas)) (INR (height canvas)))
         (particlesRef (draw pr w)).
Proof.
  intros Hc Hctx.
  destruct (draw_effect pr w canvas ctx Hc Hctx) as (Hm & _).
  apply Forall_lookup. intros i p Hp.
  destruct (motion_lookup _ _ i p (eq_sym Hm) Hp) as (r & Hr & Hmr).
  rewrite list_lookup_fmap in Hr.
  destruct (particlesRef w !! i) as [r0 |]; [| done].
  injection Hr as <-.
  apply (motion_in_bounds _ _ _ _ (eq_sym Hmr)).
  apply advance_in_bounds; apply pos_INR.
Qed.

Lemma run_frame_running (pr : Props) (w : World) (W H : nat) :
  loop_running pr w ->
  (exists ctx, canvasRef w = Some (mkCanvas W H (Some ctx))) ->
  loop_running pr (run_frame w) /\
  (exists ctx, canvasRef (run_frame w) = Some (mkCanvas W H (Some ctx))) /\
  length (particlesRef (run_frame w)) = length (particlesRef w) /\
  rafNext (run_frame w) = (rafNext w + 1)%nat /\
  mousePositionRef (run_frame w) = mousePositionRef w /\
  Forall (in_bounds (INR W) (INR H)) (particlesRef (run_frame w)).
Proof.
  intros (_ & Hps & Hq & Hh) [ctx Hc].
  assert (Hrun : run_frame w = draw pr (set_rafQueue [] w)).
  { unfold run_frame. by rewrite Hq. }
  rewrite Hrun. set (w0 := set_rafQueue [] w).
  assert (Hc0 : canvasRef w0 = Some (mkCanvas W H (Some ctx))) by done.
  assert (Hps0 : particlesRef w0 <> []) by done.
  destruct (draw_refs pr w0 _ ctx Hc0 eq_refl Hps0)
    as ([ctx' Hc'] & Haf & Hnext & Hmouse & _).
  pose proof (draw_requests_next pr w0 _ ctx Hc0 eq_refl Hps0) as Hq'.
  pose proof (draw_length pr w0) as Hlen.
  pose proof (draw_in_bounds pr w0 _ ctx Hc0 eq_refl) as Hin.
  cbn in Hc', Haf, Hnext, Hq', Hlen, Hin, Hmouse.
  split; [| by eauto 10].
  split; [by eauto |]. split.
  - intros Hnil. rewrite Hnil in Hlen. by destruct (particlesRef w).
  - rewrite Hq', Haf. split; [done | lia].
Qed.

(** X12: once the loop of a closure is running it keeps running: after any
    number of frames there is exactly one requested frame, for the same
    closure over the same props, the canvas has its size, the particle array
    its length and the pointer position is untouched; and from the first
    frame on every particle lies within the canvas. *)
Theorem loop_keeps_running (pr : Props) (W H : nat) (n : nat) (w : World) :
  loop_running pr w ->
  (exists ctx, canvasRef w = Some (mkCanvas W H (Some ctx))) ->
  loop_running pr (frames n w) /\
  (exists ctx, canvasRef (frames n w) = Some (mkCanvas W H (Some ctx))) /\
  length (particlesRef (frames n w)) = length (particlesRef w) /\
  rafNext (frames n w) = (rafNext w + n)%nat /\
  mousePositionRef (frames n w) = mousePositionRef w /\
  ((0 < n)%nat ->
     Forall (in_bounds (INR W) (INR H)) (particlesRef (frames n w))).
Proof.
  revert w. induction n as [| n IH]; intros w Hrun Hc.
  - cbn. do 3 (split; [done |]). split; [lia |]. split; [done | lia].
  - cbn [frames].
    destruct (run_frame_running pr w W H Hrun Hc)
      as (Hrun' & Hc' & Hlen' & Hnext' & Hmouse' & Hin').
    destruct (IH (run_frame w) Hrun' Hc')
      as (Hrun'' & Hc'' & Hlen'' & Hq'' & Hmouse'' & Hin'').
    split; [done |]. split; [done |]. split; [congruence |].
    split; [| split; [congruence |]].
    + rewrite Hq'', Hnext'. lia.
    + intros _. destruct n as [| n']; [exact Hin' | apply Hin''; lia].
Qed.

Lemma pairWorld_running : loop_running initialProps pairWorld.
Proof.
  split; [by exists sampleCanvas, Ctx.fresh |].
  split; [done |]. split; [done |]. cbn. lia.
Qed.

Lemma loop_keeps_running_witness :
  loop_running initialProps pairWorld /\
  (exists ctx, canvasRef pairWorld = Some (mkCanvas 1000 1000 (Some ctx))) /\
  rafNext (frames 3 pairWorld) = 5%nat.
Proof.
  assert (Hc : exists ctx,
            canvasRef pairWorld = Some (mkCanvas 1000 1000 (Some ctx)))
    by (by exists Ctx.fresh).
  split; [exact pairWorld_running |]. split; [exact Hc |].
  exact (proj1 (proj2 (proj2 (proj2
    (loop_keeps_running initialProps 1000 1000 3 pairWorld
       pairWorld_running Hc))))).
Defined.

Lemma initEffect_refs (random : nat -> R) (pr : Props) (iw ih : nat)
  (w : World) (canvas : Canvas) :
  canvasRef w = Some canvas ->
  animationFrameRef (initEffect random pr iw ih w) = rafNext w /\
  rafNext (initEffect random pr iw ih w) = (rafNext w + 1)%nat /\
  mousePositionRef (initEffect random pr iw ih w) = mousePositionRef w.
Proof.
  intros Hc. unfold initEffect. rewrite Hc.
  by destruct (Array_from _ _ _).
Qed.

Lemma cancel_pending (w : World) :
  (0 < animationFrameRef w)%nat ->
  Forall (fun c => c.1 = animationFrameRef w) (rafQueue w) ->
  rafQueue (initCleanup w) = [] /\
  rafNext (initCleanup w) = rafNext w.
Proof.
  intros Hpos Hall. unfold initCleanup.
  destruct (Nat.eqb_spec (animationFrameRef w) 0) as [H0 | _]; [lia |].
  cbn. split; [| done].
  induction Hall as [| c rest Hc _ IH]; [done |].
  rewrite filter_cons. by destruct (decide (c.1 <> animationFrameRef w)).
Qed.

(** X13: changing a setting never leaves two loops running.  When the loop
    of the old closure is running and the init effect runs again with at
    least one particle configured, its cleanup cancels the one pending
    frame and the effect requests one for the new closure: afterwards the
    loop of the new closure is running and nothing of the old one is
    queued.  A cleanup right after the effect leaves no frame requested. *)
Theorem rerunInit_one_loop (random : nat -> R) (old pr : Props)
  (iw ih : nat) (w : World) :
  loop_running old w -> (0 < particleCount pr)%nat ->
  loop_running pr (rerunInit random pr iw ih w) /\
  rafQueue (rerunInit random pr iw ih w) = [(rafNext w, pr)] /\
  canvasRef (rerunInit random pr iw ih w) =
    Some (mkCanvas iw ih (Some Ctx.fresh)) /\
  rafQueue (initCleanup (rerunInit random pr iw ih w)) = [].
Proof.
  intros ((canvas & ctx & Hc & Hctx) & _ & Hq & Hh) Hcount.
  destruct (cancel_pending w) as [Hq0 Hn0]; [lia | |].
  { rewrite Hq. by apply Forall_singleton. }
  destruct (initCleanup_refs w) as (Hc0 & Hr0 & _).
  set (w0 := initCleanup w) in *.
  assert (Hcw0 : canvasRef w0 = Some canvas) by congruence.
  unfold rerunInit. fold w0.
  pose proof (initEffect_requests random pr iw ih w0 canvas Hcw0) as Hq1.
  destruct (initEffect_refs random pr iw ih w0 canvas Hcw0)
    as (Haf1 & Hn1 & _).
  destruct (initEffect_particles random pr iw ih w0 canvas Hcw0)
    as [Hps1 Hc1].
  destruct (Array_from_createParticle random pr iw ih (particleCount pr)
              (randomCalls w0)) as (Hlen & _).
  rewrite Hq0 in Hq1. rewrite Hn0 in Hq1, Haf1, Hn1. rewrite Hctx in Hc1.
  cbn in Hq1, Hc1.
  assert (Hrun : loop_running pr (initEffect random pr iw ih w0)).
  { split; [by eauto |]. split.
    - rewrite Hps1. intros Hnil. rewrite Hnil in Hlen. cbn in Hlen. lia.
    - rewrite Hq1, Haf1. split; [done | lia]. }
  split; [exact Hrun |]. split; [done |]. split; [done |].
  apply cancel_pending.
  - rewrite Haf1. lia.
  - rewrite Hq1, Haf1. by apply Forall_singleton.
Qed.

Lemma rerunInit_one_loop_witness :
  loop_running initialProps pairWorld /\
  (0 < particleCount resizedProps)%nat /\
  rafQueue (rerunInit halves resizedProps 1000 1000 pairWorld) =
    [(2%nat, resizedProps)].
Proof.
  assert (Hcount : (0 < particleCount resizedProps)%nat) by (cbn; lia).
  split; [exact pairWorld_running |]. split; [exact Hcount |].
  exact (proj1 (proj2 (rerunInit_one_loop halves initialProps resizedProps
                         1000 1000 pairWorld pairWorld_running Hcount))).
Defined.

(** ** Renders that change settings *)

Lemma solidColor_placement (c : string) (p q : Particle) :
  solidColor c p = Some q -> placement q = placement p /\ size q = size p.
Proof.
  unfold solidColor.
  destruct (channel c 1 3) as [r |]; [| done].
  destruct (channel c 3 5) as [g |]; [| done].
  destruct (channel c 5 7) as [b |]; [| done].
  cbn. destruct (rgbToHsl r g b) as [[h s] l]. by intros [= <-].
Qed.

Lemma reseed_placement (random : nat -> R) (pr : Props) (p q : Particle)
  (k k' : nat) :
  reseed random pr p k = Some (q, k') ->
  placement q = placement p /\ size q = particleSize (effects pr).
Proof.
  unfold reseed.
  destruct (String.eqb (colorMode (effects pr)) "rainbow");
    [by intros [= <- <-] |].
  destruct (String.eqb (colorMode (effects pr)) "solid");
    [| by intros [= <- <-]].
  destruct (solidColor _ _) as [q' |] eqn:Hs; [| done].
  cbn. intros [= <- <-].
  by destruct (solidColor_placement _ _ _ Hs) as [-> ->].
Qed.

Lemma forEach_reseed_placement (random : nat -> R) (pr : Props)
  (ps : list Particle) :
  forall (k : nat) (ps' : list Particle) (k' : nat),
  forEach_reseed random pr ps k = Some (ps', k') ->
  placement <$> ps' = placement <$> ps /\
  Forall (fun q => size q = particleSize (effects pr)) ps'.
Proof.
  induction ps as [| p rest IH]; intros k ps' k'.
  - by intros [= <- <-].
  - cbn [forEach_reseed].
    destruct (reseed random pr p k) as [[q k1] |] eqn:Hq; [| done].
    cbn [mbind option_bind].
    destruct (forEach_reseed random pr rest k1) as [[rest' k2] |] eqn:Hr;
      [| done].
    cbn. intros [= <- <-].
    destruct (reseed_placement _ _ _ _ _ _ Hq) as [Hpl Hsz].
    destruct (IH _ _ _ Hr) as [Hpl' Hsz'].
    split; [cbn; congruence | by constructor].
Qed.

Lemma colorEffect_keeps (random : nat -> R) (pr : Props) (w w' : World) :
  colorEffect random pr w = Some w' ->
  placement <$> particlesRef w' = placement <$> particlesRef w /\
  Forall (fun q => size q = particleSize (effects pr)) (particlesRef w') /\
  rafQueue w' = rafQueue w /\ animationFrameRef w' = animationFrameRef w /\
  rafNext w' = rafNext w /\ canvasRef w' = canvasRef w.
Proof.
  unfold colorEffect.
  destruct (forEach_reseed random pr (particlesRef w) (randomCalls w))
    as [[ps k] |] eqn:Hps; [| done].
  cbn. intros [= <-]. cbn.
  destruct (forEach_reseed_placement _ _ _ _ _ _ Hps) as [Hpl Hsz].
  done.
Qed.

(** X14: a render that changes no dependency of the init effect, only the
    colour mode, the particle size or the base colour, leaves the requested
    frame and its closure as they are: positions and velocities are kept,
    every particle gets the new radius, and the loop that goes on running
    is the one of the old props, which resolves colours by the old colour
    mode. *)
Theorem commit_keeps_old_closure (random : nat -> R) (old new : Props)
  (iw ih : nat) (w w' : World) :
  initDepsSame old new = true ->
  commit random old new iw ih w = Some w' ->
  rafQueue w' = rafQueue w /\
  placement <$> particlesRef w' = placement <$> particlesRef w /\
  (colorDepsSame old new = true -> w' = w) /\
  (colorDepsSame old new = false ->
     Forall (fun q => size q = particleSize (effects new))
            (particlesRef w')) /\
  (loop_running old w ->
     loop_running old w' /\
     run_frame w' = draw old (set_rafQueue [] w')).
Proof.
  intros Hinit. unfold commit. rewrite Hinit.
  destruct (colorDepsSame old new) eqn:Hcol.
  - intros [= <-]. do 4 (split; [done |]).
    intros Hrun. split; [done |].
    destruct Hrun as (_ & _ & Hq & _). unfold run_frame. by rewrite Hq.
  - intros Heff.
    destruct (colorEffect_keeps random new w w' Heff)
      as (Hpl & Hsz & Hq & Haf & Hn & Hc).
    do 2 (split; [done |]). split; [done |]. split; [done |].
    intros (Hcv & Hps & Hqw & Hh).
    assert (Hrun : loop_running old w').
    { split; [by rewrite Hc |]. split.
      - intros Hnil. rewrite Hnil in Hpl.
        by destruct (particlesRef w).
      - rewrite Hq, Haf, Hn. done. }
    split; [exact Hrun |].
    unfold run_frame. by rewrite Hq, Hqw.
Qed.

Lemma initDeps_mode_switch :
  initDepsSame initialProps rainbowModeProps = true.
Proof. unfold initDepsSame. cbn. eval_Rltb. reflexivity. Qed.

Lemma commit_keeps_old_closure_witness :
  initDepsSame initialProps rainbowModeProps = true /\
  exists w' : World,
    commit halves initialProps rainbowModeProps 1000 1000 pairWorld =
      Some w' /\
    rafQueue w' = [(1%nat, initialProps)].
Proof.
  split; [exact initDeps_mode_switch |].
  assert (Hc : commit halves initialProps rainbowModeProps 1000 1000
                 pairWorld =
               colorEffect halves rainbowModeProps pairWorld).
  { unfold commit. rewrite initDeps_mode_switch. reflexivity. }
  destruct (colorEffect halves rainbowModeProps pairWorld) as [w' |] eqn:He.
  - exists w'. split; [exact Hc |].
    exact (proj1 (commit_keeps_old_closure halves initialProps
                    rainbowModeProps 1000 1000 pairWorld w'
                    initDeps_mode_switch Hc)).
  - unfold colorEffect in He.
    rewrite (forEach_reseed_rainbow halves rainbowModeProps _ eq_refl) in He.
    discriminate He.
Defined.

(** X15: a render that changes a dependency of the init effect but none of
    the colour effect, such as a new particle count, creates the particles
    anew and does not colour them: whatever the colour mode and the base
    colour, every particle then has saturation 100 and brightness 100, so
    outside rainbow mode its colour resolves to [hsl(hue, 100%, 100%)]. *)
Theorem commit_resize_uncoloured (random : nat -> R) (old new : Props)
  (iw ih : nat) (w : World) (canvas : Canvas) :
  canvasRef w = Some canvas ->
  initDepsSame old new = false -> colorDepsSame old new = true ->
  commit random old new iw ih w = Some (rerunInit random new iw ih w) /\
  length (particlesRef (rerunInit random new iw ih w)) = particleCount new /\
  Forall (fun p =>
            saturation p = 100 /\ brightness p = 100 /\
            (colorMode (effects new) <> "rainbow"%string ->
             (getParticleColor (effects new) p).2 = Hsl (hue p) 100 100))
         (particlesRef (rerunInit random new iw ih w)).
Proof.
  intros Hc Hinit Hcol. unfold commit. rewrite Hinit, Hcol.
  split; [done |].
  destruct (initCleanup_refs w) as (Hc0 & _).
  unfold rerunInit.
  destruct (initEffect_particles random new iw ih (initCleanup w) canvas)
    as [-> _]; [congruence |].
  destruct (Array_from_createParticle random new iw ih (particleCount new)
              (randomCalls (initCleanup w))) as (Hlen & _ & Hlook).
  split; [exact Hlen |].
  apply Forall_lookup. intros i p Hp.
  pose proof (lookup_lt_Some _ _ _ Hp) as Hi. rewrite Hlen in Hi.
  rewrite (Hlook i Hi) in Hp. injection Hp as <-.
  do 2 (split; [reflexivity |]).
  intros Hmode%String.eqb_neq. unfold getParticleColor. by rewrite Hmode.
Qed.

Lemma initDeps_resize : initDepsSame initialProps resizedProps = false.
Proof. reflexivity. Qed.

Lemma colorDeps_resize : colorDepsSame initialProps resizedProps = true.
Proof. unfold colorDepsSame. cbn. eval_Rltb. reflexivity. Qed.

Lemma commit_resize_uncoloured_witness :
  canvasRef pairWorld = Some sampleCanvas /\
  initDepsSame initialProps resizedProps = false /\
  colorDepsSame initialProps resizedProps = true /\
  commit halves initialProps resizedProps 1000 1000 pairWorld =
    Some (rerunInit halves resizedProps 1000 1000 pairWorld).
Proof.
  split; [reflexivity |]. split; [exact initDeps_resize |].
  split; [exact colorDeps_resize |].
  exact (proj1 (commit_resize_uncoloured halves initialProps resizedProps
                  1000 1000 pairWorld sampleCanvas eq_refl
                  initDeps_resize colorDeps_resize)).
Defined.

(** ** The two variants *)

Lemma for_loop_ext {S : Type} (body body' : nat -> S -> S) (count : nat) :
  (forall i s, body i s = body' i s) ->
  forall (from : nat) (s : S),
  for_loop from count body s = for_loop from count body' s.
Proof.
  intros Hext. induction count as [| count IH]; intros from s; [done |].
  cbn. by rewrite Hext, IH.
Qed.

Lemma advance_no_radius (e : Effects) (m : R * R) (W H : R) (p : Particle) :
  mouseRepulsion e <= 0 ->
  advance e (Some m) W H p = advance e None W H p.
Proof.
  intros Hr. unfold advance, repel. rewrite Rltb_false; [done |].
  pose proof (sqrt_pos ((x p - m.1) * (x p - m.1) +
                        (y p - m.2) * (y p - m.2))). lra.
Qed.

(** X16: with the repulsion radius at 0, the lower end of its slider, the
    pointer has no effect at all: wherever the pointer is, a frame of the
    interactive variant is the frame of the variant without pointer
    repulsion. *)
Theorem draw_without_radius (pr : Props) (m : R * R) (w : World) :
  mouseRepulsion (effects pr) <= 0 ->
  draw pr (set_mousePositionRef (Some m) w) =
    set_mousePositionRef (Some m) (draw pr (set_mousePositionRef None w)) /\
  particlesRef (draw pr (set_mousePositionRef (Some m) w)) =
    particlesRef (draw pr (set_mousePositionRef None w)) /\
  paintLog (draw pr (set_mousePositionRef (Some m) w)) =
    paintLog (draw pr (set_mousePositionRef None w)).
Proof.
  intros Hr.
  assert (Hdraw : draw pr (set_mousePositionRef (Some m) w) =
            set_mousePositionRef (Some m)
              (draw pr (set_mousePositionRef None w))).
  { unfold draw. cbn [canvasRef set_mousePositionRef particlesRef
                      mousePositionRef].
    destruct (canvasRef w) as [canvas |]; [| done].
    destruct (context2d canvas) as [ctx |]; [| done].
    destruct (length (particlesRef w) =? 0)%nat; [done |].
    rewrite (for_loop_ext
               (iteration pr (Some m) (INR (width canvas))
                          (INR (height canvas)))
               (iteration pr None (INR (width canvas))
                          (INR (height canvas)))).
    - by destruct (for_loop 0 _ _ _) as [ps' ctx'].
    - intros i [ps ctx1]. unfold iteration.
      destruct (ps !! i) as [p |]; [| done].
      by rewrite advance_no_radius. }
  rewrite Hdraw. done.
Qed.

Lemma draw_without_radius_witness :
  mouseRepulsion (effects noRepulsionProps) <= 0 /\
  particlesRef
    (draw noRepulsionProps (set_mousePositionRef (Some (100, 100)) pairWorld))
  = particlesRef
      (draw noRepulsionProps (set_mousePositionRef None pairWorld)).
Proof.
  assert (Hr : mouseRepulsion (effects noRepulsionProps) <= 0)
    by (cbn; lra).
  split; [exact Hr |].
  exact (proj1 (proj2 (draw_without_radius noRepulsionProps (100, 100)
                         pairWorld Hr))).
Defined.

(** ** No particles *)

(** X17: with an empty particle array a frame only paints the fade
    rectangle, black at alpha [1 - trailLength] over the whole canvas, and
    returns without requesting another frame.  So with a particle count of
    0 the init effect starts a loop that ends with its first frame. *)
Theorem draw_empty_array (random : nat -> R) (pr : Props) (iw ih : nat)
  (w : World) (canvas : Canvas) (ctx : Ctx.t) :
  canvasRef w = Some canvas -> context2d canvas = Some ctx ->
  (particlesRef w = [] ->
     paintLog (draw pr w) =
       Ctx.painted ctx ++
       [FillRect (Plain (Rgba 0 0 0 (1 - trailLength (effects pr))))
                 (Ctx.shadowBlur ctx) 0 0
                 (INR (width canvas)) (INR (height canvas))] /\
     particlesRef (draw pr w) = [] /\
     rafQueue (draw pr w) = rafQueue w) /\
  (particleCount pr = 0%nat -> rafQueue w = [] ->
     rafQueue (initEffect random pr iw ih w) = [(rafNext w, pr)] /\
     rafQueue (run_frame (initEffect random pr iw ih w)) = [] /\
     paintLog (run_frame (initEffect random pr iw ih w)) =
       [FillRect (Plain (Rgba 0 0 0 (1 - trailLength (effects pr))))
                 0 0 0 (INR iw) (INR ih)]).
Proof.
  intros Hc Hctx.
  assert (Hempty : forall (w0 : World) (c0 : Canvas) (ctx0 : Ctx.t),
            canvasRef w0 = Some c0 -> context2d c0 = Some ctx0 ->
            particlesRef w0 = [] ->
            paintLog (draw pr w0) =
              Ctx.painted ctx0 ++
              [FillRect (Plain (Rgba 0 0 0 (1 - trailLength (effects pr))))
                        (Ctx.shadowBlur ctx0) 0 0
                        (INR (width c0)) (INR (height c0))] /\
            particlesRef (draw pr w0) = [] /\
            rafQueue (draw pr w0) = rafQueue w0).
  { intros w0 c0 ctx0 Hc0 Hctx0 Hps. unfold draw.
    rewrite Hc0, Hctx0, Hps. cbn. by rewrite Hps. }
  split; [by apply Hempty |].
  intros Hcount Hq.
  pose proof (initEffect_requests random pr iw ih w canvas Hc) as Hq1.
  destruct (initEffect_particles random pr iw ih w canvas Hc) as [Hps1 Hc1].
  rewrite Hcount in Hps1. cbn in Hps1. rewrite Hctx in Hc1. cbn in Hc1.
  rewrite Hq in Hq1. cbn in Hq1.
  set (w1 := initEffect random pr iw ih w) in *.
  split; [exact Hq1 |].
  assert (Hrun : run_frame w1 = draw pr (set_rafQueue [] w1)).
  { unfold run_frame. by rewrite Hq1. }
  rewrite Hrun.
  destruct (Hempty (set_rafQueue [] w1) _ Ctx.fresh Hc1 eq_refl Hps1)
    as (Hpaint & _ & Hq2).
  split; [exact Hq2 | exact Hpaint].
Qed.

Lemma draw_empty_array_witness :
  canvasRef (set_particlesRef [] pairWorld) = Some sampleCanvas /\
  context2d sampleCanvas = Some Ctx.fresh /\
  rafQueue (draw initialProps (set_particlesRef [] pairWorld)) =
    [(1%nat, initialProps)].
Proof.
  split; [reflexivity |]. split; [reflexivity |].
  exact (proj2 (proj2 (proj1
    (draw_empty_array halves initialProps 1000 1000
       (set_particlesRef [] pairWorld) sampleCanvas Ctx.fresh
       eq_refl eq_refl) eq_refl))).
Defined.

(** ** Rainbow hues and gradient lines *)

(** X18: in rainbow mode every gradient line that is drawn advances the
    hue of both its endpoints by one more step, on top of the step of their
    own fill: the inner loop body on a pair closer than the connection
    distance writes both particles back with hue [(hue + 1) % 360] and
    everything else unchanged, and leaves all other particles alone. *)
Theorem gradient_line_advances_hues (pr : Props) (ps : list Particle)
  (ctx : Ctx.t) (i j : nat) (p p2 : Particle) :
  colorMode (effects pr) = "rainbow"%string ->
  lineStyle (effects pr) = "gradient"%string ->
  ps !! i = Some p -> ps !! j = Some p2 -> i <> j ->
  distance p p2 < connectionDistance (effects pr) ->
  let ps' := (connect pr i j (ps, ctx)).1 in
  ps' !! i = Some (set_hue (js_rem (hue p + 1) 360) p) /\
  ps' !! j = Some (set_hue (js_rem (hue p2 + 1) 360) p2) /\
  (forall k : nat, k <> i -> k <> j -> ps' !! k = ps !! k) /\
  length ps' = length ps.
Proof.
  intros Hmode Hstyle Hi Hj Hij Hnear ps'.
  assert (Hps' : ps' = <[j := set_hue (js_rem (hue p2 + 1) 360) p2]>
                         (<[i := set_hue (js_rem (hue p + 1) 360) p]> ps)).
  { unfold ps', connect. rewrite Hi, Hj. fold (distance p p2).
    rewrite (Rltb_true _ _ Hnear).
    pose proof (drawLine_particles pr ctx p p2
      (opacity (distance p p2) (connectionDistance (effects pr)))) as Hd.
    rewrite Hstyle in Hd. cbn [String.eqb Ascii.eqb Bool.eqb] in Hd.
    unfold getParticleColor in Hd. rewrite Hmode in Hd.
    cbn [String.eqb Ascii.eqb Bool.eqb fst] in Hd.
    destruct (drawLine pr ctx p p2 _) as [[q q2] ctx'].
    cbn [fst snd] in *. by injection Hd as -> ->. }
  pose proof (lookup_lt_Some _ _ _ Hi) as Hli.
  pose proof (lookup_lt_Some _ _ _ Hj) as Hlj.
  rewrite Hps'. split; [| split; [| split]].
  - rewrite list_lookup_insert_ne by done.
    by rewrite list_lookup_insert_eq.
  - rewrite list_lookup_insert_eq; [done |]. by rewrite length_insert.
  - intros k Hki Hkj. by rewrite !list_lookup_insert_ne.
  - by rewrite !length_insert.
Qed.

Lemma gradient_line_advances_hues_witness :
  distance wrapParticle leftParticle < connectionDistance rainbowEffects /\
  (connect rainbowProps 0 1 ([wrapParticle; leftParticle], Ctx.fresh)).1
    !! 1%nat =
    Some (set_hue (js_rem (hue leftParticle + 1) 360) leftParticle).
Proof.
  assert (Hnear : distance wrapParticle leftParticle <
                  connectionDistance (effects rainbowProps)).
  { unfold distance. cbn. apply sqrt_lt_bound; lra. }
  split; [exact Hnear |].
  assert (Hij : 0%nat <> 1%nat) by discriminate.
  exact (proj1 (proj2
    (gradient_line_advances_hues rainbowProps [wrapParticle; leftParticle]
       Ctx.fresh 0 1 wrapParticle leftParticle eq_refl eq_refl
       eq_refl eq_refl Hij Hnear))).
Defined.

(** ** The footprint of a particle *)

(** X19: whatever the particle shape (circle, square, triangle, or the
    circle any other shape string falls back to), the path [drawParticle]
    fills lies within the square of half-width [size] around the position
    of the particle. *)
Theorem shape_within_size (e : Effects) (ctx : Ctx.t) (p : Particle) :
  0 <= size p ->
  Forall (within_box (x p - size p) (x p + size p)
                     (y p - size p) (y p + size p))
         (shapePath e p) /\
  exists style sc sb,
    Ctx.painted (drawParticle e ctx p).2 =
      Ctx.painted ctx ++ [Fill style sc sb (shapePath e p)].
Proof.
  intros Hs. split; [| apply drawParticle_effect].
  unfold shapePath.
  destruct (String.eqb (particleShape e) "square"),
    (String.eqb (particleShape e) "triangle");
    repeat (apply Forall_cons; split); try apply Forall_nil; cbn; lra.
Qed.

Lemma shape_within_size_witness :
  0 <= size leftParticle /\
  Forall (within_box 98 102 98 102) (shapePath initialEffects leftParticle).
Proof.
  assert (Hs : 0 <= size leftParticle) by (cbn; lra).
  split; [exact Hs |].
  pose proof (proj1 (shape_within_size initialEffects Ctx.fresh
                       leftParticle Hs)) as H.
  cbn [x y size leftParticle] in H.
  replace (100 - 2) with 98 in H by lra.
  replace (100 + 2) with 102 in H by lra.
  exact H.
Defined.

(** ** The first render *)

Lemma createParticle_in_bounds (random : nat -> R) (pr : Props)
  (iw ih k : nat) :
  (forall n : nat, 0 <= random n < 1) ->
  in_bounds (INR iw) (INR ih) (createParticle random pr iw ih k).1.
Proof.
  intros Hrnd. unfold in_bounds. cbn -[INR].
  pose proof (pos_INR iw). pose proof (pos_INR ih).
  pose proof (Hrnd k). pose proof (Hrnd (k + 1)%nat). nra.
Qed.

(** X20: the effects of the first render in solid mode, on a mounted
    canvas with a context and no frame requested yet: the canvas gets the
    window size and a fresh context, the particle array gets
    [particleCount] particles that all lie within the canvas and all carry
    the configured radius and the one solid colour, and the loop of this
    render's closure is running. *)
Theorem mount_solid (random : nat -> R) (pr : Props) (iw ih : nat)
  (h s l : R) (w : World) (canvas : Canvas) (ctx : Ctx.t) :
  (forall n : nat, 0 <= random n < 1) ->
  canvasRef w = Some canvas -> context2d canvas = Some ctx ->
  rafQueue w = [] -> (0 < rafNext w)%nat -> (0 < particleCount pr)%nat ->
  colorMode (effects pr) = "solid"%string ->
  (forall p, solidColor (particleColor pr) p =
             Some (p |> set_hue h |> set_saturation s |> set_brightness l)) ->
  exists w' : World,
    mount random pr iw ih w = Some w' /\
    loop_running pr w' /\
    canvasRef w' = Some (mkCanvas iw ih (Some Ctx.fresh)) /\
    length (particlesRef w') = particleCount pr /\
    Forall (fun p => in_bounds (INR iw) (INR ih) p /\
                     size p = particleSize (effects pr) /\
                     hue p = h /\ saturation p = s /\ brightness p = l)
           (particlesRef w').
Proof.
  intros Hrnd Hc Hctx Hq Hnext Hcount Hmode Hsolid.
  set (w1 := initEffect random pr iw ih w) in *.
  pose proof (initEffect_requests random pr iw ih w canvas Hc) as Hq1.
  destruct (initEffect_refs random pr iw ih w canvas Hc) as (Haf1 & Hn1 & _).
  destruct (initEffect_particles random pr iw ih w canvas Hc) as [Hps1 Hc1].
  destruct (Array_from_createParticle random pr iw ih (particleCount pr)
              (randomCalls w)) as (Hlen & _ & Hlook).
  rewrite Hq in Hq1. rewrite Hctx in Hc1. cbn in Hq1, Hc1.
  fold w1 in Hq1, Haf1, Hn1, Hps1, Hc1.
  pose proof (colorEffect_solid_form random pr h s l w1 Hmode Hsolid) as Heff.
  eexists. split; [exact Heff |].
  split; [| split; [done |]].
  - split; [by eauto |]. split.
    + cbn. rewrite Hps1. intros Hnil%fmap_nil_inv.
      rewrite Hnil in Hlen. cbn in Hlen. lia.
    + cbn. rewrite Hq1, Haf1, Hn1. split; [done | lia].
  - cbn [particlesRef set_particlesRef]. rewrite length_fmap, Hps1.
    split; [exact Hlen |].
    apply Forall_fmap, Forall_lookup. intros i p Hp.
    pose proof (lookup_lt_Some _ _ _ Hp) as Hi. rewrite Hlen in Hi.
    rewrite (Hlook i Hi) in Hp. injection Hp as <-.
    split; [| done].
    exact (createParticle_in_bounds random pr iw ih _ Hrnd).
Qed.

Lemma mount_solid_witness :
  (forall n : nat, 0 <= halves n < 1) /\
  canvasRef (set_rafQueue [] pairWorld) = Some sampleCanvas /\
  colorMode (effects initialProps) = "solid"%string /\
  exists w' : World,
    mount halves initialProps 1000 1000 (set_rafQueue [] pairWorld) =
      Some w' /\
    loop_running initialProps w' /\
    canvasRef w' = Some (mkCanvas 1000 1000 (Some Ctx.fresh)) /\
    length (particlesRef w') = particleCount initialProps /\
    Forall (fun p => in_bounds (INR 1000) (INR 1000) p /\
                     size p = particleSize (effects initialProps) /\
                     hue p = 0 /\ saturation p = 0 /\ brightness p = 100)
           (particlesRef w').
Proof.
  assert (Hh : forall n : nat, 0 <= halves n < 1)
    by (intros n; unfold halves; lra).
  split; [exact Hh |]. split; [reflexivity |]. split; [reflexivity |].
  apply (mount_solid halves initialProps 1000 1000 0 0 100
           (set_rafQueue [] pairWorld) sampleCanvas Ctx.fresh Hh
           eq_refl eq_refl eq_refl).
  - cbn. lia.
  - cbn. lia.
  - reflexivity.
  - exact solidColor_white.
Defined.
